(** * fmriprep/interfaces/images.py: grid conforming and reference grids

    A shallow embedding of the geometric part of
    [fmriprep/interfaces/images.py]: [ConformSeries._run_interface],
    [_gen_reference] and the single-file preamble of
    [IntraModalMerge._run_interface].

    Numbers.  Voxel counts are [Z].  In the model of a run, spacings,
    affines and tolerances are exact rationals [Q] and finite: that model
    carries the statements that do not hang on rounding (which files are
    written, which calls are made, bounds that rounding keeps).  Where the
    value computed is the point, the arithmetic is the machine's: [Ieee]
    gives numpy's float32 and float64 operations, and the rounding of
    [_gen_reference] and the target affine of [ConformSeries] are written
    with them.

    Libraries.  numpy, nibabel, nilearn and nipype are not part of the
    repository.  The few numpy array functions the code calls are written
    out below after numpy's documented behaviour on one- and two-dimensional
    arrays; the image libraries are taken as a [Collaborators] interface. *)

From Stdlib Require Import ZArith QArith Qround Qabs Qminmax Lia Lqa.
From Stdlib Require Import Ascii String SpecFloat.
From stdpp Require Import base option list strings gmap.

Local Open Scope Z_scope.

(** ** Exceptions and fallible values *)

Inductive exn : Type :=
| ValueError
| KeyError
| RuntimeError
| FileNotFoundError
| ImageFileError.

Definition result (A : Type) : Type := (exn + A)%type.

Definition rbind {A C} (r : result A) (k : A -> result C) : result C :=
  match r with
  | inl e => inl e
  | inr a => k a
  end.

Notation "'try' x <- r ; k" := (rbind r (fun x => k))
  (at level 10, x name, r at level 100, k at level 200,
   format "'[v' 'try'  x  <-  r ; '/' k ']'").

(** ** Machine numbers

    IEEE 754 binary floating point, rounding to nearest with ties to even,
    after the standard library's [SpecFloat].  A float32 read as a float64
    is the same number ([convert] is exact in that direction). *)

Module Ieee.

Record format : Type := Format { prec : Z; emax : Z }.

Definition binary32 : format := Format 24 128.

Definition binary64 : format := Format 53 1024.

Definition add (f : format) : spec_float -> spec_float -> spec_float :=
  SFadd (prec f) (emax f).

Definition sub (f : format) : spec_float -> spec_float -> spec_float :=
  SFsub (prec f) (emax f).

Definition mul (f : format) : spec_float -> spec_float -> spec_float :=
  SFmul (prec f) (emax f).

Definition div (f : format) : spec_float -> spec_float -> spec_float :=
  SFdiv (prec f) (emax f).

(** The float nearest to an integer. *)
Definition of_Z (f : format) (n : Z) : spec_float :=
  binary_normalize (prec f) (emax f) n 0 false.

(** A float brought into the format [f]. *)
Definition convert (f : format) (x : spec_float) : spec_float :=
  match x with
  | S754_finite s m e => binary_round (prec f) (emax f) s m e
  | _ => x
  end.

(** The float nearest to a rational. *)
Definition of_Q (f : format) (q : Q) : spec_float :=
  match Qnum q with
  | Z0 => S754_zero false
  | Zpos n => div f (S754_finite false n 0) (S754_finite false (Qden q) 0)
  | Zneg n => div f (S754_finite true n 0) (S754_finite false (Qden q) 0)
  end.

(** The number a float stands for; infinities and NaN stand for none. *)
Definition to_Q (x : spec_float) : option Q :=
  match x with
  | S754_zero _ => Some 0%Q
  | S754_finite s m e =>
      let n := if s then Zneg m else Zpos m in
      Some (match e with
            | Zneg p => Qred (Qmake n (2 ^ p))
            | _ => inject_Z (n * 2 ^ e)
            end)
  | _ => None
  end.


(** The same number: equal, or two zeros of either sign. *)
Definition same (x y : spec_float) : Prop :=
  x = y \/ exists s s', x = S754_zero s /\ y = S754_zero s'.

(** [np.rint]: the nearest whole number, ties to the even one, as a
    float. *)
Definition rint (f : format) (x : spec_float) : spec_float :=
  match x with
  | S754_finite s m (Zneg p) =>
      let d := Z.pow_pos 2 p in
      let q := Zpos m / d in
      let k := match 2 * (Zpos m mod d) ?= d with
               | Lt => q
               | Gt => q + 1
               | Eq => if Z.even q then q else q + 1
               end in
      binary_normalize (prec f) (emax f) (if s then - k else k) 0 s
  | _ => x
  end.

(** The whole part of a float, cut toward zero. *)
Definition trunc (x : spec_float) : option Z :=
  match x with
  | S754_zero _ => Some 0
  | S754_finite s m e =>
      let a := match e with
               | Zneg p => Zpos m / Z.pow_pos 2 p
               | _ => Zpos m * 2 ^ e
               end in
      Some (if s then - a else a)
  | _ => None
  end.

(** [x.astype(int)] of a float64: the whole part as an int64.  What numpy
    stores for NaN, an infinity or a value out of range is not defined. *)
Definition astype_int (x : spec_float) : option Z :=
  match trunc x with
  | Some k => if (- 2 ^ 63 <=? k) && (k <? 2 ^ 63) then Some k else None
  | None => None
  end.

End Ieee.

(** ** numpy on small arrays *)

Module Np.

(** One-dimensional broadcasting of an element-wise binary operation: equal
    lengths pair up, a length-one operand is stretched, anything else is
    numpy's "operands could not be broadcast together". *)
Definition broadcast2 {A C D} (f : A -> C -> D) (a : list A) (b : list C)
  : result (list D) :=
  if (length a =? length b)%nat then inr (zip_with f a b)
  else match a, b with
       | [x], _ => inr (map (f x) b)
       | _, [y] => inr (map (fun x => f x y) a)
       | _, _ => inl ValueError
       end.

(** Reduction along axis 0 of a list of rows; rows of unequal length do not
    form an array. *)
Fixpoint reduce_axis0 {A} (op : A -> A -> A) (acc : list A)
  (rows : list (list A)) : result (list A) :=
  match rows with
  | [] => inr acc
  | r :: rows' =>
      if (length r =? length acc)%nat
      then reduce_axis0 op (zip_with op acc r) rows'
      else inl ValueError
  end.

(** [np.max(rows, axis=0)]; an empty sequence has no maximum. *)
Definition max_axis0 (rows : list (list Z)) : result (list Z) :=
  match rows with
  | [] => inl ValueError
  | r :: rows' => reduce_axis0 Z.max r rows'
  end.

(** [np.min(rows, axis=0)]. *)
Definition min_axis0 (rows : list (list Q)) : result (list Q) :=
  match rows with
  | [] => inl ValueError
  | r :: rows' => reduce_axis0 Qmin r rows'
  end.

(** Default relative tolerance of [np.allclose]. *)
Definition rtol : Q := 1 # 100000.

(** [np.isclose] on one pair: |a - b| <= atol + rtol * |b|. *)
Definition isclose (atol a b : Q) : bool :=
  Qle_bool (Qabs (a - b)) (atol + rtol * Qabs b).

(** [np.allclose(a, b, atol=atol)]. *)
Definition allclose (a b : list Q) (atol : Q) : result bool :=
  try c <- broadcast2 (isclose atol) a b; inr (forallb id c).

(** [np.all(a == b)] on integer arrays. *)
Definition all_eq (a b : list Z) : result bool :=
  try c <- broadcast2 Z.eqb a b; inr (forallb id c).

(** [x.astype(int)]: truncation toward zero. *)
Definition astype_int (q : Q) : Z := Z.quot (Qnum q) (Z.pos (Qden q)).

(** [np.round(x, decimals)] on float32 values: [x] times ten to the
    [decimals], made whole by [np.rint], divided again, every step a
    float32 operation. *)
Definition round32 (x : spec_float) (decimals : nat) : spec_float :=
  let p := Ieee.convert Ieee.binary32
             (Ieee.of_Z Ieee.binary64 (10 ^ Z.of_nat decimals)) in
  Ieee.div Ieee.binary32
    (Ieee.rint Ieee.binary32 (Ieee.mul Ieee.binary32 x p)) p.


(** [np.round] of a spacing, as the number it comes to; it is a number
    whenever the spacing is [roundable]. *)
Definition round (q : Q) (decimals : nat) : Q :=
  default 0%Q (Ieee.to_Q (round32 (Ieee.of_Q Ieee.binary32 q) decimals)).

(** [np.diag(v)]: the square matrix with [v] on its diagonal. *)
Fixpoint diag_rows (before : nat) (v : list Q) : list (list Q) :=
  match v with
  | [] => []
  | x :: v' =>
      (replicate before 0%Q ++ x :: replicate (length v') 0%Q)
        :: diag_rows (S before) v'
  end.

Definition diag (v : list Q) : list (list Q) := diag_rows 0 v.

(** The combination sum_k r_k * Y_k of the rows of [Y]. *)
Fixpoint lincomb (ncols : nat) (r : list Q) (Y : list (list Q)) : list Q :=
  match r, Y with
  | x :: r', y :: Y' => zip_with Qplus (map (Qmult x) y) (lincomb ncols r' Y')
  | _, _ => replicate ncols 0%Q
  end.

(** [X.dot(Y)] for two-dimensional arrays; the inner dimensions must
    agree. *)
Definition dot (X Y : list (list Q)) : result (list (list Q)) :=
  let ncols := match Y with [] => O | y :: _ => length y end in
  if forallb (fun r => (length r =? length Y)%nat) X
  then inr (map (fun r => lincomb ncols r Y) X)
  else inl ValueError.

End Np.

(** ** Data model *)

Definition vec3 : Type := (Q * Q * Q)%type.

(** A 3x3 matrix, by rows. *)
Definition mat3 : Type := (vec3 * vec3 * vec3)%type.

(** The 4x4 affine of an image: the code reads [affine[:3, :3]] and
    [affine[:3, 3]] only; the last row is [0 0 0 1]. *)
Record affine4 : Type := Affine { lin : mat3; trans : vec3 }.

Definition vec3_list (v : vec3) : list Q :=
  let '(x, y, z) := v in [x; y; z].

Definition mat3_rows (m : mat3) : list (list Q) :=
  let '(a, b, c) := m in [vec3_list a; vec3_list b; vec3_list c].

Definition vec3_of_list (l : list Q) : result vec3 :=
  match l with
  | [x; y; z] => inr (x, y, z)
  | _ => inl ValueError
  end.

Definition mat3_of_rows (m : list (list Q)) : result mat3 :=
  match m with
  | [a; b; c] =>
      try a' <- vec3_of_list a;
      try b' <- vec3_of_list b;
      try c' <- vec3_of_list c;
      inr (a', b', c')
  | _ => inl ValueError
  end.

(** The affine as the 4x4 array handed to the resampler. *)
Definition affine_rows (A : affine4) : list (list Q) :=
  let '(a, b, c) := lin A in
  let '(tx, ty, tz) := trans A in
  [vec3_list a ++ [tx]; vec3_list b ++ [ty]; vec3_list c ++ [tz];
   [0; 0; 0; 1]]%Q.

(** Entry [(i, j)] of a 3x3 matrix; indices past 2 read the last one. *)
Definition component (v : vec3) (i : nat) : Q :=
  let '(x, y, z) := v in
  match i with O => x | S O => y | _ => z end.

Definition row (m : mat3) (i : nat) : vec3 :=
  let '(a, b, c) := m in
  match i with O => a | S O => b | _ => c end.

Definition entry (m : mat3) (i j : nat) : Q := component (row m i) j.

(** The diagonal 3x3 matrix. *)
Definition diag3 (d0 d1 d2 : Q) : mat3 :=
  ((d0, 0, 0), (0, d1, 0), (0, 0, d2))%Q.

(** A numpy array: its shape and its voxel buffer.  The code never looks
    inside the buffer, so its type is left open. *)
Record ndarray (V : Type) : Type := Array { arr_shape : list Z; arr_buf : V }.
Arguments Array {V} _ _.
Arguments arr_shape {V} _.
Arguments arr_buf {V} _.

Definition ndim {V} (a : ndarray V) : nat := length (arr_shape a).

(** The header fields the code reads: [get_zooms()] and
    [get_xyzt_units()[0]]. *)
Record nifti_header : Type :=
  Header { hdr_zooms : list Q; hdr_xyz_units : string }.

Record image (V : Type) : Type :=
  Image { dataobj : ndarray V; affine : affine4; header : nifti_header }.
Arguments Image {V} _ _ _.
Arguments dataobj {V} _.
Arguments affine {V} _.
Arguments header {V} _.

Definition img_shape {V} (img : image V) : list Z := arr_shape (dataobj img).
Definition get_zooms {V} (img : image V) : list Q := hdr_zooms (header img).

(** A Python object: a value with an identity, so that [final is orig] can
    be asked. *)
Record obj (V : Type) : Type := Obj { oid : nat; oval : image V }.
Arguments Obj {V} _ _.
Arguments oid {V} _.
Arguments oval {V} _.

Inductive interpolation : Type := Continuous | Nearest.

Inductive resample_src : Type :=
| SrcObject (id : nat)
| SrcPath (path : string).

(** One invocation of the resampling collaborator. *)
Inductive call : Type :=
| Resample (src : resample_src) (target_affine : list (list Q))
    (target_shape : option (list Z)) (interp : interpolation).

(** ** The external collaborators

    [nb_load] and [nb_save] are nibabel's reading and writing of a file's
    bytes; [as_closest_canonical] answers [None] when nibabel hands back the
    very image it was given (already canonical) and [Some img'] when it
    builds a reoriented one; [resample_img] is nilearn's, with its optional
    target shape and its interpolation; the last two derive file names. *)
Class Collaborators (V B : Type) : Type := {
  nb_load : B -> result (image V);
  nb_save : image V -> B;
  as_closest_canonical : image V -> option (image V);
  resample_img : image V -> list (list Q) -> option (list Z) ->
                 interpolation -> result (image V);
  fname_presuffix : string -> string -> string -> string;
  genfname : string -> string -> string
}.

(** The tolerance table of [ConformSeries], keyed by unit name. *)
Definition atol_table : gmap string Q :=
  {[ "meter" := 5e-5; "mm" := 0.05; "micron" := 50 ]}%Q.

(** ** The world: files, object identities, collaborator calls *)

Section Program.
Context {V B : Type} `{!Collaborators V B}.

Record world : Type :=
  World { fs : gmap string B; next_id : nat; calls : list call }.

(** Effectful code: it may raise, and what it did before raising stays
    done. *)
Definition M (A : Type) : Type := world -> result A * world.

Definition ret {A} (a : A) : M A := fun w => (inr a, w).

Definition raise {A} (e : exn) : M A := fun w => (inl e, w).

Definition lift {A} (r : result A) : M A := fun w => (r, w).

Definition bind {A C} (m : M A) (k : A -> M C) : M C :=
  fun w =>
    match m w with
    | (inl e, w') => (inl e, w')
    | (inr a, w') => k a w'
    end.

Notation "'do' x <- m ; k" := (bind m (fun x => k))
  (at level 10, x name, m at level 100, k at level 200,
   format "'[v' 'do'  x  <-  m ; '/' k ']'").

Fixpoint mapM {A C} (f : A -> M C) (l : list A) : M (list C) :=
  match l with
  | [] => ret []
  | a :: l' => do c <- f a; do cs <- mapM f l'; ret (c :: cs)
  end.

Definition read_file (name : string) : M B :=
  fun w =>
    match fs w !! name with
    | Some b => (inr b, w)
    | None => (inl FileNotFoundError, w)
    end.

Definition write_file (name : string) (b : B) : M unit :=
  fun w => (inr tt, World (<[name := b]> (fs w)) (next_id w) (calls w)).

(** A newly built Python object gets an identity no other object has. *)
Definition new_object (v : image V) : M (obj V) :=
  fun w => (inr (Obj (next_id w) v),
            World (fs w) (S (next_id w)) (calls w)).

Definition record (c : call) : M unit :=
  fun w => (inr tt, World (fs w) (next_id w) (calls w ++ [c])).

(** [nb.load(fname)] *)
Definition nb_load_file (fname : string) : M (obj V) :=
  do b <- read_file fname;
  do img <- lift (nb_load b);
  new_object img.

(** [nb.as_closest_canonical(img)] *)
Definition closest_canonical (o : obj V) : M (obj V) :=
  match as_closest_canonical (oval o) with
  | None => ret o
  | Some v => new_object v
  end.

(** ** ConformSeries._run_interface *)

(** Lines 156-161: the unit, its default, and the tolerance looked up. *)
Definition xyz_atol (unit_name : string) : result Q :=
  let xyz_unit := if String.eqb unit_name "unknown" then "mm" else unit_name in
  match atol_table !! xyz_unit with
  | Some atol => inr atol
  | None => inl KeyError
  end.

(** Lines 170-171: [np.diag(target_zooms / zooms).dot(affine[:3, :3])],
    stored into the 3x3 block of the target affine.  Exact here; numpy's
    value is [scaled_linear64] further down. *)
Definition scaled_linear (target_zooms zooms : list Q) (A : mat3)
  : result mat3 :=
  try scale_factor <- Np.broadcast2 Qdiv target_zooms zooms;
  try m <- Np.dot (Np.diag scale_factor) (mat3_rows A);
  mat3_of_rows m.

(** Lines 178-181: the proportional shift, cut to integers.  Exact here;
    numpy's value is [shifted_translation64] further down. *)
Definition shifted_translation (target_shape shape : list Z) (t : vec3)
  : result vec3 :=
  try total <- Np.broadcast2 Qplus
                 (map inject_Z target_shape) (map inject_Z shape);
  try size_factor <- Np.broadcast2 Qdiv
                       total (map (fun s => inject_Z (2 * s)) shape);
  try scaled <- Np.broadcast2 Qmult (vec3_list t) size_factor;
  try diff <- Np.broadcast2 Qminus scaled (vec3_list t);
  let offset := map Np.astype_int diff in
  try moved <- Np.broadcast2 Qplus (vec3_list t) (map inject_Z offset);
  vec3_of_list moved.

(** Lines 168-183: the target affine of an image that is rescaled, resized
    or both. *)
Definition synth_target_affine (rescale resize : bool)
  (target_shape : list Z) (target_zooms : list Q) (img : image V)
  : result affine4 :=
  let zooms := take 3 (get_zooms img) in
  let shape := img_shape img in
  try l <- (if rescale
            then scaled_linear target_zooms zooms (lin (affine img))
            else inr (lin (affine img)));
  try t <- (if resize
            then shifted_translation target_shape shape (trans (affine img))
            else inr (trans (affine img)));
  inr (Affine l t).

(** Lines 165-166: the two decisions. *)
Definition decide_rescale (target_zooms : list Q) (img : image V)
  : result bool :=
  try atol <- xyz_atol (hdr_xyz_units (header img));
  try close <- Np.allclose (take 3 (get_zooms img)) target_zooms atol;
  inr (negb close).

Definition decide_resize (target_shape : list Z) (img : image V)
  : result bool :=
  try same <- Np.all_eq (img_shape img) target_shape;
  inr (negb same).

(** Lines 152-188: the body of the loop over the reoriented images.  The
    image built at line 186 is given the resampled data, the target affine
    and the header object of the image it replaces; nibabel brings the
    spacing of that header in line with the affine when it builds or writes
    the image, so the statements below measure the voxel size of an output
    on its affine. *)
Definition conform_one (target_shape : list Z) (target_zooms : list Q)
  (o : obj V) : M (obj V) :=
  let img := oval o in
  do rescale <- lift (decide_rescale target_zooms img);
  do resize <- lift (decide_resize target_shape img);
  if rescale || resize then
    do target_affine <- lift (synth_target_affine rescale resize
                                target_shape target_zooms img);
    do _ <- record (Resample (SrcObject (oid o)) (affine_rows target_affine)
                      (Some target_shape) Continuous);
    do res <- lift (resample_img img (affine_rows target_affine)
                      (Some target_shape) Continuous);
    new_object (Image (dataobj res) target_affine (header img))
  else ret o.

(** Lines 195-198: one output is a copy of the input file when the final
    image is the loaded object itself, and is written from memory
    otherwise.  Files are held by name, each with its own content: where
    nipype makes the copy a hard link, the two agree as long as no later
    write goes through a linked name, which output names that are distinct
    and new ensure. *)
Definition persist (orig final : obj V) (in_name out_name : string)
  : M unit :=
  if (oid final =? oid orig)%nat
  then do b <- read_file in_name; write_file out_name b
  else write_file out_name (nb_save (oval final)).

(** Lines 193-198: the loop over [zip(orig_imgs, resampled_imgs, in_names,
    out_names)]. *)
Fixpoint persist_all (origs finals : list (obj V))
  (in_names out_names : list string) : M unit :=
  match origs, finals, in_names, out_names with
  | orig :: origs', final :: finals', i :: ins', o :: outs' =>
      do _ <- persist orig final i o;
      persist_all origs' finals' ins' outs'
  | _, _, _, _ => ret tt
  end.

(** Lines 147-149. *)
Definition target_grid (reoriented : list (image V))
  : result (list Z * list Q) :=
  try target_shape <- Np.max_axis0 (map img_shape reoriented);
  try target_zooms <- Np.min_axis0
                        (map (fun img => take 3 (get_zooms img)) reoriented);
  inr (target_shape, target_zooms).

(** Lines 139-202: [ConformSeries._run_interface], from the input names
    and the working directory to the output names. *)
Definition ConformSeries_run (t1w_list : list string) (cwd : string)
  : M (list string) :=
  let in_names := t1w_list in
  do orig_imgs <- mapM nb_load_file in_names;
  do reoriented <- mapM closest_canonical orig_imgs;
  do target <- lift (target_grid (map oval reoriented));
  do resampled_imgs <- mapM (conform_one target.1 target.2) reoriented;
  let out_names := map (fun fname => fname_presuffix fname "_ras" cwd)
                     in_names in
  do _ <- persist_all orig_imgs resampled_imgs in_names out_names;
  ret out_names.

(** ** _gen_reference *)

(** Lines 298-310.  The resampler is given the name of the fixed image and
    reads the file itself. *)
Definition _gen_reference (fixed_image moving_image : string)
  (out_file : option string) : M string :=
  let out_file := match out_file with
                  | None => genfname fixed_image "reference"
                  | Some f => f
                  end in
  do moving <- nb_load_file moving_image;
  let new_zooms := take 3 (get_zooms (oval moving)) in
  let new_zooms_round := map (fun z => Np.round z 3) new_zooms in
  do _ <- record (Resample (SrcPath fixed_image) (Np.diag new_zooms_round)
                    None Nearest);
  do fixed <- nb_load_file fixed_image;
  do ref <- lift (resample_img (oval fixed) (Np.diag new_zooms_round)
                    None Nearest);
  do _ <- write_file out_file (nb_save ref);
  ret out_file.

(** ** IntraModalMerge._run_interface, lines 84-103 (one input file) *)

(** [np.squeeze]: axes of length one are dropped; the buffer is the same. *)
Definition squeeze (a : ndarray V) : ndarray V :=
  Array (filter (fun d => d ≠ 1) (arr_shape a)) (arr_buf a).

(** Where the one-file branch leaves: it either returns the file as both
    outputs, or goes on to motion correction with it. *)
Inductive single_file_exit : Type :=
| ReturnedAsIs (out_file out_avg : string)
| ToMotionCorrection (in_file : string).

Definition IntraModalMerge_single (in_file : string) : M single_file_exit :=
  do filenii <- nb_load_file in_file;
  let filedata := dataobj (oval filenii) in
  do in_file' <-
    (if (ndim filedata =? 5)%nat then
       let sqdata := squeeze filedata in
       if (ndim sqdata =? 5)%nat then raise RuntimeError
       else
         let squeezed := genfname in_file "squeezed" in
         do img <- new_object (Image sqdata (affine (oval filenii))
                                 (header (oval filenii)));
         do _ <- write_file squeezed (nb_save (oval img));
         ret squeezed
     else ret in_file);
  do again <- nb_load_file in_file';
  if (ndim (squeeze (dataobj (oval again))) <? 4)%nat
  then ret (ReturnedAsIs in_file' in_file')
  else ret (ToMotionCorrection in_file').

End Program.

Arguments world : clear implicits.
Arguments M : clear implicits.

(** ** A reference set of collaborators

    Small executable stand-ins for nibabel, nilearn and the naming helpers,
    used to run the program on concrete series.  A file holds the image
    nibabel would read from it; a voxel buffer is a label saying where the
    voxels came from. *)

Module Ref.

Fixpoint has_slash (s : string) : bool :=
  match s with
  | EmptyString => false
  | String c s' => Ascii.eqb c "/"%char || has_slash s'
  end.

Fixpoint basename (s : string) : string :=
  match s with
  | EmptyString => EmptyString
  | String c s' =>
      if Ascii.eqb c "/"%char || has_slash s' then basename s' else s
  end.

Fixpoint has_dot (s : string) : bool :=
  match s with
  | EmptyString => false
  | String c s' => Ascii.eqb c "."%char || has_dot s'
  end.

(** [os.path.splitext] past the leading dots: the extension starts at the
    last dot. *)
Fixpoint split_last_dot (s : string) : string * string :=
  match s with
  | EmptyString => (EmptyString, EmptyString)
  | String c s' =>
      if Ascii.eqb c "."%char && negb (has_dot s') then (EmptyString, s)
      else let '(name, ext) := split_last_dot s' in (String c name, ext)
  end.

Fixpoint splitext (s : string) : string * string :=
  match s with
  | String "." s' => let '(name, ext) := splitext s' in (String "." name, ext)
  | _ => split_last_dot s
  end.

Fixpoint ends_with (ext s : string) : bool :=
  String.eqb s ext
  || match s with
     | EmptyString => false
     | String _ s' => ends_with ext s'
     end.

Definition without (ext s : string) : string :=
  String.substring 0 (String.length s - String.length ext) s.

(** nipype's [split_filename] on a base name: three double extensions are
    known, any other name is cut by [splitext]. *)
Definition split_filename (b : string) : string * string :=
  let special ext := ends_with ext b
                     && (String.length ext <? String.length b)%nat in
  if special ".nii.gz" then (without ".nii.gz" b, ".nii.gz")
  else if special ".tar.gz" then (without ".tar.gz" b, ".tar.gz")
  else if special ".niml.dset" then (without ".niml.dset" b, ".niml.dset")
  else splitext b.

(** [newpath/<name><suffix><ext>] *)
Definition presuffix (fname suffix newpath : string) : string :=
  let '(name, ext) := split_filename (basename fname) in
  (newpath +:+ "/" +:+ name +:+ suffix +:+ ext)%string.

(** fmriprep's [genfname]: [<name>_<suffix><ext>] in the working
    directory, [.gz] taking the extension before it along. *)
Definition gen_name (in_file suffix : string) : string :=
  let '(name, ext) := splitext (basename in_file) in
  let '(name, ext) :=
    if String.eqb ext ".gz"
    then let '(name', ext') := splitext name in (name', (ext' +:+ ext)%string)
    else (name, ext) in
  (name +:+ "_" +:+ suffix +:+ ext)%string.

(** Reorientation of an axis-aligned image: every voxel axis that runs
    against its world axis is flipped.  An image with no such axis is
    handed back as it is. *)
Definition flip_affine (A : affine4) (shape : list Z) (k : nat) : affine4 :=
  let '((a00, a01, a02), (a10, a11, a12), (a20, a21, a22)) := lin A in
  let '(tx, ty, tz) := trans A in
  let last := inject_Z (default 1 (shape !! k) - 1) in
  match k with
  | O => Affine ((- a00, a01, a02), (- a10, a11, a12), (- a20, a21, a22))
           (tx + a00 * last, ty + a10 * last, tz + a20 * last)
  | S O => Affine ((a00, - a01, a02), (a10, - a11, a12), (a20, - a21, a22))
             (tx + a01 * last, ty + a11 * last, tz + a21 * last)
  | _ => Affine ((a00, a01, - a02), (a10, a11, - a12), (a20, a21, - a22))
           (tx + a02 * last, ty + a12 * last, tz + a22 * last)
  end%Q.

(** The voxel axes that run against their world axes. *)
Definition against_world (A : affine4) : list nat :=
  let '((a00, _, _), (_, a11, _), (_, _, a22)) := lin A in
  map fst (filter (fun p => negb (Qle_bool 0 (snd p)))
             [(0%nat, a00); (1%nat, a11); (2%nat, a22)]).

Definition flip_axis (img : image string) (k : nat) : image string :=
  let label := (arr_buf (dataobj img) +:+ " flipped along axis "
                  +:+ match k with O => "0" | S O => "1" | _ => "2" end)%string
  in
  Image (Array (img_shape img) label)
    (flip_affine (affine img) (img_shape img) k) (header img).

Definition canonical (img : image string) : option (image string) :=
  match against_world (affine img) with
  | [] => None
  | axes => Some (foldl flip_axis img axes)
  end.

(** The extent of the source along world axis [i]: the lowest and the
    highest coordinate its voxel centres reach. *)
Definition world_bounds (src : image string) (i : nat) : Q * Q :=
  let reach := zip_with (fun n a => (inject_Z (n - 1) * a)%Q)
                 (img_shape src)
                 (vec3_list (row (lin (affine src)) i)) in
  let o := component (trans (affine src)) i in
  (foldr (fun r lo => (lo + Qmin 0 r)%Q) o reach,
   foldr (fun r hi => (hi + Qmax 0 r)%Q) o reach).

(** The target affine as an [affine4]: a 4x4 array is taken whole; a 3x3
    array, which must be diagonal here, gets the corner of the source's
    bounding box as its origin. *)
Definition read_target (rows : list (list Q)) (src : image string)
  : result affine4 :=
  match rows with
  | [[a; b; c; tx]; [d; e; f; ty]; [g; h; i; tz]; _] =>
      inr (Affine ((a, b, c), (d, e, f), (g, h, i)) (tx, ty, tz))
  | [[a; b; c]; [d; e; f]; [g; h; i]] =>
      if forallb (fun q => Qeq_bool q 0) [b; c; d; f; g; h]
         && negb (existsb (fun q => Qeq_bool q 0) [a; e; i])
      then
        let corner t k :=
          if Qle_bool 0 t then fst (world_bounds src k)
          else snd (world_bounds src k) in
        inr (Affine ((a, b, c), (d, e, f), (g, h, i))
               (corner a 0%nat, corner e 1%nat, corner i 2%nat))
      else inl ValueError
  | _ => inl ValueError
  end.

(** The grid that covers the source's extent at the new voxel size, axis by
    axis. *)
Definition covering_shape (src : image string) (target : affine4)
  : list Z :=
  let '((t0, _, _), (_, t1, _), (_, _, t2)) := lin target in
  map (fun p : nat * Q =>
         let '(lo, hi) := world_bounds src (fst p) in
         Qceiling ((hi - lo) / Qabs (snd p)) + 1)
    [(0%nat, t0); (1%nat, t1); (2%nat, t2)].

Definition interp_name (i : interpolation) : string :=
  match i with Continuous => "continuous" | Nearest => "nearest" end.

Definition resample (src : image string) (rows : list (list Q))
  (target_shape : option (list Z)) (interp : interpolation)
  : result (image string) :=
  try target <- read_target rows src;
  try shape <- match target_shape with
               | Some s => if (length s =? 3)%nat then inr s
                           else inl ValueError
               | None => inr (covering_shape src target)
               end;
  let '((t0, _, _), (_, t1, _), (_, _, t2)) := lin target in
  inr (Image
         (Array shape
            (interp_name interp +:+ " resampling of "
               +:+ arr_buf (dataobj src))%string)
         target
         (Header [Qabs t0; Qabs t1; Qabs t2]
            (hdr_xyz_units (header src)))).

#[global] Instance collaborators : Collaborators string (image string) := {
  nb_load := inr;
  nb_save := id;
  as_closest_canonical := canonical;
  resample_img := resample;
  fname_presuffix := presuffix;
  genfname := gen_name
}.

Definition empty_world : world (image string) := World ∅ 0 [].

(** An axis-aligned image: spacings on the diagonal, origin [t]. *)
Definition axis_aligned (shape : list Z) (x y z : Q) (t : vec3)
  (unit_name label : string) : image string :=
  Image (Array shape label)
    (Affine ((x, 0, 0), (0, y, 0), (0, 0, z))%Q t)
    (Header [Qabs x; Qabs y; Qabs z] unit_name).

(** *** Series to run the program on *)

(** Two T1w runs of one subject, 2 mm isotropic, one with 30 slices and one
    with 36. *)
Definition t1w_30 : image string :=
  axis_aligned [64; 64; 30] 2 2 2 (-64, -64, -30)%Q "mm" "run-1".

Definition t1w_36 : image string :=
  axis_aligned [64; 64; 36] 2 2 2 (-64, -64, -36)%Q "mm" "run-2".

Definition two_runs : world (image string) :=
  World (<["/data/run-1_T1w.nii.gz" := t1w_30]>
           (<["/data/run-2_T1w.nii.gz" := t1w_36]> ∅)) 0 [].

(** The same run twice over, already on one grid. *)
Definition same_grid : world (image string) :=
  World (<["/data/run-1_T1w.nii.gz" := t1w_36]>
           (<["/data/run-2_T1w.nii.gz" := t1w_36]> ∅)) 0 [].

(** One image stored right to left (LAS), its unit not reported. *)
Definition t1w_las : image string :=
  axis_aligned [64; 64; 30] (-2) 2 2 (64, -64, -30)%Q "unknown" "las".

Definition one_las : world (image string) :=
  World (<["/data/las_T1w.nii.gz" := t1w_las]> ∅) 0 [].

Definition two_las : world (image string) :=
  World (<["/data/las-1_T1w.nii.gz" := t1w_las]>
           (<["/data/las-2_T1w.nii.gz" := t1w_las]> ∅)) 0 [].

(** One image with two axes only. *)
Definition flat_slice : image string :=
  Image (Array [64; 64] "slice")
    (Affine ((2, 0, 0), (0, 2, 0), (0, 0, 1)) (-64, -64, 0))%Q
    (Header [2; 2]%Q "mm").

Definition one_slice : world (image string) :=
  World (<["/data/slice.nii.gz" := flat_slice]> ∅) 0 [].

(** Two images with two axes each, of different shapes. *)
Definition short_slice : image string :=
  Image (Array [64; 32] "short slice")
    (Affine ((2, 0, 0), (0, 2, 0), (0, 0, 1)) (-64, -32, 0))%Q
    (Header [2; 2]%Q "mm").

Definition two_slices : world (image string) :=
  World (<["/data/slice.nii.gz" := flat_slice]>
           (<["/data/short.nii.gz" := short_slice]> ∅)) 0 [].

(** An image coarser along the third axis and shorter than the target. *)
Definition t1w_thick : image string :=
  axis_aligned [64; 64; 30] 1 1 (6 # 5) (-32, -32, -19)%Q "mm" "thick".

(** A fixed image and two moving images that differ in everything but
    their spacing to three decimals. *)
Definition mni : image string :=
  axis_aligned [91; 109; 91] 2 2 2 (-90, -126, -72)%Q "mm" "template".

Definition bold_1 : image string :=
  axis_aligned [64; 64; 34] 1.0001 1.0002 0.9999 (-32, -32, -17)%Q "mm"
    "bold-1".

Definition bold_2 : image string :=
  Image (Array [80; 80; 40; 200] "bold-2")
    (Affine ((0, 1.0004, 0), (0.9996, 0, 0), (0, 0, 1)) (5, 7, 9))%Q
    (Header [0.9996; 1.0004; 1; 2.5]%Q "unknown").

Definition registration : world (image string) :=
  World (<["/tpl/mni.nii.gz" := mni]>
           (<["/data/bold-1.nii.gz" := bold_1]>
              (<["/data/bold-2.nii.gz" := bold_2]> ∅))) 0 [].


(** Magnitude images with five axes, without and with an axis of length
    one. *)
Definition magnitude_5d : image string :=
  Image (Array [4; 4; 4; 2; 3] "magnitude")
    (Affine ((2, 0, 0), (0, 2, 0), (0, 0, 2)) (0, 0, 0))%Q
    (Header [2; 2; 2; 1; 1]%Q "mm").

Definition magnitude_5d_thin : image string :=
  Image (Array [4; 4; 4; 1; 3] "magnitude")
    (Affine ((2, 0, 0), (0, 2, 0), (0, 0, 2)) (0, 0, 0))%Q
    (Header [2; 2; 2; 1; 1]%Q "mm").

Definition fieldmaps : world (image string) :=
  World (<["/data/mag.nii.gz" := magnitude_5d]>
           (<["/data/mag-thin.nii.gz" := magnitude_5d_thin]> ∅)) 0 [].

End Ref.


(** ** Vocabulary of the statements *)

(** [t] is the axis-wise maximum of [rows]: on every axis it is at least the
    entry of every row, and it is the entry of one of them. *)
Definition axiswise_max (rows : list (list Z)) (t : list Z) : Prop :=
  Forall (fun r => Forall2 Z.le r t) rows /\
  forall k m, t !! k = Some m -> exists r, r ∈ rows /\ r !! k = Some m.

(** [t] is the axis-wise minimum of [rows]. *)
Definition axiswise_min (rows : list (list Q)) (t : list Q) : Prop :=
  Forall (fun r => Forall2 (flip Qle) r t) rows /\
  forall k m, t !! k = Some m -> exists r, r ∈ rows /\ r !! k = Some m.

(** The squared length of column [j] of the linear part: the square of the
    voxel size along voxel axis [j], as measured on the affine. *)
Definition voxel_size_sq (A : affine4) (j : nat) : Q :=
  (entry (lin A) 0 j * entry (lin A) 0 j
   + entry (lin A) 1 j * entry (lin A) 1 j
   + entry (lin A) 2 j * entry (lin A) 2 j)%Q.

(** The first three spacings of the header, as the code slices them. *)
Definition zooms3 {V} (img : image V) : list Q := take 3 (get_zooms img).

Definition positive_zooms {V} (img : image V) : Prop :=
  Forall (fun z => (0 < z)%Q) (zooms3 img).

(** ** The stages of a run of [ConformSeries], as relations *)

Section Stages.
Context {V B : Type} `{!Collaborators V B}.

(** [o] is the object [nb.load] built from the file [fname] of [w]. *)
Definition loaded (w : world B) (fname : string) (o : obj V) : Prop :=
  exists b, fs w !! fname = Some b /\ nb_load b = inr (oval o).

(** [r] is what line 146 makes of the loaded object [o]: [o] itself when it
    is canonical already, or else an object built after the first [n]. *)
Definition reoriented (n : nat) (o r : obj V) : Prop :=
  match as_closest_canonical (oval o) with
  | None => r = o
  | Some v => oval r = v /\ (n <= oid r)%nat
  end.

(** [x] is what the loop body (lines 152-188) makes of [r]: [r] itself when
    neither decision holds, or else an object built after the first [n],
    holding the resampled data, the target affine and the header of [r]. *)
Definition conformed (n : nat) (target_shape : list Z)
  (target_zooms : list Q) (r x : obj V) : Prop :=
  exists rescale resize,
    decide_rescale target_zooms (oval r) = inr rescale /\
    decide_resize target_shape (oval r) = inr resize /\
    if rescale || resize then
      exists A res,
        synth_target_affine rescale resize target_shape target_zooms (oval r)
          = inr A /\
        resample_img (oval r) (affine_rows A) (Some target_shape) Continuous
          = inr res /\
        oval x = Image (dataobj res) A (header (oval r)) /\
        (n <= oid x)%nat
    else x = r.

(** The call of the resampler the loop body makes for [r], if any. *)
Definition resample_call (target_shape : list Z) (target_zooms : list Q)
  (r : obj V) : list call :=
  match decide_rescale target_zooms (oval r),
        decide_resize target_shape (oval r) with
  | inr rescale, inr resize =>
      if rescale || resize then
        match synth_target_affine rescale resize target_shape target_zooms
                (oval r) with
        | inr A => [Resample (SrcObject (oid r)) (affine_rows A)
                      (Some target_shape) Continuous]
        | inl _ => []
        end
      else []
  | _, _ => []
  end.

(** Output names that clash neither with each other nor with an input. *)
Definition hygienic (in_names out_names : list string) : Prop :=
  NoDup out_names /\ forall f, f ∈ in_names -> f ∉ out_names.

(** Everything a successful run did, stage by stage. *)
Record conform_trace (in_names : list string) (cwd : string)
  (w0 : world B) (out_names : list string) (w1 : world B)
  (orig_imgs reoriented_imgs resampled_imgs : list (obj V))
  (target_shape : list Z) (target_zooms : list Q) : Prop := {
  tr_loaded : Forall2 (loaded w0) in_names orig_imgs;
  tr_ids : map oid orig_imgs = seq (next_id w0) (length in_names);
  tr_reoriented :
    Forall2 (reoriented (next_id w0 + length in_names))
      orig_imgs reoriented_imgs;
  tr_distinct : NoDup (map oid reoriented_imgs);
  tr_grid :
    target_grid (map oval reoriented_imgs) = inr (target_shape, target_zooms);
  tr_conformed :
    Forall2 (conformed (next_id w0 + length in_names)
               target_shape target_zooms)
      reoriented_imgs resampled_imgs;
  tr_calls :
    calls w1 = calls w0
               ++ flat_map (resample_call target_shape target_zooms)
                    reoriented_imgs;
  tr_names :
    out_names = map (fun fname => fname_presuffix fname "_ras" cwd) in_names;
  tr_copied :
    hygienic in_names out_names ->
    forall i o x f out,
      orig_imgs !! i = Some o -> resampled_imgs !! i = Some x ->
      in_names !! i = Some f -> out_names !! i = Some out ->
      fs w1 !! out = if (oid x =? oid o)%nat then fs w0 !! f
                     else Some (nb_save (oval x));
  tr_untouched :
    forall g, g ∉ out_names -> fs w1 !! g = fs w0 !! g
}.

End Stages.

(** ** Matrices up to equality of rationals *)

Definition mat3_equiv (m n : mat3) : Prop :=
  forall i j, (entry m i j == entry n i j)%Q.

(** [diag(s)] times [m], entry by entry: row [i] of [m] multiplied by
    [s_i]. *)
Definition scale_rows (s : vec3) (m : mat3) : mat3 :=
  let '(s0, s1, s2) := s in
  let '((a, b, c), (d, e, f), (g, h, i)) := m in
  ((s0 * a, s0 * b, s0 * c),
   (s1 * d, s1 * e, s1 * f),
   (s2 * g, s2 * h, s2 * i))%Q.

(** ** What is asked of the resampler

    Given a target shape, nilearn returns data of that shape. *)
Definition resample_gives_shape {V B} `{!Collaborators V B} : Prop :=
  forall (img : image V) A shape interp res,
    resample_img img A (Some shape) interp = inr res ->
    img_shape res = shape.

(** ** The stages of [_gen_reference] *)

Section Reference.
Context {V B : Type} `{!Collaborators V B}.

(** The file [fname] of [w] reads as the image [img]. *)
Definition stored (w : world B) (fname : string) (img : image V) : Prop :=
  exists b, fs w !! fname = Some b /\ nb_load b = inr img.





End Reference.

(** ** Orientation, as read on the linear part

    Two linear parts have the same orientation when every entry has the
    same sign in both: each voxel axis points along the same world axes, in
    the same directions. *)
Definition same_orientation (m n : mat3) : Prop :=
  forall i j,
    ((0 < entry m i j)%Q <-> (0 < entry n i j)%Q) /\
    ((entry m i j < 0)%Q <-> (entry n i j < 0)%Q).

(** The name [ConformSeries] gives the output of [fname]. *)
Definition ras_name {V B} `{!Collaborators V B} (cwd fname : string)
  : string :=
  fname_presuffix fname "_ras" cwd.

(** An image that already sits on the grid [(ts, tz)]: its shape is [ts]
    and its first three spacings are within the tolerance of its unit of
    [tz]. *)
Definition on_grid {V B} `{!Collaborators V B} (ts : list Z) (tz : list Q)
  (img : image V) : Prop :=
  img_shape img = ts /\
  exists atol,
    xyz_atol (hdr_xyz_units (header img)) = inr atol /\
    Forall2 (fun z t => (Qabs (z - t) <= atol)%Q) (zooms3 img) tz.

(** An image of two axes with a unit the table knows. *)
Definition two_axes {V B} `{!Collaborators V B} (img : image V) : Prop :=
  length (img_shape img) = 2%nat /\ length (zooms3 img) = 2%nat /\
  exists atol, xyz_atol (hdr_xyz_units (header img)) = inr atol.

(** ** A run, seen from its files *)

Section Outcomes.
Context {V B : Type} `{!Collaborators V B}.

(** The image that enters the grid computation for a loaded image [img]:
    what line 146 makes of it, [img] itself when it is canonical already. *)
Definition canonical_form (img : image V) : image V :=
  default img (as_closest_canonical img).

(** [x] is the image the loop body (lines 152-188) ends with for the loaded
    image [img], on the target grid [(ts, tz)]. *)
Definition outcome (ts : list Z) (tz : list Q) (img x : image V) : Prop :=
  exists rescale resize,
    decide_rescale tz (canonical_form img) = inr rescale /\
    decide_resize ts (canonical_form img) = inr resize /\
    if rescale || resize then
      exists A res,
        synth_target_affine rescale resize ts tz (canonical_form img)
          = inr A /\
        resample_img (canonical_form img) (affine_rows A) (Some ts) Continuous
          = inr res /\
        x = Image (dataobj res) A (header (canonical_form img))
    else x = canonical_form img.

(** The file [out] of [w] holds the image [x]: it was written from [x], or
    it is a copy of a file that reads as [x]. *)
Definition output_holds (w : world B) (out : string) (x : image V) : Prop :=
  fs w !! out = Some (nb_save x) \/ stored w out x.

End Outcomes.

(** * The rest of the file

    The functions of [fmriprep/interfaces/images.py] that the grid
    computations leave out: [reorient], [_flatten_split_merge],
    [InvertT1w._run_interface], [extract_wm] and
    [IntraModalMerge._run_interface] in full.  Where a function looks at
    the voxels, a voxel buffer is the list of the array's entries in C
    order, as exact rationals.  FSL, [os.path.abspath] and Python's string
    formatting join the collaborators. *)

From Stdlib Require Import Sorted.

(** ** What an action may write *)

(** [m] leaves every file whose name is outside [P] as it was, however it
    ends. *)
Definition writes_within {B A : Type} (P : string -> Prop) (m : M B A)
  : Prop :=
  forall w r w', m w = (r, w') ->
  forall g, ~ P g -> fs w' !! g = fs w !! g.

(** ** Vocabulary of the further statements *)

(** The image [img] with its spacings expressed in a unit [k] times
    smaller. *)
Definition in_smaller_unit {V} (k : Q) (unit_name : string) (img : image V)
  : image V :=
  Image (dataobj img) (affine img)
    (Header (map (Qmult k) (hdr_zooms (header img))) unit_name).

(** ** More ways to fail

    The functions below can also raise IndexError, and string formatting
    TypeError.  [NotFinite] is not an exception: it marks the point where
    numpy has divided by zero and the arrays hold inf or nan, which the
    rationals cannot follow; what the run does from there on is not
    described. *)
Inductive failure : Type :=
| Raised (e : exn)
| IndexError
| TypeError
| NotFinite.

Definition outcome_of (A : Type) : Type := (failure + A)%type.

Definition obind {A C} (r : outcome_of A) (k : A -> outcome_of C)
  : outcome_of C :=
  match r with
  | inl e => inl e
  | inr a => k a
  end.

(** Effectful code that may fail in these ways. *)
Definition X (B A : Type) : Type := world B -> outcome_of A * world B.

Definition xret {B A} (a : A) : X B A := fun w => (inr a, w).

Definition xraise {B A} (e : failure) : X B A := fun w => (inl e, w).

Definition xlift {B A} (r : outcome_of A) : X B A := fun w => (r, w).

Definition xbind {B A C} (m : X B A) (k : A -> X B C) : X B C :=
  fun w =>
    match m w with
    | (inl e, w') => (inl e, w')
    | (inr a, w') => k a w'
    end.

(** An action of the first kind, among these. *)
Definition of_M {B A} (m : M B A) : X B A :=
  fun w =>
    match m w with
    | (inl e, w') => (inl (Raised e), w')
    | (inr a, w') => (inr a, w')
    end.

(** An exception of the first kind, among these. *)
Definition of_result {A} (r : result A) : outcome_of A :=
  match r with
  | inl e => inl (Raised e)
  | inr a => inr a
  end.

(** [l[0]] *)
Definition first_of {A} (l : list A) : outcome_of A :=
  match l with
  | [] => inl IndexError
  | a :: _ => inr a
  end.

(** ** numpy on voxel buffers

    A buffer lists the voxels of an array in C order, the last axis
    running fastest. *)

Module Arr.

Fixpoint insert_sorted (x : Q) (l : list Q) : list Q :=
  match l with
  | [] => [x]
  | y :: l' =>
      match (x ?= y)%Q with
      | Lt => x :: y :: l'
      | Eq => y :: l'
      | Gt => y :: insert_sorted x l'
      end
  end.

(** [np.unique(data)]: the distinct values, in increasing order. *)
Definition unique (data : list Q) : list Q := foldr insert_sorted [] data.

(** [u[[1, -1]]]: the second entry and the last one. *)
Definition second_and_last (u : list Q) : outcome_of (Q * Q) :=
  match u !! 1%nat, last u with
  | Some a, Some b => inr (a, b)
  | _, _ => inl IndexError
  end.

(** [data.min()]; an empty array has no minimum. *)
Definition amin (data : list Q) : outcome_of Q :=
  match data with
  | [] => inl (Raised ValueError)
  | x :: data' => inr (foldr Qmin x data')
  end.

(** The [n] consecutive pieces of length [len] of a buffer. *)
Definition pieces {A} (n len : nat) (l : list A) : list (list A) :=
  map (fun j => take len (drop (j * len) l)) (seq 0 n).

(** The entry-wise sum of rows of length [len]. *)
Definition sum_rows (len : nat) (rows : list (list Q)) : list Q :=
  foldr (zip_with Qplus) (replicate len 0%Q) rows.

Definition product (dims : list Z) : Z := foldr Z.mul 1 dims.

(** [data.mean(axis=3)]: for every position of the other axes, the sum
    along the fourth axis divided by its length, exactly.  An array of
    fewer than four axes has no axis 3; the mean along an axis of length
    zero is nan. *)
Definition mean_axis3 (a : ndarray (list Q)) : outcome_of (ndarray (list Q)) :=
  match arr_shape a with
  | x :: y :: z :: t :: post =>
      let outer := Z.to_nat (x * y * z) in
      let inner := Z.to_nat (product post) in
      let count := Z.to_nat t in
      if (count =? 0)%nat then
        if (outer * inner =? 0)%nat then inr (Array (x :: y :: z :: post) [])
        else inl NotFinite
      else
        inr (Array (x :: y :: z :: post)
               (concat
                  (map (fun block =>
                          map (fun s => (s / inject_Z t)%Q)
                            (sum_rows inner (pieces count inner block)))
                     (pieces outer (count * inner) (arr_buf a)))))
  | _ => inl (Raised ValueError)
  end.

End Arr.

(** ** The target affine, in the machine's arithmetic

    Lines 168-183 of [ConformSeries._run_interface] on the numbers numpy
    holds: the affine is float64, the spacings of a header are float32,
    shapes are int64. *)

Definition fvec3 : Type := (spec_float * spec_float * spec_float)%type.

Definition fmat3 : Type := (fvec3 * fvec3 * fvec3)%type.

Record faffine : Type := FAffine { flin : fmat3; ftrans : fvec3 }.

Definition fvec3_list (v : fvec3) : list spec_float :=
  let '(x, y, z) := v in [x; y; z].

Definition fmat3_rows (m : fmat3) : list (list spec_float) :=
  let '(a, b, c) := m in [fvec3_list a; fvec3_list b; fvec3_list c].

Definition fvec3_of_list (l : list spec_float) : result fvec3 :=
  match l with
  | [x; y; z] => inr (x, y, z)
  | _ => inl ValueError
  end.

Definition fmat3_of_rows (m : list (list spec_float)) : result fmat3 :=
  match m with
  | [a; b; c] =>
      try a' <- fvec3_of_list a;
      try b' <- fvec3_of_list b;
      try c' <- fvec3_of_list c;
      inr (a', b', c')
  | _ => inl ValueError
  end.

Definition fcomponent (v : fvec3) (i : nat) : spec_float :=
  let '(x, y, z) := v in
  match i with O => x | S O => y | _ => z end.

Definition frow (m : fmat3) (i : nat) : fvec3 :=
  let '(a, b, c) := m in
  match i with O => a | S O => b | _ => c end.

Definition fentry (m : fmat3) (i j : nat) : spec_float :=
  fcomponent (frow m i) j.

(** numpy on arrays of floats. *)
Module Npf.

Definition zero : spec_float := S754_zero false.

(** [np.diag(v)] *)
Fixpoint diag_rows (before : nat) (v : list spec_float)
  : list (list spec_float) :=
  match v with
  | [] => []
  | x :: v' =>
      (replicate before zero ++ x :: replicate (length v') zero)
        :: diag_rows (S before) v'
  end.

Definition diag (v : list spec_float) : list (list spec_float) :=
  diag_rows 0 v.

(** The combination sum_k r_k * Y_k of the rows of [Y], summed from the
    last term; any other order of the sum is as good when all terms but one
    are zero. *)
Fixpoint lincomb (f : Ieee.format) (ncols : nat) (r : list spec_float)
  (Y : list (list spec_float)) : list spec_float :=
  match r, Y with
  | x :: r', y :: Y' =>
      zip_with (Ieee.add f) (map (Ieee.mul f x) y) (lincomb f ncols r' Y')
  | _, _ => replicate ncols zero
  end.

(** [X.dot(Y)] *)
Definition dot (f : Ieee.format) (X Y : list (list spec_float))
  : result (list (list spec_float)) :=
  let ncols := match Y with [] => O | y :: _ => length y end in
  if forallb (fun r => (length r =? length Y)%nat) X
  then inr (map (fun r => lincomb f ncols r Y) X)
  else inl ValueError.

End Npf.

(** An int64 after an operation that may overflow. *)
Definition wrap64 (n : Z) : Z := (n + 2 ^ 63) mod 2 ^ 64 - 2 ^ 63.

(** Line 170: [target_zooms / zooms], float32. *)
Definition scale_factor (target_zooms zooms : list spec_float)
  : result (list spec_float) :=
  Np.broadcast2 (Ieee.div Ieee.binary32) target_zooms zooms.

(** Line 171: [np.diag(scale_factor).dot(img.affine[:3, :3])]; the float32
    matrix is read as float64 for the product. *)
Definition scaled_linear64 (target_zooms zooms : list spec_float) (A : fmat3)
  : result fmat3 :=
  try s <- scale_factor target_zooms zooms;
  try m <- Npf.dot Ieee.binary64
             (Npf.diag (map (Ieee.convert Ieee.binary64) s)) (fmat3_rows A);
  fmat3_of_rows m.

(** Line 178: [(target_shape.astype(float) + shape) / (2 * shape)]. *)
Definition size_factor (target_shape shape : list Z)
  : result (list spec_float) :=
  try total <- Np.broadcast2 (Ieee.add Ieee.binary64)
                 (map (Ieee.of_Z Ieee.binary64) target_shape)
                 (map (Ieee.of_Z Ieee.binary64) shape);
  Np.broadcast2 (Ieee.div Ieee.binary64) total
    (map (fun n => Ieee.of_Z Ieee.binary64 (wrap64 (2 * n))) shape).

(** [x.astype(int)] of an array. *)
Fixpoint astype_int_all (l : list spec_float) : option (list Z) :=
  match l with
  | [] => Some []
  | x :: l' =>
      match Ieee.astype_int x, astype_int_all l' with
      | Some k, Some ks => Some (k :: ks)
      | _, _ => None
      end
  end.

(** Line 180: [(t * size_factor - t).astype(int)]. *)
Definition offset (t : fvec3) (factor : list spec_float)
  : outcome_of (list Z) :=
  obind (of_result (Np.broadcast2 (Ieee.mul Ieee.binary64)
                      (fvec3_list t) factor)) (fun scaled =>
  obind (of_result (Np.broadcast2 (Ieee.sub Ieee.binary64)
                      scaled (fvec3_list t))) (fun diff =>
  match astype_int_all diff with
  | Some whole => inr whole
  | None => inl NotFinite
  end)).

(** Lines 178-181. *)
Definition shifted_translation64 (target_shape shape : list Z) (t : fvec3)
  : outcome_of fvec3 :=
  obind (of_result (size_factor target_shape shape)) (fun factor =>
  obind (offset t factor) (fun whole =>
  obind (of_result (Np.broadcast2 (Ieee.add Ieee.binary64) (fvec3_list t)
                      (map (Ieee.of_Z Ieee.binary64) whole))) (fun moved =>
  of_result (fvec3_of_list moved)))).

(** Lines 168-183. *)
Definition target_affine (rescale resize : bool)
  (target_shape : list Z) (target_zooms zooms : list spec_float)
  (shape : list Z) (A : faffine) : outcome_of faffine :=
  obind (if rescale
         then of_result (scaled_linear64 target_zooms zooms (flin A))
         else inr (flin A)) (fun l =>
  obind (if resize
         then shifted_translation64 target_shape shape (ftrans A)
         else inr (ftrans A)) (fun t =>
  inr (FAffine l t))).

(** The affine of an image read from a NIfTI header, whose entries are
    float32 values that numpy holds as float64. *)
Definition affine_as (f : Q -> spec_float) (A : affine4) : faffine :=
  let v3 (v : vec3) := let '(x, y, z) := v in (f x, f y, f z) in
  let '(a, b, c) := lin A in
  FAffine (v3 a, v3 b, v3 c) (v3 (trans A)).

Definition affine_stored : affine4 -> faffine :=
  affine_as (fun q => Ieee.convert Ieee.binary64
                        (Ieee.of_Q Ieee.binary32 q)).


(** ** More collaborators *)

(** [os.path.abspath], and Python's [name % i] on a string. *)
Class Paths : Type := {
  abspath : string -> string;
  percent : string -> nat -> outcome_of string
}.

(** nibabel's [four_to_three] and [concat_images]. *)
Class Funcs (V : Type) : Type := {
  four_to_three : image V -> result (list (image V));
  concat_images : list (image V) -> outcome_of (image V)
}.

(** FSL's [Merge(dimension='t')], which answers with the merged file, and
    [MCFLIRT(cost='normcorr', save_mats=True, save_plots=True, ref_vol=0)],
    which answers with its [out_file], [mat_file] and [par_file].  Both run
    programs that read and write files. *)
Class Fsl (B : Type) : Type := {
  Merge : list string -> M B string;
  MCFLIRT : string -> M B (string * list string * string)
}.

(** [nb.squeeze_image]: axes of length one at the end of the shape are
    dropped, the first three axes always stay. *)
Fixpoint strip_ones (backwards : list Z) : list Z :=
  match backwards with
  | [] => []
  | d :: l => if d =? 1 then strip_ones l else d :: l
  end.

Definition squeeze_image {V} (img : image V) : image V :=
  let shape := img_shape img in
  Image (Array (take 3 shape ++ rev (strip_ones (rev (drop 3 shape))))
           (arr_buf (dataobj img)))
    (affine img) (header img).

Section Rest.
Context {V B : Type} `{!Collaborators V B} `{!Funcs V} `{!Paths}.

(** ** reorient, lines 242-254 *)
Definition reorient (in_file : string) (out_file : option string)
  : M B string :=
  let out_file := match out_file with
                  | None => genfname in_file "ras"
                  | Some f => f
                  end in
  bind (nb_load_file in_file) (fun nii =>
  bind (closest_canonical nii) (fun nii =>
  bind (write_file out_file (nb_save (oval nii))) (fun _ =>
  ret out_file))).

(** ** _flatten_split_merge, lines 257-295 *)

(** Lines 267-272: what one file adds to [all_nii]. *)
Definition volumes_of (img : image V) : result (list (image V)) :=
  let nii := squeeze_image img in
  if (3 <? ndim (dataobj nii))%nat then four_to_three nii else inr [nii].

Definition load_volumes (fname : string) : M B (list (image V)) :=
  bind (nb_load_file fname) (fun nii => lift (volumes_of (oval nii))).

(** Lines 283-285, from index [i] on. *)
Fixpoint write_split (splitname : string) (i : nat)
  (all_nii : list (image V)) : X B (list string) :=
  match all_nii with
  | [] => xret []
  | nii :: rest =>
      xbind (xlift (percent splitname i)) (fun name =>
      xbind (of_M (write_file name (nb_save nii))) (fun _ =>
      xbind (write_split splitname (S i) rest) (fun names =>
      xret (name :: names))))
  end.

Definition _flatten_split_merge (in_files : list string)
  : X B (string * list string) :=
  let nfiles := length in_files in
  xbind (of_M (mapM load_volumes in_files)) (fun per_file =>
  let all_nii := concat per_file in
  if (length all_nii =? 1)%nat then
    xbind (xlift (first_of in_files)) (fun first =>
    xret (first, in_files))
  else
    xbind (if (length all_nii =? nfiles)%nat then xret in_files
           else
             xbind (xlift (first_of in_files)) (fun first =>
             write_split (genfname first "split%04d") 0 all_nii))
      (fun flat_split =>
    xbind (if (nfiles =? 1)%nat then xlift (first_of in_files)
           else
             xbind (xlift (first_of in_files)) (fun first =>
             let merged := genfname first "merged" in
             xbind (xlift (concat_images all_nii)) (fun series =>
             xbind (of_M (write_file merged (nb_save series))) (fun _ =>
             xret merged))))
      (fun merged =>
    xret (merged, flat_split)))).

End Rest.

(** ** Functions that look at the voxels *)

(** What [IntraModalMerge] reports. *)
Record merge_outputs : Type :=
  Outputs { out_file : string; out_avg : string;
            out_mats : option (list string); out_movpar : option string }.

Section Voxels.
Context {B : Type} `{!Collaborators (list Q) B} `{!Paths} `{!Fsl B}.

(** *** InvertT1w._run_interface, lines 220-239

    Voxels are exact rationals: the arithmetic of line 234 is that of
    real numbers, which numpy follows on floating-point data up to
    rounding and leaves on integer data that wrap.  A scale factor that
    divides by zero is no number; the run is not followed beyond it. *)

(** [v > 0] *)
Definition in_mask (v : Q) : bool := negb (Qle_bool v 0).

(** Line 234, for one voxel. *)
Definition invert_voxel (t1_max scale_factor epi_min v : Q) : Q :=
  ((if in_mask v then 1 else 0) * ((t1_max - v) * scale_factor + epi_min))%Q.

Definition InvertT1w_run (in_file epi_ref cwd : string) : X B string :=
  xbind (of_M (nb_load_file in_file)) (fun t1_img =>
  let t1_data := dataobj (oval t1_img) in
  xbind (of_M (nb_load_file epi_ref)) (fun epi_img =>
  let epi_data := dataobj (oval epi_img) in
  xbind (xlift (Arr.second_and_last (Arr.unique (arr_buf t1_data))))
    (fun '(t1_min, t1_max) =>
  xbind (xlift (Arr.second_and_last (Arr.unique (arr_buf epi_data))))
    (fun '(epi_min, epi_max) =>
  if Qeq_bool t1_max t1_min then xraise NotFinite
  else
    let scale_factor := ((epi_max - epi_min) / (t1_max - t1_min))%Q in
    let inv_data :=
      Array (arr_shape t1_data)
        (map (invert_voxel t1_max scale_factor epi_min) (arr_buf t1_data)) in
    let inverted := fname_presuffix in_file "_inv" cwd in
    xbind (of_M (new_object (Image inv_data (affine (oval t1_img))
                               (header (oval t1_img))))) (fun img =>
    xbind (of_M (write_file inverted (nb_save (oval img)))) (fun _ =>
    xret inverted)))))).

(** *** extract_wm, lines 313-324 *)

(** Lines 319-320: one where the label is, zero elsewhere. *)
Definition wm_mask (wm_label : Q) (data : list Q) : list Q :=
  map (fun v => if Qeq_bool v wm_label then 1%Q else 0%Q) data.

(** The file is named relative to the working directory; files are kept
    under their absolute names. *)
Definition extract_wm (in_seg : string) (wm_label : Q) : M B string :=
  bind (nb_load_file in_seg) (fun nii =>
  let data := Array (img_shape (oval nii))
                (wm_mask wm_label (arr_buf (dataobj (oval nii)))) in
  bind (new_object (Image data (affine (oval nii)) (header (oval nii))))
    (fun img =>
  bind (write_file (abspath "wm.nii.gz") (nb_save (oval img))) (fun _ =>
  ret (abspath "wm.nii.gz")))).

(** *** IntraModalMerge._run_interface, lines 72-123 *)

(** Lines 84-106: the file handed to motion correction, unless the run
    ends before. *)
Definition merge_input (in_files reoriented : list string)
  : M B single_file_exit :=
  match reoriented with
  | [in_file] => IntraModalMerge_single in_file
  | _ => bind (Merge in_files) (fun merged => ret (ToMotionCorrection merged))
  end.

(** Lines 116-117. *)
Definition zero_based (data : list Q) : outcome_of (list Q) :=
  obind (Arr.amin data) (fun lowest =>
  inr (map (fun v => (v - lowest)%Q) data)).

Definition IntraModalMerge_run (in_files : list string)
  (hmc zero_based_avg to_ras : bool) : X B merge_outputs :=
  xbind (xlift (first_of in_files)) (fun first =>
  let avg := genfname first "avg" in
  xbind (if to_ras
         then of_M (mapM (fun inf => reorient inf None) in_files)
         else xret in_files) (fun reoriented =>
  xbind (of_M (merge_input in_files reoriented)) (fun exit =>
  match exit with
  | ReturnedAsIs file average => xret (Outputs file average None None)
  | ToMotionCorrection in_file =>
      xbind (of_M (MCFLIRT in_file)) (fun '(mc_file, mat_file, par_file) =>
      xbind (of_M (nb_load_file mc_file)) (fun hmcnii =>
      xbind (xlift (Arr.mean_axis3 (dataobj (oval hmcnii)))) (fun hmcdat =>
      xbind (xlift (if zero_based_avg then zero_based (arr_buf hmcdat)
                    else inr (arr_buf hmcdat))) (fun voxels =>
      xbind (of_M (new_object
                     (Image (Array (arr_shape hmcdat) voxels)
                        (affine (oval hmcnii)) (header (oval hmcnii)))))
        (fun img =>
      xbind (of_M (write_file avg (nb_save (oval img)))) (fun _ =>
      xret (Outputs mc_file avg (Some mat_file) (Some par_file))))))))
  end))).

End Voxels.

(** ** Vocabulary for the voxel statements *)

Definition voxels (img : image (list Q)) : list Q := arr_buf (dataobj img).

(** [x] is the largest value of [data]. *)
Definition is_largest (data : list Q) (x : Q) : Prop :=
  x ∈ data /\ forall y, y ∈ data -> (y <= x)%Q.

(** [x] is the second smallest value of [data]: one value [m] lies below
    it, and every entry is [m] or at least [x]. *)
Definition is_second_smallest (data : list Q) (x : Q) : Prop :=
  x ∈ data /\
  exists m, m ∈ data /\ (m < x)%Q /\
    forall y, y ∈ data -> (y == m)%Q \/ (x <= y)%Q.

(** All entries of [data] are one and the same value. *)
Definition constant (data : list Q) : Prop :=
  forall x y, x ∈ data -> y ∈ data -> (x == y)%Q.

(** ** Vocabulary for [_flatten_split_merge] *)

(** The file [fname] reads as an image that lines 267-272 turn into the
    volumes [vols]. *)
Definition splits_into {V B} `{!Collaborators V B} `{!Funcs V}
  (w : world B) (fname : string) (vols : list (image V)) : Prop :=
  exists img, stored w fname img /\ volumes_of img = inr vols.

(** The files after every image was saved under its name, in order. *)
Definition save_each {V B} `{!Collaborators V B}
  (names : list string) (imgs : list (image V)) (files : gmap string B)
  : gmap string B :=
  foldl (fun m p => <[p.1 := nb_save p.2]> m) files (zip names imgs).

(** [names] are the split names of [n] volumes, numbered from [i]. *)
Definition split_names `{!Paths} (splitname : string) (i n : nat)
  (names : list string) : Prop :=
  Forall2 (fun j name => percent splitname j = inr name) (seq i n) names.

(** ** Reference collaborators for voxel data

    Stand-ins to run the voxel functions on small images: a file holds the
    image read from it, voxels are rationals in C order. *)

Module RefVox.

(** The buffer of an array of shape [shape], flipped along axis [k]. *)
Definition flip_buffer (shape : list Z) (k : nat) (buf : list Q) : list Q :=
  let n := Z.to_nat (default 1 (shape !! k)) in
  let inner := Z.to_nat (Arr.product (drop (S k) shape)) in
  let outer := Z.to_nat (Arr.product (take k shape)) in
  concat (map (fun block => concat (reverse (Arr.pieces n inner block)))
            (Arr.pieces outer (n * inner) buf)).

Definition flip_axis (img : image (list Q)) (k : nat) : image (list Q) :=
  Image (Array (img_shape img)
           (flip_buffer (img_shape img) k (arr_buf (dataobj img))))
    (Ref.flip_affine (affine img) (img_shape img) k) (header img).

(** Reorientation of an axis-aligned image: every voxel axis that runs
    against its world axis is flipped, voxels and affine; an image with no
    such axis is handed back as it is. *)
Definition flipped (img : image (list Q)) : option (image (list Q)) :=
  match Ref.against_world (affine img) with
  | [] => None
  | axes => Some (foldl flip_axis img axes)
  end.

(** No interpolation of voxel data here: the resampler declines. *)
Definition declined (src : image (list Q)) (rows : list (list Q))
  (target_shape : option (list Z)) (interp : interpolation)
  : result (image (list Q)) :=
  inl RuntimeError.

#[global] Instance voxel_collaborators
  : Collaborators (list Q) (image (list Q)) := {
  nb_load := inr;
  nb_save := id;
  as_closest_canonical := flipped;
  resample_img := declined;
  fname_presuffix := Ref.presuffix;
  genfname := Ref.gen_name
}.

(** Volume [i] of a series of [count] volumes over [n] voxels. *)
Definition volume (n count i : nat) (buf : list Q) : list Q :=
  omap (fun j => buf !! (j * count + i)%nat) (seq 0 n).

Definition split_series (img : image (list Q))
  : result (list (image (list Q))) :=
  match img_shape img with
  | [x; y; z; t] =>
      inr (map (fun i =>
                  Image (Array [x; y; z]
                           (volume (Z.to_nat (x * y * z)) (Z.to_nat t) i
                              (arr_buf (dataobj img))))
                    (affine img) (header img))
             (seq 0 (Z.to_nat t)))
  | _ => inl ValueError
  end.

Definition same_shape (a b : list Z) : bool := bool_decide (a = b).

(** Volumes of one shape, stacked along a new last axis. *)
Definition stack (imgs : list (image (list Q)))
  : outcome_of (image (list Q)) :=
  match imgs with
  | [] => inl IndexError
  | img0 :: _ =>
      if forallb (fun img => same_shape (img_shape img) (img_shape img0)) imgs
      then
        let n := Z.to_nat (Arr.product (img_shape img0)) in
        inr (Image
               (Array (img_shape img0 ++ [Z.of_nat (length imgs)])
                  (concat
                     (map (fun j =>
                             omap (fun img => arr_buf (dataobj img) !! j) imgs)
                        (seq 0 n))))
               (affine img0) (header img0))
      else inl (Raised ValueError)
  end.

#[global] Instance funcs : Funcs (list Q) := {
  four_to_three := split_series;
  concat_images := stack
}.

Definition digit (d : nat) : string :=
  String (ascii_of_nat (48 + d)) EmptyString.

Fixpoint decimal (fuel n : nat) : string :=
  match fuel with
  | O => EmptyString
  | S fuel' =>
      if (n <? 10)%nat then digit n
      else (decimal fuel' (n / 10) +:+ digit (n mod 10))%string
  end.

Fixpoint zeros (n : nat) : string :=
  match n with
  | O => EmptyString
  | S n' => String "0"%char (zeros n')
  end.

(** [%04d] *)
Definition pad4 (i : nat) : string :=
  let d := decimal (S i) i in
  (zeros (4 - String.length d) +:+ d)%string.

(** The first [%04d] of a name, filled in. *)
Fixpoint fill (num : string) (s : string) : option string :=
  match s with
  | String "%" (String "0" (String "4" (String "d" rest))) =>
      Some (num +:+ rest)%string
  | String c s' => option_map (String c) (fill num s')
  | EmptyString => None
  end.

#[global] Instance paths : Paths := {
  abspath name :=
    match name with
    | String "/" _ => name
    | _ => ("/work/" +:+ name)%string
    end;
  percent name i :=
    match fill (pad4 i) name with
    | Some filled => inr filled
    | None => inl TypeError
    end
}.

(** FSL, without any motion to correct: Merge stacks the volumes of its
    input files into one series, MCFLIRT hands the series back under a new
    name, with one matrix per volume and the parameter file. *)
Definition merge_files (in_files : list string)
  : M (image (list Q)) string :=
  bind (mapM read_file in_files) (fun imgs =>
  match stack imgs, in_files with
  | inr series, first :: _ =>
      let merged := Ref.gen_name first "merged" in
      bind (write_file merged series) (fun _ => ret merged)
  | _, _ => raise RuntimeError
  end).

Definition mcflirt (in_file : string)
  : M (image (list Q)) (string * list string * string) :=
  bind (read_file in_file) (fun series =>
  let corrected := Ref.gen_name in_file "mcf" in
  let volumes := Z.to_nat (default 1 (img_shape series !! 3%nat)) in
  bind (write_file corrected series) (fun _ =>
  ret (corrected,
       map (fun i => (corrected +:+ ".mat/MAT_" +:+ pad4 i)%string)
         (seq 0 volumes),
       (corrected +:+ ".par")%string))).

#[global] Instance fsl : Fsl (image (list Q)) := {
  Merge := merge_files;
  MCFLIRT := mcflirt
}.

(** *** Images to run the functions on *)

Definition plain (shape : list Z) (unit_name : string) (buf : list Q)
  : image (list Q) :=
  Image (Array shape buf)
    (Affine ((2, 0, 0), (0, 2, 0), (0, 0, 2)) (0, 0, 0))%Q
    (Header (map (fun _ => 2%Q) shape) unit_name).

(** A masked T1w image and an EPI reference of four voxels each. *)
Definition t1w : image (list Q) := plain [2; 2; 1] "mm" [0; 10; 20; 30]%Q.

Definition epi : image (list Q) := plain [2; 2; 1] "mm" [0; 100; 300; 200]%Q.

(** A brain mask, and an image that is the same everywhere. *)
Definition brain_mask : image (list Q) := plain [2; 2; 1] "mm" [0; 1; 1; 0]%Q.

Definition flat : image (list Q) := plain [2; 2; 1] "mm" [5; 5; 5; 5]%Q.

(** A segmentation with labels 0, 2 and 3. *)
Definition segmentation : image (list Q) :=
  plain [2; 2; 1] "mm" [0; 3; 2; 3]%Q.

(** A series of three volumes of two voxels, and two single volumes. *)
Definition series : image (list Q) :=
  plain [2; 1; 1; 3] "mm" [1; 2; 3; 4; 6; 8]%Q.

Definition volume_a : image (list Q) := plain [2; 1; 1] "mm" [1; 4]%Q.

Definition volume_b : image (list Q) := plain [2; 1; 1] "mm" [2; 6]%Q.

(** Magnitude images with five axes, none of length one. *)
Definition magnitude : image (list Q) :=
  plain [2; 2; 2; 2; 2] "mm" (replicate 32 1%Q).

Definition fieldmaps : world (image (list Q)) :=
  World (<["/data/mag.nii.gz" := magnitude]> ∅) 0 [].

(** A magnitude image with five axes, some of length one. *)
Definition magnitude_thin : image (list Q) :=
  plain [2; 1; 1; 1; 3] "mm" [1; 2; 3; 4; 5; 6]%Q.

Definition thin_fieldmaps : world (image (list Q)) :=
  World (<["/data/thin.nii.gz" := magnitude_thin]> ∅) 0 [].

Definition scans : world (image (list Q)) :=
  World (<["/data/T1w.nii.gz" := t1w]>
        (<["/data/epi.nii.gz" := epi]>
        (<["/data/mask.nii.gz" := brain_mask]>
        (<["/data/flat.nii.gz" := flat]>
        (<["/data/seg.nii.gz" := segmentation]>
        (<["/data/bold.nii.gz" := series]>
        (<["/data/a.nii.gz" := volume_a]>
        (<["/data/b.nii.gz" := volume_b]> ∅)))))))) 0 [].

End RefVox.
(** * Properties *)

(** ** Fallible values *)

Lemma rbind_inr {A C} (r : result A) (k : A -> result C) (c : C) :
  rbind r k = inr c -> exists a, r = inr a /\ k a = inr c.
Proof. destruct r as [e|a]; simpl; [discriminate | eauto]. Qed.

(** ** numpy: broadcasting and reductions *)

Lemma broadcast2_same_length {A C D} (f : A -> C -> D) a b :
  length a = length b -> Np.broadcast2 f a b = inr (zip_with f a b).
Proof.
  intros Hl. unfold Np.broadcast2.
  destruct (Nat.eqb_spec (length a) (length b)); [reflexivity | contradiction].
Qed.

Section Reduce.
Context {A : Type} (op : A -> A -> A) (le : relation A) `{!PreOrder le}.
Hypothesis op_l : forall a b, le a (op a b).
Hypothesis op_r : forall a b, le b (op a b).
Hypothesis op_choice : forall a b, op a b = a \/ op a b = b.

Lemma zip_with_le_l (acc r : list A) :
  length r = length acc -> Forall2 le acc (zip_with op acc r).
Proof.
  revert r. induction acc as [|a acc IH]; intros [|x r] Hl;
    simpl in *; try discriminate; constructor; auto.
Qed.

Lemma zip_with_le_r (acc r : list A) :
  length r = length acc -> Forall2 le r (zip_with op acc r).
Proof.
  revert r. induction acc as [|a acc IH]; intros [|x r] Hl;
    simpl in *; try discriminate; constructor; auto.
Qed.

Lemma zip_with_choice (acc r : list A) k m :
  zip_with op acc r !! k = Some m ->
  acc !! k = Some m \/ r !! k = Some m.
Proof.
  revert r k. induction acc as [|a acc IH]; intros [|x r] [|k] Hk;
    simpl in *; try discriminate; auto.
  injection Hk as <-. destruct (op_choice a x) as [->| ->]; auto.
Qed.

Lemma Forall2_le_trans (x y z : list A) :
  Forall2 le x y -> Forall2 le y z -> Forall2 le x z.
Proof.
  intros Hxy. revert z. induction Hxy; intros z Hyz;
    inversion Hyz; subst; constructor; eauto.
  etransitivity; eauto.
Qed.

(** What a successful reduction returns: a bound of the start value and of
    every row, each entry of which is the entry of one of them. *)
Lemma reduce_axis0_spec (rows : list (list A)) : forall acc t,
  Np.reduce_axis0 op acc rows = inr t ->
  Forall2 le acc t /\
  Forall (fun r => Forall2 le r t) rows /\
  (forall k m, t !! k = Some m ->
     acc !! k = Some m \/ exists r, r ∈ rows /\ r !! k = Some m).
Proof.
  induction rows as [|r rows IH]; intros acc t Hred; simpl in Hred.
  - injection Hred as <-. split; [|split].
    + induction acc; constructor; auto. reflexivity.
    + constructor.
    + auto.
  - destruct (Nat.eqb_spec (length r) (length acc)) as [Hl|]; [|discriminate].
    destruct (IH _ _ Hred) as (Hacc & Hrows & Hatt).
    split; [|split].
    + eapply Forall2_le_trans; [apply zip_with_le_l|]; eauto.
    + constructor; [|assumption].
      eapply Forall2_le_trans; [apply zip_with_le_r|]; eauto.
    + intros k m Hk. destruct (Hatt k m Hk) as [Hz|(r' & Hin & Hr')].
      * destruct (zip_with_choice _ _ _ _ Hz) as [?|?]; auto.
        right. exists r. split; [left|]; auto.
      * right. exists r'. split; [right|]; auto.
Qed.

(** Rows of one length always reduce. *)
Lemma reduce_axis0_total (rows : list (list A)) : forall acc,
  Forall (fun r => length r = length acc) rows ->
  exists t, Np.reduce_axis0 op acc rows = inr t.
Proof.
  induction rows as [|r rows IH]; intros acc Hl; simpl; eauto.
  inversion Hl as [|? ? Hr Hrows]; subst.
  rewrite Hr, Nat.eqb_refl. apply IH.
  eapply Forall_impl; [exact Hrows|]. simpl. intros r' ->.
  rewrite length_zip_with. lia.
Qed.
End Reduce.

#[local] Instance flip_Qle_preorder : PreOrder (flip Qle).
Proof.
  split.
  - intros x. apply Qle_refl.
  - intros x y z Hxy Hyz. unfold flip in *. eapply Qle_trans; eauto.
Qed.

Lemma Qmin_choice (a b : Q) : Qmin a b = a \/ Qmin a b = b.
Proof.
  unfold Qmin, GenericMinMax.gmin. destruct (a ?= b)%Q; auto.
Qed.

Lemma Zmax_choice (a b : Z) : Z.max a b = a \/ Z.max a b = b.
Proof. lia. Qed.

Lemma max_axis0_spec rows t :
  Np.max_axis0 rows = inr t -> rows <> [] /\ axiswise_max rows t.
Proof.
  destruct rows as [|r rows]; simpl; [discriminate|]. intros Hred.
  split; [discriminate|].
  destruct (reduce_axis0_spec Z.max Z.le Z.le_max_l Z.le_max_r Zmax_choice
              rows r t Hred) as (Hr & Hrows & Hatt).
  split.
  - constructor; assumption.
  - intros k m Hk. destruct (Hatt k m Hk) as [?|(r' & Hin & ?)].
    + exists r. split; [left|]; auto.
    + exists r'. split; [right|]; auto.
Qed.

Lemma min_axis0_spec rows t :
  Np.min_axis0 rows = inr t -> rows <> [] /\ axiswise_min rows t.
Proof.
  destruct rows as [|r rows]; simpl; [discriminate|]. intros Hred.
  split; [discriminate|].
  destruct (reduce_axis0_spec Qmin (flip Qle)
              (fun a b => Q.le_min_l a b) (fun a b => Q.le_min_r a b)
              Qmin_choice rows r t Hred) as (Hr & Hrows & Hatt).
  split.
  - constructor; assumption.
  - intros k m Hk. destruct (Hatt k m Hk) as [?|(r' & Hin & ?)].
    + exists r. split; [left|]; auto.
    + exists r'. split; [right|]; auto.
Qed.

Lemma max_axis0_total r rows :
  Forall (fun r' => length r' = length r) rows ->
  exists t, Np.max_axis0 (r :: rows) = inr t.
Proof. apply reduce_axis0_total. Qed.

Lemma min_axis0_total r rows :
  Forall (fun r' => length r' = length r) rows ->
  exists t, Np.min_axis0 (r :: rows) = inr t.
Proof. apply reduce_axis0_total. Qed.

(** ** numpy: closeness *)

Lemma isclose_true atol a b :
  Np.isclose atol a b = true <->
  (Qabs (a - b) <= atol + Np.rtol * Qabs b)%Q.
Proof. unfold Np.isclose. apply Qle_bool_iff. Qed.

Lemma forallb_zip_with {A C} (f : A -> C -> bool) a b :
  length a = length b ->
  forallb id (zip_with f a b) = true <->
  Forall2 (fun x y => f x y = true) a b.
Proof.
  revert b. induction a as [|x a IH]; intros [|y b] Hl;
    simpl in *; try discriminate.
  - split; [constructor | reflexivity].
  - injection Hl as Hl. unfold id at 1. rewrite andb_true_iff, (IH b Hl).
    split.
    + intros [? ?]. constructor; auto.
    + intros H. inversion H; subst. auto.
Qed.

Lemma allclose_true a b atol :
  length a = length b ->
  Np.allclose a b atol = inr true <->
  Forall2 (fun x y => (Qabs (x - y) <= atol + Np.rtol * Qabs y)%Q) a b.
Proof.
  intros Hl. unfold Np.allclose. rewrite (broadcast2_same_length _ _ _ Hl).
  simpl. split.
  - intros H. injection H as H. apply forallb_zip_with in H; [|assumption].
    eapply Forall2_impl; [exact H|]. intros x y. apply isclose_true.
  - intros H. f_equal. apply forallb_zip_with; [assumption|].
    eapply Forall2_impl; [exact H|]. intros x y. apply isclose_true.
Qed.

Lemma all_eq_true a b :
  length a = length b -> Np.all_eq a b = inr true <-> a = b.
Proof.
  intros Hl. unfold Np.all_eq. rewrite (broadcast2_same_length _ _ _ Hl).
  simpl. split.
  - intros H. injection H as H. apply forallb_zip_with in H; [|assumption].
    clear Hl. induction H as [|x y a b Hxy _ IH]; [reflexivity|].
    apply Z.eqb_eq in Hxy. congruence.
  - intros ->. f_equal. apply forallb_zip_with; [reflexivity|].
    clear Hl. induction b; constructor; auto. apply Z.eqb_refl.
Qed.

Lemma all_eq_refl a : Np.all_eq a a = inr true.
Proof. apply all_eq_true; reflexivity. Qed.

(** ** The monad *)

Section Runs.
Context {V B : Type} `{!Collaborators V B}.
Local Open Scope nat_scope.

Lemma bind_inr {A C} (m : M B A) (k : A -> M B C) w c w' :
  bind m k w = (inr c, w') ->
  exists a w1, m w = (inr a, w1) /\ k a w1 = (inr c, w').
Proof.
  unfold bind. destruct (m w) as [[e|a] w1]; [discriminate | eauto].
Qed.

Lemma lift_inr {A} (r : result A) (w : world B) a w' :
  lift r w = (inr a, w') -> r = inr a /\ w' = w.
Proof. unfold lift. intros H. injection H as -> ->. auto. Qed.

Lemma ret_inr {A} (a : A) (w : world B) a' w' :
  ret a w = (inr a', w') -> a' = a /\ w' = w.
Proof. unfold ret. intros H. injection H as -> ->. auto. Qed.

Ltac inv_run :=
  repeat match goal with
    | H : bind _ _ _ = (inr _, _) |- _ =>
        let a := fresh "a" in
        let w := fresh "w" in
        let Ha := fresh "Hrun" in
        apply bind_inr in H; destruct H as (a & w & Ha & H)
    | H : lift _ _ = (inr _, _) |- _ =>
        apply lift_inr in H; destruct H as [H ->]
    | H : ret _ _ = (inr _, _) |- _ =>
        apply ret_inr in H; destruct H as [-> ->]
    end.

(** ** Loading *)

Lemma nb_load_file_inv fname (w : world B) (o : obj V) w' :
  nb_load_file fname w = (inr o, w') ->
  loaded w fname o /\ oid o = next_id w /\
  w' = World (fs w) (S (next_id w)) (calls w).
Proof.
  unfold nb_load_file. intros H. inv_run.
  unfold read_file in Hrun. destruct (fs w !! fname) as [b|] eqn:Hb;
    [|discriminate].
  injection Hrun as <- <-. unfold new_object in H. injection H as <- <-.
  simpl. split; [|auto]. exists b. auto.
Qed.

Lemma load_all_inv in_names : forall (w : world B) (os : list (obj V)) w',
  mapM nb_load_file in_names w = (inr os, w') ->
  Forall2 (loaded w) in_names os /\
  map oid os = seq (next_id w) (length in_names) /\
  w' = World (fs w) (next_id w + length in_names) (calls w).
Proof.
  induction in_names as [|f names IH]; intros w os w' H; simpl in H.
  - apply ret_inr in H as [-> ->]. simpl. rewrite Nat.add_0_r.
    destruct w; auto.
  - inv_run. apply nb_load_file_inv in Hrun as (Hl & Hid & ->).
    apply IH in Hrun0 as (Hls & Hids & ->). simpl in *.
    split; [|split].
    + constructor; assumption.
    + rewrite Hid, Hids. reflexivity.
    + f_equal. lia.
Qed.

(** ** Reorienting *)

Lemma closest_canonical_inv (o r : obj V) (w w' : world B) :
  closest_canonical o w = (inr r, w') ->
  reoriented (next_id w) o r /\ (oid r < next_id w' \/ r = o) /\
  (next_id w <= next_id w')%nat /\ fs w' = fs w /\ calls w' = calls w.
Proof.
  unfold closest_canonical, reoriented.
  destruct (as_closest_canonical (oval o)) as [v|]; intros H.
  - unfold new_object in H. injection H as <- <-. simpl.
    repeat split; auto; lia.
  - apply ret_inr in H as [-> ->]. repeat split; auto.
Qed.

Lemma reoriented_mono n n' (o r : obj V) :
  (n <= n')%nat -> reoriented n' o r -> reoriented n o r.
Proof.
  unfold reoriented. destruct (as_closest_canonical (oval o)); [|auto].
  intros ? [? ?]. split; [assumption | lia].
Qed.

Lemma reoriented_id n (o r : obj V) :
  reoriented n o r -> r = o \/ (n <= oid r)%nat.
Proof.
  unfold reoriented. destruct (as_closest_canonical (oval o)); [|auto].
  intros [? ?]. auto.
Qed.

Lemma reorient_all_inv os : forall (w : world B) (rs : list (obj V)) w',
  mapM closest_canonical os w = (inr rs, w') ->
  Forall (fun o => oid o < next_id w)%nat os ->
  NoDup (map oid os) ->
  Forall2 (reoriented (next_id w)) os rs /\
  NoDup (map oid rs) /\
  Forall (fun r => oid r < next_id w')%nat rs /\
  (next_id w <= next_id w')%nat /\ fs w' = fs w /\ calls w' = calls w.
Proof.
  induction os as [|o os IH]; intros w rs w' H Hold Hnd; simpl in H.
  - apply ret_inr in H as [-> ->]. repeat split; auto; constructor.
  - inv_run.
    apply closest_canonical_inv in Hrun as (Hr & Hlt & Hle & Hfs & Hcalls).
    apply Forall_cons in Hold as [Ho Hold].
    apply NoDup_cons in Hnd as [Hnin Hnd].
    apply IH in Hrun0 as (Hrs & Hnd' & Hlts & Hle' & Hfs' & Hcalls');
      [| eapply Forall_impl; [exact Hold|]; simpl; intros; lia | assumption].
    assert (Ha : (oid a < next_id w0)%nat) by (destruct Hlt as [?| ->]; lia).
    split; [|split; [|split; [|split; [|split]]]].
    + constructor; [assumption|].
      eapply Forall2_impl; [exact Hrs|]. intros ? ?.
      apply reoriented_mono; assumption.
    + simpl. apply NoDup_cons. split; [|assumption].
      intros Hin. apply list_elem_of_fmap in Hin as (r & Heq & Hin).
      apply list_elem_of_lookup in Hin as (i & Hi).
      destruct (Forall2_lookup_r _ _ _ _ _ Hrs Hi) as (o' & Ho' & Hrel).
      apply reoriented_id in Hrel as [-> | Hfresh]; [|lia].
      destruct (reoriented_id _ _ _ Hr) as [-> | Hnew].
      * apply Hnin. apply list_elem_of_fmap. exists o'. split; [assumption|].
        eapply list_elem_of_lookup_2; eauto.
      * assert (oid o' < next_id w)%nat; [|lia].
        eapply (proj1 (Forall_lookup _ _) Hold); eauto.
    + constructor; [lia | assumption].
    + lia.
    + congruence.
    + congruence.
Qed.

(** ** The loop body *)

Lemma conform_one_inv ts tz (r x : obj V) (w w' : world B) :
  conform_one ts tz r w = (inr x, w') ->
  conformed (next_id w) ts tz r x /\
  calls w' = calls w ++ resample_call ts tz r /\
  fs w' = fs w /\ next_id w <= next_id w'.
Proof.
  unfold conform_one, conformed, resample_call. intros H.
  apply bind_inr in H as (rescale & w1 & Hrescale & H).
  apply lift_inr in Hrescale as [Hrescale ->].
  apply bind_inr in H as (resize & w1 & Hresize & H).
  apply lift_inr in Hresize as [Hresize ->].
  rewrite Hrescale, Hresize.
  destruct (rescale || resize) eqn:Hneed.
  - apply bind_inr in H as (A & w1 & HA & H).
    apply lift_inr in HA as [HA ->].
    apply bind_inr in H as ([] & w1 & Hrec & H).
    unfold record in Hrec. injection Hrec as <-.
    apply bind_inr in H as (res & w2 & Hres & H).
    apply lift_inr in Hres as [Hres ->].
    unfold new_object in H. injection H as <- <-. simpl.
    rewrite HA. split; [|auto].
    exists rescale, resize. rewrite Hneed. split; [auto|]. split; [auto|].
    exists A, res. auto.
  - apply ret_inr in H as [-> ->]. rewrite app_nil_r.
    split; [|auto]. exists rescale, resize. rewrite Hneed. auto.
Qed.

Lemma conformed_mono n n' ts tz (r x : obj V) :
  n <= n' -> conformed n' ts tz r x -> conformed n ts tz r x.
Proof.
  intros Hle (rescale & resize & Hr & Hs & H).
  exists rescale, resize. split; [auto|]. split; [auto|].
  destruct (rescale || resize); [|assumption].
  destruct H as (A & res & ? & ? & ? & ?). exists A, res.
  repeat split; auto. lia.
Qed.

Lemma conform_all_inv ts tz rs : forall (w : world B) (xs : list (obj V)) w',
  mapM (conform_one ts tz) rs w = (inr xs, w') ->
  Forall2 (conformed (next_id w) ts tz) rs xs /\
  calls w' = calls w ++ flat_map (resample_call ts tz) rs /\
  fs w' = fs w /\ next_id w <= next_id w'.
Proof.
  induction rs as [|r rs IH]; intros w xs w' H; simpl in H.
  - apply ret_inr in H as [-> ->]. simpl. rewrite app_nil_r.
    repeat split; auto; constructor.
  - apply bind_inr in H as (x & w1 & Hx & H).
    apply bind_inr in H as (xs' & w2 & Hxs & H).
    apply ret_inr in H as [-> ->].
    apply conform_one_inv in Hx as (Hc & Hcalls & Hfs & Hle).
    apply IH in Hxs as (Hcs & Hcalls' & Hfs' & Hle').
    split; [|split; [|split]].
    + constructor; [assumption|].
      eapply Forall2_impl; [exact Hcs|]. intros ? ?.
      apply conformed_mono; assumption.
    + simpl. rewrite Hcalls', Hcalls, app_assoc. reflexivity.
    + congruence.
    + lia.
Qed.

(** ** Writing the outputs *)

Lemma persist_inv (orig final : obj V) in_name out_name (w w' : world B) :
  persist orig final in_name out_name w = (inr tt, w') ->
  exists b,
    (if oid final =? oid orig then fs w !! in_name else Some (nb_save (oval final)))
      = Some b /\
    w' = World (<[out_name := b]> (fs w)) (next_id w) (calls w).
Proof.
  unfold persist. destruct (oid final =? oid orig).
  - intros H. apply bind_inr in H as (b & w1 & Hb & H).
    unfold read_file in Hb. destruct (fs w !! in_name) as [b'|]; [|discriminate].
    injection Hb as -> <-. unfold write_file in H. injection H as <-.
    eauto.
  - unfold write_file. intros H. injection H as <-. eauto.
Qed.

Lemma persist_all_inv origs : forall finals in_names out_names (w w' : world B),
  persist_all origs finals in_names out_names w = (inr tt, w') ->
  length finals = length origs -> length in_names = length origs ->
  length out_names = length origs ->
  calls w' = calls w /\ next_id w' = next_id w /\
  (forall g, g ∉ out_names -> fs w' !! g = fs w !! g) /\
  (hygienic in_names out_names ->
   forall i (o x : obj V) f out,
     origs !! i = Some o -> finals !! i = Some x ->
     in_names !! i = Some f -> out_names !! i = Some out ->
     fs w' !! out = if oid x =? oid o then fs w !! f
                    else Some (nb_save (oval x))).
Proof.
  induction origs as [|o origs IH];
    intros [|x finals] [|f ins] [|out outs] w w' H Hl1 Hl2 Hl3;
    simpl in *; try discriminate.
  - apply ret_inr in H as [_ ->]. repeat split; auto.
    intros _ i ? ? ? ? Hi. rewrite lookup_nil in Hi. discriminate.
  - apply bind_inr in H as ([] & w1 & Hp & H).
    apply persist_inv in Hp as (b & Hb & ->).
    apply IH in H as (Hcalls & Hid & Hrest & Hfiles); try lia. simpl in *.
    split; [assumption|]. split; [assumption|]. split.
    + intros g Hg. apply not_elem_of_cons in Hg as [Hne Hg].
      rewrite (Hrest g Hg). apply lookup_insert_ne. congruence.
    + intros [Hnd Hdisj] [|i] o' x' f' out' Ho Hx Hf Hout; simpl in *.
      * injection Ho as <-. injection Hx as <-. injection Hf as <-.
        injection Hout as <-. apply NoDup_cons in Hnd as [Hnin _].
        rewrite (Hrest out Hnin), lookup_insert_eq. symmetry. exact Hb.
      * apply NoDup_cons in Hnd as [Hnin Hnd].
        rewrite (Hfiles (conj Hnd (fun g Hg Hg' =>
                   Hdisj g (list_elem_of_further _ _ _ Hg)
                     (list_elem_of_further _ _ _ Hg')))
                   i o' x' f' out' Ho Hx Hf Hout).
        destruct (oid x' =? oid o'); [|reflexivity].
        apply lookup_insert_ne. intros ->.
        apply (Hdisj f'); [right; eapply list_elem_of_lookup_2; eauto | left].
Qed.

(** ** A successful run, stage by stage *)

Lemma seq_ids_below (os : list (obj V)) n len :
  map oid os = seq n len -> Forall (fun o => oid o < n + len) os.
Proof.
  intros Hids. apply Forall_forall. intros o Ho.
  assert (Hin : oid o ∈ seq n len).
  { rewrite <- Hids. apply list_elem_of_fmap. eauto. }
  apply elem_of_seq in Hin. lia.
Qed.

Lemma ConformSeries_run_trace in_names cwd (w0 : world B) out_names w1 :
  ConformSeries_run in_names cwd w0 = (inr out_names, w1) ->
  exists (origs reos finals : list (obj V)) ts tz,
    conform_trace in_names cwd w0 out_names w1 origs reos finals ts tz.
Proof.
  unfold ConformSeries_run. intros H.
  apply bind_inr in H as (origs & wa & Hload & H).
  apply bind_inr in H as (reos & wb & Hreo & H).
  apply bind_inr in H as ([ts tz] & wc & Hgrid & H).
  apply lift_inr in Hgrid as [Hgrid ->].
  apply bind_inr in H as (finals & wc & Hconf & H).
  apply bind_inr in H as ([] & wd & Hpers & H).
  apply ret_inr in H as [-> ->]. simpl in Hconf.
  apply load_all_inv in Hload as (Hl & Hids & ->).
  apply reorient_all_inv in Hreo as (Hr & Hnd & _ & Hle & Hfs & Hcalls);
    [| apply seq_ids_below; assumption
     | rewrite Hids; apply NoDup_seq ].
  simpl in *.
  apply conform_all_inv in Hconf as (Hc & Hcalls' & Hfs' & Hle').
  pose proof (Forall2_length _ _ _ Hl) as Hlen1.
  pose proof (Forall2_length _ _ _ Hr) as Hlen2.
  pose proof (Forall2_length _ _ _ Hc) as Hlen3.
  apply persist_all_inv in Hpers as (Hcalls'' & _ & Hrest & Hfiles);
    [| lia | lia | rewrite length_map; lia ].
  exists origs, reos, finals, ts, tz. split; try assumption.
  - eapply Forall2_impl; [exact Hc|]. intros ? ?.
    apply conformed_mono. assumption.
  - congruence.
  - reflexivity.
  - intros Hhyg i o x f out Ho Hx Hf Hout.
    rewrite (Hfiles Hhyg i o x f out Ho Hx Hf Hout). rewrite Hfs', Hfs.
    reflexivity.
  - intros g Hg. rewrite (Hrest g Hg), Hfs', Hfs. reflexivity.
Qed.

End Runs.

(** ** The target affine *)

Local Open Scope Q_scope.

Lemma scaled_linear_3 t0 t1 t2 z0 z1 z2 m :
  exists m', scaled_linear [t0; t1; t2] [z0; z1; z2] m = inr m' /\
             mat3_equiv m' (scale_rows (t0 / z0, t1 / z1, t2 / z2) m).
Proof.
  destruct m as [[[[a b] c] [[d e] f]] [[g h] i]].
  eexists. split; [cbn; reflexivity|].
  intros [|[|[|n]]] [|[|[|k]]]; cbn; ring.
Qed.

Lemma scaled_linear_inv tz zooms m m' :
  length tz = length zooms ->
  scaled_linear tz zooms m = inr m' ->
  exists t0 t1 t2 z0 z1 z2,
    tz = [t0; t1; t2] /\ zooms = [z0; z1; z2] /\
    mat3_equiv m' (scale_rows (t0 / z0, t1 / z1, t2 / z2) m).
Proof.
  intros Hl H. unfold scaled_linear in H.
  rewrite (broadcast2_same_length _ _ _ Hl) in H.
  destruct m as [[[[a b] c] [[d e] f]] [[g h] i]].
  destruct tz as [|t0 [|t1 [|t2 [|t3 tz]]]];
    destruct zooms as [|z0 [|z1 [|z2 [|z3 zooms]]]];
    try discriminate Hl; cbn in H; try discriminate H.
  destruct (scaled_linear_3 t0 t1 t2 z0 z1 z2 ((a, b, c), (d, e, f), (g, h, i)))
    as (m'' & Hm'' & Heq).
  cbn in Hm''. rewrite H in Hm''. injection Hm'' as <-.
  exists t0, t1, t2, z0, z1, z2. auto.
Qed.

Lemma sq_scale_le (s a : Q) : 0 <= s -> s <= 1 -> (s * a) * (s * a) <= a * a.
Proof.
  intros H0 H1.
  assert (Ha : 0 <= a * a) by nra.
  assert (Hs : 0 <= 1 - s * s) by nra.
  pose proof (Qmult_le_0_compat _ _ Hs Ha) as Hp.
  nra.
Qed.

Lemma ratio_in_unit (t z : Q) : 0 < t -> t <= z -> 0 <= t / z /\ t / z <= 1.
Proof.
  intros Ht Htz. assert (0 < z) by lra. split.
  - apply Qle_shift_div_l; lra.
  - apply Qle_shift_div_r; lra.
Qed.

Lemma scale_rows_shrinks s0 s1 s2 m j :
  0 <= s0 <= 1 -> 0 <= s1 <= 1 -> 0 <= s2 <= 1 ->
  voxel_size_sq (Affine (scale_rows (s0, s1, s2) m) (0, 0, 0)) j
  <= voxel_size_sq (Affine m (0, 0, 0)) j.
Proof.
  intros [? ?] [? ?] [? ?].
  destruct m as [[[[a b] c] [[d e] f]] [[g h] i]].
  unfold voxel_size_sq.
  destruct j as [|[|j]]; cbn;
    repeat apply Qplus_le_compat; apply sq_scale_le; assumption.
Qed.

Lemma voxel_size_sq_equiv A A' j :
  mat3_equiv (lin A) (lin A') -> voxel_size_sq A j == voxel_size_sq A' j.
Proof.
  intros Heq. unfold voxel_size_sq.
  rewrite (Heq 0%nat j), (Heq 1%nat j), (Heq 2%nat j). reflexivity.
Qed.

Local Close Scope Q_scope.

(** * The claims *)

Section Claims.
Context {V B : Type} `{!Collaborators V B}.

Lemma target_grid_inv (imgs : list (image V)) ts tz :
  target_grid imgs = inr (ts, tz) ->
  imgs <> [] /\
  axiswise_max (map img_shape imgs) ts /\
  axiswise_min (map zooms3 imgs) tz.
Proof.
  unfold target_grid. intros H.
  apply rbind_inr in H as (ts' & Hmax & H).
  apply rbind_inr in H as (tz' & Hmin & H).
  injection H as -> ->.
  apply max_axis0_spec in Hmax as [Hne Hmax].
  apply min_axis0_spec in Hmin as [_ Hmin].
  split; [|auto]. intros ->. apply Hne. reflexivity.
Qed.

(** A series of images with one number of axes has a target grid. *)
Lemma target_grid_total (img : image V) (imgs : list (image V)) :
  Forall (fun i => length (img_shape i) = length (img_shape img) /\
                   length (zooms3 i) = length (zooms3 img)) imgs ->
  exists ts tz, target_grid (img :: imgs) = inr (ts, tz).
Proof.
  intros Hlen. unfold target_grid.
  destruct (max_axis0_total (img_shape img) (map img_shape imgs))
    as (ts & Hts).
  { apply Forall_fmap. eapply Forall_impl; [exact Hlen|]. simpl. tauto. }
  destruct (min_axis0_total (zooms3 img) (map zooms3 imgs)) as (tz & Htz).
  { apply Forall_fmap. eapply Forall_impl; [exact Hlen|]. simpl. tauto. }
  exists ts, tz. cbn [map]. rewrite Hts. cbn [rbind].
  change (fun i : image V => take 3 (get_zooms i)) with (@zooms3 V).
  change (take 3 (get_zooms img)) with (zooms3 img).
  rewrite Htz. reflexivity.
Qed.

Lemma axiswise_min_positive (imgs : list (image V)) tz :
  axiswise_min (map zooms3 imgs) tz ->
  Forall positive_zooms imgs ->
  Forall (fun t => (0 < t)%Q) tz.
Proof.
  intros [_ Hatt] Hpos. apply Forall_lookup. intros k t Hk.
  destruct (Hatt k t Hk) as (r & Hin & Hr).
  apply list_elem_of_fmap in Hin as (img & -> & Hin).
  eapply (proj1 (Forall_lookup _ _)); [|exact Hr].
  eapply (proj1 (Forall_forall _ _) Hpos). exact Hin.
Qed.

(** Rescaling never makes a voxel larger. *)
Lemma synth_target_affine_shrinks rescale resize ts tz (img : image V) A j :
  synth_target_affine rescale resize ts tz img = inr A ->
  Forall2 (flip Qle) (zooms3 img) tz ->
  Forall (fun t => (0 < t)%Q) tz ->
  (voxel_size_sq A j <= voxel_size_sq (affine img) j)%Q.
Proof.
  unfold synth_target_affine. intros H Hle Hpos.
  apply rbind_inr in H as (l & Hl & H).
  apply rbind_inr in H as (t & _ & H). injection H as <-.
  destruct rescale.
  - apply scaled_linear_inv in Hl
      as (t0 & t1 & t2 & z0 & z1 & z2 & -> & Hz & Heq);
      [| symmetry; exact (Forall2_length _ _ _ Hle) ].
    fold (zooms3 img) in Hz. rewrite Hz in Hle.
    apply Forall2_cons in Hle as [H0 Hle].
    apply Forall2_cons in Hle as [H1 Hle].
    apply Forall2_cons in Hle as [H2 _].
    apply Forall_cons in Hpos as [P0 Hpos].
    apply Forall_cons in Hpos as [P1 Hpos].
    apply Forall_cons in Hpos as [P2 _].
    unfold flip in *.
    rewrite (voxel_size_sq_equiv (Affine l t)
               (Affine (scale_rows (t0 / z0, t1 / z1, t2 / z2)%Q
                          (lin (affine img))) (0, 0, 0)%Q) j Heq).
    eapply Qle_trans;
      [apply scale_rows_shrinks; apply ratio_in_unit; assumption|].
    apply Qle_lteq. right. apply voxel_size_sq_equiv. intros ? ?. reflexivity.
  - injection Hl as <-. apply Qle_lteq. right.
    apply voxel_size_sq_equiv. intros ? ?. reflexivity.
Qed.

(** ** The two decisions *)

Lemma rtol_term_nonneg (t : Q) : (0 <= Np.rtol * Qabs t)%Q.
Proof.
  apply Qmult_le_0_compat; [unfold Np.rtol; discriminate | apply Qabs_nonneg].
Qed.

Lemma decide_rescale_within (img : image V) tz atol :
  xyz_atol (hdr_xyz_units (header img)) = inr atol ->
  Forall2 (fun z t => (Qabs (z - t) <= atol)%Q) (zooms3 img) tz ->
  decide_rescale tz img = inr false.
Proof.
  intros Hatol Hclose. unfold decide_rescale. rewrite Hatol. simpl.
  fold (zooms3 img).
  rewrite (proj2 (allclose_true _ _ atol (Forall2_length _ _ _ Hclose)));
    [reflexivity|].
  eapply Forall2_impl; [exact Hclose|]. simpl. intros z t Hzt.
  pose proof (rtol_term_nonneg t). lra.
Qed.

Lemma decide_resize_same (img : image V) :
  decide_resize (img_shape img) img = inr false.
Proof. unfold decide_resize. rewrite all_eq_refl. reflexivity. Qed.

Lemma resample_call_source ts tz (r : obj V) c :
  c ∈ resample_call ts tz r ->
  exists A, c = Resample (SrcObject (oid r)) A (Some ts) Continuous.
Proof.
  unfold resample_call.
  destruct (decide_rescale tz (oval r)) as [|rescale];
    [intros Hc; inversion Hc|].
  destruct (decide_resize ts (oval r)) as [|resize];
    [intros Hc; inversion Hc|].
  destruct (rescale || resize); [|intros Hc; inversion Hc].
  destruct (synth_target_affine _ _ _ _ _) as [|A]; [intros Hc; inversion Hc|].
  intros Hc. apply list_elem_of_singleton in Hc. eauto.
Qed.

(** In a trace, the object an image is loaded into is the final object
    exactly when the image was canonical and needed nothing. *)
Lemma trace_untouched in_names cwd (w0 : world B) outs w1
  (origs reos finals : list (obj V)) ts tz i o :
  conform_trace in_names cwd w0 outs w1 origs reos finals ts tz ->
  origs !! i = Some o ->
  as_closest_canonical (oval o) = None ->
  decide_rescale tz (oval o) = inr false ->
  decide_resize ts (oval o) = inr false ->
  reos !! i = Some o /\ finals !! i = Some o.
Proof.
  intros T Ho Hcanon Hrs Hrz.
  destruct (Forall2_lookup_l _ _ _ _ _ (tr_reoriented _ _ _ _ _ _ _ _ _ _ T) Ho)
    as (r & Hr & Hrel).
  unfold reoriented in Hrel. rewrite Hcanon in Hrel. subst r.
  split; [assumption|].
  destruct (Forall2_lookup_l _ _ _ _ _ (tr_conformed _ _ _ _ _ _ _ _ _ _ T) Hr)
    as (x & Hx & rescale & resize & Hrs' & Hrz' & Hcase).
  rewrite Hrs in Hrs'. rewrite Hrz in Hrz'.
  injection Hrs' as <-. injection Hrz' as <-. simpl in Hcase. subst x.
  assumption.
Qed.

(** ** From the stages to the files *)

Lemma stored_loaded (w : world B) fname (img : image V) (o : obj V) :
  stored w fname img -> loaded w fname o -> oval o = img.
Proof.
  intros (b & Hb & Himg) (b' & Hb' & Ho). rewrite Hb in Hb'.
  injection Hb' as <-. rewrite Himg in Ho. injection Ho as <-. reflexivity.
Qed.

Lemma trace_values in_names cwd (w0 : world B) outs w1
  (origs reos finals : list (obj V)) ts tz (imgs : list (image V)) :
  conform_trace in_names cwd w0 outs w1 origs reos finals ts tz ->
  Forall2 (stored w0) in_names imgs ->
  map oval origs = imgs /\ map oval reos = map canonical_form imgs.
Proof.
  intros T Hs.
  pose proof (tr_loaded _ _ _ _ _ _ _ _ _ _ T) as Hl.
  pose proof (tr_reoriented _ _ _ _ _ _ _ _ _ _ T) as Hr.
  assert (Hvals : map oval origs = imgs).
  { clear T Hr. revert imgs Hs.
    induction Hl as [|f o names origs Ho _ IH]; intros imgs Hs;
      inversion Hs; subst; [reflexivity|].
    simpl. f_equal; [eapply stored_loaded; eauto | apply IH; assumption]. }
  split; [exact Hvals|]. rewrite <- Hvals. clear T Hl Hs Hvals.
  induction Hr as [|o r origs reos Hor _ IH]; [reflexivity|].
  simpl. f_equal; [|exact IH].
  unfold reoriented in Hor. unfold canonical_form.
  destruct (as_closest_canonical (oval o)); simpl.
  - destruct Hor as [-> _]. reflexivity.
  - subst r. reflexivity.
Qed.

Lemma conformed_id n ts tz (r x : obj V) :
  conformed n ts tz r x -> x = r \/ (n <= oid x)%nat.
Proof.
  intros (rescale & resize & _ & _ & H).
  destruct (rescale || resize); [|auto].
  destruct H as (A & res & _ & _ & _ & ?). auto.
Qed.

Lemma trace_object_id in_names cwd (w0 : world B) outs w1
  (origs reos finals : list (obj V)) ts tz i o :
  conform_trace in_names cwd w0 outs w1 origs reos finals ts tz ->
  origs !! i = Some o -> oid o = (next_id w0 + i)%nat.
Proof.
  intros T Ho.
  assert (Hi : map oid origs !! i = Some (oid o))
    by (rewrite list_lookup_fmap, Ho; reflexivity).
  rewrite (tr_ids _ _ _ _ _ _ _ _ _ _ T) in Hi.
  apply lookup_seq in Hi as [-> _]. reflexivity.
Qed.

(** In a trace, a final object with the identity of the loaded object is
    the loaded object. *)
Lemma trace_same_object in_names cwd (w0 : world B) outs w1
  (origs reos finals : list (obj V)) ts tz i o x :
  conform_trace in_names cwd w0 outs w1 origs reos finals ts tz ->
  origs !! i = Some o -> finals !! i = Some x ->
  oid x = oid o -> x = o.
Proof.
  intros T Ho Hx Hid.
  assert (Hlt : (oid o < next_id w0 + length in_names)%nat).
  { rewrite (trace_object_id _ _ _ _ _ _ _ _ _ _ _ _ T Ho).
    apply lookup_lt_Some in Ho.
    pose proof (Forall2_length _ _ _ (tr_loaded _ _ _ _ _ _ _ _ _ _ T)).
    lia. }
  destruct (Forall2_lookup_l _ _ _ _ _ (tr_reoriented _ _ _ _ _ _ _ _ _ _ T) Ho)
    as (r & Hr & Hor).
  pose proof (Forall2_lookup_lr _ _ _ _ _ _
                (tr_conformed _ _ _ _ _ _ _ _ _ _ T) Hr Hx) as Hrx.
  apply conformed_id in Hrx as [-> | Hnew]; [|lia].
  apply reoriented_id in Hor as [-> | Hnew]; [reflexivity | lia].
Qed.

(** What a successful run leaves, told without objects: the grid of the
    images entering the loop, the image the loop ends with for every input,
    and the file that holds it. *)
Lemma run_outputs in_names cwd (w0 : world B) out_names w1
  (imgs : list (image V)) :
  ConformSeries_run in_names cwd w0 = (inr out_names, w1) ->
  Forall2 (stored w0) in_names imgs ->
  exists ts tz (finals : list (image V)),
    target_grid (map canonical_form imgs) = inr (ts, tz) /\
    Forall2 (outcome ts tz) imgs finals /\
    out_names = map (ras_name cwd) in_names /\
    (hygienic in_names out_names ->
     forall i out x,
       out_names !! i = Some out -> finals !! i = Some x ->
       output_holds w1 out x).
Proof.
  intros Hrun Hs.
  destruct (ConformSeries_run_trace _ _ _ _ _ Hrun)
    as (origs & reos & finals & ts & tz & T).
  destruct (trace_values _ _ _ _ _ _ _ _ _ _ _ T Hs) as [Hvo Hvr].
  pose proof (tr_conformed _ _ _ _ _ _ _ _ _ _ T) as Hc.
  pose proof (tr_reoriented _ _ _ _ _ _ _ _ _ _ T) as Hr.
  exists ts, tz, (map oval finals).
  split; [rewrite <- Hvr; exact (tr_grid _ _ _ _ _ _ _ _ _ _ T)|].
  split; [|split; [exact (tr_names _ _ _ _ _ _ _ _ _ _ T)|]].
  - apply Forall2_same_length_lookup. split.
    + rewrite length_map, <- (Forall2_length _ _ _ Hc),
        <- (Forall2_length _ _ _ Hr), <- Hvo, length_map. reflexivity.
    + intros i img x Himg Hx.
      apply list_lookup_fmap_Some in Hx as (xo & -> & Hxo).
      destruct (Forall2_lookup_r _ _ _ _ _ Hc Hxo) as (r & Hro & Hrx).
      assert (Hcf : oval r = canonical_form img).
      { assert (H1 : map oval reos !! i = Some (oval r))
          by (rewrite list_lookup_fmap, Hro; reflexivity).
        rewrite Hvr, list_lookup_fmap, Himg in H1. simpl in H1. congruence. }
      destruct Hrx as (rescale & resize & Hrs & Hrz & Hcase).
      rewrite Hcf in *. exists rescale, resize.
      split; [exact Hrs|]. split; [exact Hrz|].
      destruct (rescale || resize).
      * destruct Hcase as (A & res & HA & Hres & Hval & _).
        exists A, res. auto.
      * subst xo. exact Hcf.
  - intros Hhyg i out x Hout Hx.
    apply list_lookup_fmap_Some in Hx as (xo & -> & Hxo).
    destruct (Forall2_lookup_r _ _ _ _ _ Hc Hxo) as (r & Hro & _).
    destruct (Forall2_lookup_r _ _ _ _ _ Hr Hro) as (o & Ho & _).
    destruct (Forall2_lookup_r _ _ _ _ _
                (tr_loaded _ _ _ _ _ _ _ _ _ _ T) Ho)
      as (f & Hf & b & Hb & Hload).
    pose proof (tr_copied _ _ _ _ _ _ _ _ _ _ T Hhyg i o xo f out
                  Ho Hxo Hf Hout) as Hfile.
    destruct (Nat.eqb_spec (oid xo) (oid o)) as [Hid|_].
    + apply (trace_same_object _ _ _ _ _ _ _ _ _ _ _ _ _ T Ho Hxo) in Hid.
      subst xo. right. exists b. rewrite Hfile. auto.
    + left. exact Hfile.
Qed.

Lemma outcome_shape (Hshape : resample_gives_shape) ts tz (img x : image V) :
  outcome ts tz img x ->
  Forall2 Z.le (img_shape (canonical_form img)) ts ->
  Forall2 Z.le (img_shape (canonical_form img)) (img_shape x).
Proof.
  intros (rescale & resize & _ & _ & Hcase) Hle.
  destruct (rescale || resize).
  - destruct Hcase as (A & res & _ & Hres & ->).
    unfold img_shape at 2. simpl. fold (img_shape res).
    rewrite (Hshape _ _ _ _ _ Hres). exact Hle.
  - subst x. apply Forall2_same_length_lookup. split; [reflexivity|].
    intros ? ? ? H1 H2. rewrite H1 in H2. injection H2 as ->. lia.
Qed.

(** C1.  In every successful run of [ConformSeries] the series is not
    empty; the target shape is the axis-wise maximum of the shapes, and the
    target spacing the axis-wise minimum of the first three spacings, of the
    images entering the grid computation (every input as line 146 leaves
    it: the input itself when already canonical); and every output image,
    which its output file holds, has on every axis at least as many voxels
    as the image it comes from and, spacings being positive, a voxel size
    (measured on the affine) no larger than that image's.  The resampler is
    asked to return data of the target shape. *)
Theorem conform_target_grid_and_outputs
  (Hshape : resample_gives_shape) in_names cwd (w0 : world B) out_names w1
  (imgs : list (image V)) :
  ConformSeries_run in_names cwd w0 = (inr out_names, w1) ->
  Forall2 (stored w0) in_names imgs ->
  in_names <> [] /\
  exists ts tz (finals : list (image V)),
    target_grid (map canonical_form imgs) = inr (ts, tz) /\
    axiswise_max (map img_shape (map canonical_form imgs)) ts /\
    axiswise_min (map zooms3 (map canonical_form imgs)) tz /\
    Forall2 (fun img x =>
               Forall2 Z.le (img_shape (canonical_form img)) (img_shape x) /\
               (Forall positive_zooms (map canonical_form imgs) ->
                forall j, (voxel_size_sq (affine x) j
                           <= voxel_size_sq (affine (canonical_form img)) j)%Q))
      imgs finals /\
    out_names = map (ras_name cwd) in_names /\
    (hygienic in_names out_names ->
     forall i out x,
       out_names !! i = Some out -> finals !! i = Some x ->
       output_holds w1 out x).
Proof.
  intros Hrun Hs.
  destruct (run_outputs _ _ _ _ _ _ Hrun Hs)
    as (ts & tz & finals & Hgrid & Hout & Hnames & Hfiles).
  destruct (target_grid_inv _ _ _ Hgrid) as (Hne & Hmax & Hmin).
  split.
  { intros ->. inversion Hs; subst. apply Hne. reflexivity. }
  exists ts, tz, finals.
  split; [exact Hgrid|]. split; [exact Hmax|]. split; [exact Hmin|].
  split; [|split; assumption].
  apply Forall2_same_length_lookup.
  split; [exact (Forall2_length _ _ _ Hout)|].
  intros i img x Himg Hx.
  pose proof (Forall2_lookup_lr _ _ _ _ _ _ Hout Himg Hx) as Hox.
  assert (Hin : canonical_form img ∈ map canonical_form imgs).
  { apply list_elem_of_fmap. exists img. split; [reflexivity|].
    eapply list_elem_of_lookup_2; eauto. }
  split.
  - apply (outcome_shape Hshape ts tz); [exact Hox|].
    destruct Hmax as [Hbound _].
    eapply (proj1 (Forall_forall _ _) Hbound).
    apply list_elem_of_fmap. eauto.
  - intros Hpos j.
    destruct Hox as (rescale & resize & _ & _ & Hcase).
    destruct (rescale || resize).
    + destruct Hcase as (A & res & HA & _ & ->). simpl.
      eapply synth_target_affine_shrinks; [exact HA | |].
      * destruct Hmin as [Hbound _].
        eapply (proj1 (Forall_forall _ _) Hbound).
        apply list_elem_of_fmap. eauto.
      * eapply axiswise_min_positive; eauto.
    + subst x. apply Qle_refl.
Qed.

(** C2 (amended).  In every successful run, an input image that is
    canonical already (line 146 hands back the loaded object), whose shape
    is the target shape and whose first three spacings are within the
    tolerance of its unit of the target spacing, is left alone: the run
    makes no call of the resampler for its object, the [i]-th one loaded,
    and, output names being hygienic, its output file holds the very bytes
    of its input file. *)
Theorem conform_unchanged_canonical_image_is_copied
  in_names cwd (w0 : world B) out_names w1 (imgs : list (image V))
  ts tz i f img atol :
  ConformSeries_run in_names cwd w0 = (inr out_names, w1) ->
  Forall2 (stored w0) in_names imgs ->
  target_grid (map canonical_form imgs) = inr (ts, tz) ->
  in_names !! i = Some f ->
  imgs !! i = Some img ->
  as_closest_canonical img = None ->
  img_shape img = ts ->
  xyz_atol (hdr_xyz_units (header img)) = inr atol ->
  Forall2 (fun z t => (Qabs (z - t) <= atol)%Q) (zooms3 img) tz ->
  (exists asked,
     calls w1 = calls w0 ++ asked /\
     forall A s k,
       Resample (SrcObject (next_id w0 + i)) A s k ∉ asked) /\
  (hygienic in_names out_names ->
   exists out b,
     out_names !! i = Some out /\ fs w0 !! f = Some b /\
     fs w1 !! out = Some b).
Proof.
  intros Hrun Hs Hgrid Hf Himg Hcanon Hshape Hatol Hclose.
  destruct (ConformSeries_run_trace _ _ _ _ _ Hrun)
    as (origs & reos & finals & ts' & tz' & T).
  destruct (trace_values _ _ _ _ _ _ _ _ _ _ _ T Hs) as [Hvo Hvr].
  pose proof (tr_grid _ _ _ _ _ _ _ _ _ _ T) as Hgrid'.
  rewrite Hvr, Hgrid in Hgrid'. injection Hgrid' as <- <-.
  assert (exists o, origs !! i = Some o /\ oval o = img) as (o & Ho & Hoval).
  { rewrite <- Hvo in Himg.
    apply list_lookup_fmap_Some in Himg as (o & -> & Ho). eauto. }
  subst img.
  pose proof (trace_object_id _ _ _ _ _ _ _ _ _ _ _ _ T Ho) as Hid.
  pose proof (decide_rescale_within _ _ _ Hatol Hclose) as Hrs.
  pose proof (decide_resize_same (oval o)) as Hrz. rewrite Hshape in Hrz.
  destruct (trace_untouched _ _ _ _ _ _ _ _ _ _ i o T Ho Hcanon Hrs Hrz)
    as [Hr Hx].
  split.
  - exists (flat_map (resample_call ts tz) reos).
    split; [exact (tr_calls _ _ _ _ _ _ _ _ _ _ T)|].
    rewrite <- Hid. intros A s k Hin.
    apply list_elem_of_In, in_flat_map in Hin as (r & Hrin & Hc).
    apply list_elem_of_In in Hrin. apply list_elem_of_In in Hc.
    destruct (resample_call_source _ _ _ _ Hc) as (A' & HA').
    injection HA' as Hid' _ _ _.
    apply list_elem_of_lookup in Hrin as (j & Hj).
    assert (j = i) as ->.
    { eapply NoDup_lookup; [exact (tr_distinct _ _ _ _ _ _ _ _ _ _ T) | |].
      - rewrite list_lookup_fmap, Hj. reflexivity.
      - rewrite list_lookup_fmap, Hr. simpl. congruence. }
    rewrite Hr in Hj. injection Hj as <-.
    unfold resample_call in Hc. rewrite Hrs, Hrz in Hc. simpl in Hc.
    inversion Hc.
  - intros Hhyg.
    destruct (Forall2_lookup_r _ _ _ _ _ (tr_loaded _ _ _ _ _ _ _ _ _ _ T) Ho)
      as (f' & Hf' & b & Hb & _).
    rewrite Hf in Hf'. injection Hf' as <-.
    assert (exists out, out_names !! i = Some out) as [out Hout].
    { rewrite (tr_names _ _ _ _ _ _ _ _ _ _ T), list_lookup_fmap, Hf.
      simpl. eauto. }
    exists out, b. split; [exact Hout|]. split; [exact Hb|].
    rewrite (tr_copied _ _ _ _ _ _ _ _ _ _ T Hhyg i o o f out Ho Hx Hf Hout).
    rewrite Nat.eqb_refl. exact Hb.
Qed.

(** ** The target affine on floats *)









(** ** _gen_reference, step by step *)





(** C5.  The tolerance is looked up in the table
    {meter: 5e-5, mm: 0.05, micron: 50} under the unit the header reports;
    the unit "unknown" is looked up as "mm" and so gets 0.05; any other
    unit name is a KeyError.  The tolerance found is the one the rescale
    decision of every image compares with. *)
Theorem atol_selection :
  xyz_atol "meter" = inr 5e-5%Q /\
  xyz_atol "mm" = inr 0.05%Q /\
  xyz_atol "micron" = inr 50%Q /\
  xyz_atol "unknown" = xyz_atol "mm" /\
  (forall u, u ∉ ["meter"; "mm"; "micron"; "unknown"] ->
             xyz_atol u = inl KeyError) /\
  (forall (img : image V) tz atol,
     xyz_atol (hdr_xyz_units (header img)) = inr atol ->
     decide_rescale tz img =
     rbind (Np.allclose (zooms3 img) tz atol) (fun close => inr (negb close))) /\
  (forall (img : image V) ts tz (o : obj V) (w : world B),
     oval o = img ->
     xyz_atol (hdr_xyz_units (header img)) = inl KeyError ->
     conform_one ts tz o w = (inl KeyError, w)).
Proof.
  split; [reflexivity|]. split; [reflexivity|]. split; [reflexivity|].
  split; [reflexivity|]. split; [|split].
  - intros u Hu. unfold xyz_atol.
    destruct (String.eqb_spec u "unknown") as [->|_].
    + exfalso. apply Hu. repeat constructor.
    + unfold atol_table.
      rewrite !lookup_insert_ne, lookup_singleton_ne; [reflexivity| | |];
        intros <-; apply Hu; repeat constructor.
  - intros img tz atol Hatol. unfold decide_rescale. rewrite Hatol.
    reflexivity.
  - intros img ts tz o w <- Hatol.
    unfold conform_one, bind, lift, decide_rescale. rewrite Hatol.
    reflexivity.
Qed.

(** C8.  The rescale decision is the negation of an element-wise closeness
    test of the image's first three spacings against the target spacing,
    with the tolerance of the image's unit: it answers "no rescale" exactly
    when every |spacing - target| is at most atol + 1e-5 * |target|.  So a
    difference below atol never triggers a rescale, and neither does a
    difference of exactly atol. *)
Theorem rescale_tolerance_boundary (img : image V) tz atol :
  xyz_atol (hdr_xyz_units (header img)) = inr atol ->
  length (zooms3 img) = length tz ->
  exists rescale,
    decide_rescale tz img = inr rescale /\
    (rescale = false <->
     Forall2 (fun z t => (Qabs (z - t) <= atol + Np.rtol * Qabs t)%Q)
       (zooms3 img) tz) /\
    (Forall2 (fun z t => (Qabs (z - t) < atol)%Q) (zooms3 img) tz ->
     rescale = false) /\
    (Forall2 (fun z t => (Qabs (z - t) == atol)%Q) (zooms3 img) tz ->
     rescale = false).
Proof.
  intros Hatol Hlen. unfold decide_rescale. rewrite Hatol. simpl.
  fold (zooms3 img).
  pose proof (allclose_true (zooms3 img) tz atol Hlen) as Hiff.
  unfold Np.allclose in *. rewrite (broadcast2_same_length _ _ _ Hlen) in *.
  simpl in *. eexists. split; [reflexivity|].
  assert (Hchar : negb (forallb id (zip_with (Np.isclose atol) (zooms3 img) tz))
                  = false <->
                  Forall2 (fun z t =>
                             (Qabs (z - t) <= atol + Np.rtol * Qabs t)%Q)
                    (zooms3 img) tz).
  { rewrite negb_false_iff, <- Hiff. split; [intros ->; reflexivity|].
    intros H. injection H as H. exact H. }
  split; [exact Hchar|]. split; intros H; apply Hchar;
    (eapply Forall2_impl; [exact H|]); simpl; intros z t Hzt;
    pose proof (rtol_term_nonneg t); lra.
Qed.

(** ** Runs that change nothing *)

Lemma load_all_ok in_names : forall (w : world B) (imgs : list (image V)),
  Forall2 (stored w) in_names imgs ->
  exists os, mapM nb_load_file in_names w =
             (inr os, World (fs w) (next_id w + length in_names)%nat (calls w))
             /\ map oval os = imgs.
Proof.
  induction in_names as [|f names IH]; intros w imgs Hs;
    inversion Hs as [|? img ? imgs' (b & Hb & Himg) Hs']; subst; simpl.
  - exists []. rewrite Nat.add_0_r. destruct w. auto.
  - destruct (IH (World (fs w) (S (next_id w)) (calls w)) imgs' Hs')
      as (os & Hos & Hvals).
    exists (Obj (next_id w) img :: os). split; [|simpl; congruence].
    assert (Hfirst : nb_load_file f w =
              (inr (Obj (next_id w) img),
               World (fs w) (S (next_id w)) (calls w))).
    { unfold nb_load_file, bind, read_file, lift, new_object.
      rewrite Hb, Himg. reflexivity. }
    unfold bind at 1. rewrite Hfirst. unfold bind at 1. rewrite Hos.
    unfold ret. simpl. repeat f_equal. lia.
Qed.

Lemma reorient_all_noop (os : list (obj V)) (w : world B) :
  Forall (fun o => as_closest_canonical (oval o) = None) os ->
  mapM closest_canonical os w = (inr os, w).
Proof.
  induction 1 as [|o os Ho _ IH]; simpl; [reflexivity|].
  unfold bind, closest_canonical at 1. rewrite Ho. unfold ret at 1.
  rewrite IH. reflexivity.
Qed.

Lemma conform_one_noop ts tz (o : obj V) (w : world B) :
  decide_rescale tz (oval o) = inr false ->
  decide_resize ts (oval o) = inr false ->
  conform_one ts tz o w = (inr o, w).
Proof.
  intros Hrs Hrz. unfold conform_one, bind, lift. rewrite Hrs, Hrz.
  reflexivity.
Qed.

Lemma on_grid_decisions ts tz (img : image V) :
  on_grid ts tz img ->
  decide_rescale tz img = inr false /\ decide_resize ts img = inr false.
Proof.
  intros [<- (atol & Hatol & Hclose)]. split.
  - eapply decide_rescale_within; eauto.
  - apply decide_resize_same.
Qed.

Lemma conform_all_noop ts tz (os : list (obj V)) (w : world B) :
  Forall (fun o => on_grid ts tz (oval o)) os ->
  mapM (conform_one ts tz) os w = (inr os, w).
Proof.
  induction 1 as [|o os Ho _ IH]; simpl; [reflexivity|].
  apply on_grid_decisions in Ho as [Hrs Hrz].
  unfold bind. rewrite (conform_one_noop _ _ _ _ Hrs Hrz), IH. reflexivity.
Qed.

Lemma persist_all_ok (os xs : list (obj V)) : forall in_names out_names
  (w : world B),
  Forall (fun f => is_Some (fs w !! f)) in_names ->
  exists w', persist_all os xs in_names out_names w = (inr tt, w').
Proof.
  revert xs. induction os as [|o os IH];
    intros [|x xs] [|f ins] [|out outs] w Hex; simpl;
    try (eexists; reflexivity).
  apply Forall_cons in Hex as [[b Hb] Hex].
  assert (Hstep : exists b', persist o x f out w =
            (inr tt, World (<[out := b']> (fs w)) (next_id w) (calls w))).
  { unfold persist. destruct (oid x =? oid o)%nat.
    - unfold bind, read_file. rewrite Hb. eexists. reflexivity.
    - eexists. reflexivity. }
  destruct Hstep as (b' & Hstep). unfold bind. rewrite Hstep.
  apply IH. simpl. eapply Forall_impl; [exact Hex|]. simpl.
  intros g [c Hc]. destruct (decide (out = g)) as [->|Hne].
  - rewrite lookup_insert_eq. eauto.
  - rewrite lookup_insert_ne by assumption. eauto.
Qed.

(** A series of canonical images that are all on the target grid is copied
    file by file, and the resampler is never called. *)
Lemma conform_noop in_names cwd (w : world B) (imgs : list (image V)) ts tz :
  Forall2 (stored w) in_names imgs ->
  Forall (fun img => as_closest_canonical img = None) imgs ->
  target_grid imgs = inr (ts, tz) ->
  Forall (on_grid ts tz) imgs ->
  exists w1,
    ConformSeries_run in_names cwd w = (inr (map (ras_name cwd) in_names), w1)
    /\ calls w1 = calls w
    /\ (hygienic in_names (map (ras_name cwd) in_names) ->
        Forall2 (stored w1) (map (ras_name cwd) in_names) imgs /\
        forall i f, in_names !! i = Some f ->
                    fs w1 !! ras_name cwd f = fs w !! f).
Proof.
  intros Hs Hcanon Hgrid Hon.
  destruct (load_all_ok _ _ _ Hs) as (os & Hload & Hvals).
  assert (Hcanon' : Forall (fun o => as_closest_canonical (oval o) = None) os).
  { rewrite <- Hvals in Hcanon. rewrite Forall_fmap in Hcanon. exact Hcanon. }
  assert (Hon' : Forall (fun o => on_grid ts tz (oval o)) os).
  { rewrite <- Hvals in Hon. rewrite Forall_fmap in Hon. exact Hon. }
  set (wa := World (fs w) (next_id w + length in_names)%nat (calls w)) in *.
  destruct (persist_all_ok os os in_names (map (ras_name cwd) in_names) wa)
    as (w1 & Hpers).
  { apply Forall_forall. intros f Hf.
    apply list_elem_of_lookup in Hf as (i & Hi).
    destruct (Forall2_lookup_l _ _ _ _ _ Hs Hi) as (img & _ & b & Hb & _).
    simpl. eauto. }
  assert (Hrun : ConformSeries_run in_names cwd w
                 = (inr (map (ras_name cwd) in_names), w1)).
  { unfold ConformSeries_run, bind. rewrite Hload.
    rewrite (reorient_all_noop _ _ Hcanon'). unfold lift.
    rewrite Hvals, Hgrid. simpl.
    rewrite (conform_all_noop _ _ _ _ Hon').
    unfold ras_name in Hpers. rewrite Hpers. reflexivity. }
  exists w1. split; [exact Hrun|].
  pose proof (Forall2_length _ _ _ Hs) as Hlen.
  assert (Hlen' : length os = length imgs) by (rewrite <- Hvals, length_map; auto).
  apply persist_all_inv in Hpers as (Hcalls & _ & _ & Hfiles);
    [| lia | lia | rewrite length_map; lia ].
  split; [exact Hcalls|]. intros Hhyg.
  assert (Hcopy : forall i f, in_names !! i = Some f ->
                              fs w1 !! ras_name cwd f = fs w !! f).
  { intros i f Hf.
    destruct (Forall2_lookup_l _ _ _ _ _ Hs Hf) as (img & Himg & _).
    assert (exists o, os !! i = Some o) as [o Ho].
    { apply lookup_lt_is_Some. rewrite Hlen', <- Hlen.
      eapply lookup_lt_Some; eauto. }
    rewrite (Hfiles Hhyg i o o f (ras_name cwd f) Ho Ho Hf).
    - rewrite Nat.eqb_refl. reflexivity.
    - rewrite list_lookup_fmap, Hf. reflexivity. }
  split; [|exact Hcopy].
  apply Forall2_fmap_l. apply Forall2_same_length_lookup.
  split; [exact Hlen|]. intros i f img Hf Himg.
  destruct (Forall2_lookup_lr _ _ _ _ _ _ Hs Hf Himg) as (b & Hb & Hload').
  exists b. rewrite (Hcopy i f Hf). auto.
Qed.

(** C6 (amended).  For a series of images that are canonical already and
    all on the target grid, a run copies every input file to its output
    name, byte for byte, without calling the resampler; and a second run,
    on the outputs of the first, copies them again: its outputs hold the
    bytes of the original inputs.  Output names are hygienic in both
    runs. *)
Theorem conform_already_conformed_twice in_names cwd cwd' (w0 : world B)
  (imgs : list (image V)) ts tz :
  Forall2 (stored w0) in_names imgs ->
  Forall (fun img => as_closest_canonical img = None) imgs ->
  target_grid imgs = inr (ts, tz) ->
  Forall (on_grid ts tz) imgs ->
  hygienic in_names (map (ras_name cwd) in_names) ->
  hygienic (map (ras_name cwd) in_names)
    (map (ras_name cwd') (map (ras_name cwd) in_names)) ->
  exists w1 w2,
    ConformSeries_run in_names cwd w0
      = (inr (map (ras_name cwd) in_names), w1) /\
    calls w1 = calls w0 /\
    (forall i f, in_names !! i = Some f ->
                 fs w1 !! ras_name cwd f = fs w0 !! f) /\
    ConformSeries_run (map (ras_name cwd) in_names) cwd' w1
      = (inr (map (ras_name cwd') (map (ras_name cwd) in_names)), w2) /\
    calls w2 = calls w0 /\
    (forall i f, in_names !! i = Some f ->
                 fs w2 !! ras_name cwd' (ras_name cwd f) = fs w0 !! f).
Proof.
  intros Hs Hcanon Hgrid Hon Hhyg1 Hhyg2.
  destruct (conform_noop in_names cwd w0 imgs ts tz Hs Hcanon Hgrid Hon)
    as (w1 & Hrun1 & Hcalls1 & Hfiles1).
  destruct (Hfiles1 Hhyg1) as [Hs1 Hcopy1].
  destruct (conform_noop (map (ras_name cwd) in_names) cwd' w1 imgs ts tz
              Hs1 Hcanon Hgrid Hon)
    as (w2 & Hrun2 & Hcalls2 & Hfiles2).
  destruct (Hfiles2 Hhyg2) as [_ Hcopy2].
  exists w1, w2. repeat split; try assumption; try congruence.
  intros i f Hf.
  rewrite (Hcopy2 i (ras_name cwd f)), (Hcopy1 i f Hf); [reflexivity|].
  rewrite list_lookup_fmap, Hf. reflexivity.
Qed.

(** ** Orientation *)

Lemma positive_scale_sign (s a : Q) :
  (0 < s)%Q ->
  ((0 < s * a)%Q <-> (0 < a)%Q) /\ ((s * a < 0)%Q <-> (a < 0)%Q).
Proof. intros Hs. split; split; intros H; nra. Qed.

Lemma scale_rows_same_orientation s0 s1 s2 (m m' : mat3) :
  (0 < s0)%Q -> (0 < s1)%Q -> (0 < s2)%Q ->
  mat3_equiv m' (scale_rows (s0, s1, s2) m) ->
  same_orientation m' m.
Proof.
  intros H0 H1 H2 Heq i j. rewrite (Heq i j).
  destruct m as [[[[a b] c] [[d e] f]] [[g h] k]].
  destruct i as [|[|i]], j as [|[|j]]; cbn;
    apply positive_scale_sign; assumption.
Qed.

Lemma same_orientation_refl (m : mat3) : same_orientation m m.
Proof. intros i j. split; reflexivity. Qed.

Lemma ratio_positive (t z : Q) : (0 < t)%Q -> (0 < z)%Q -> (0 < t / z)%Q.
Proof. intros Ht Hz. apply Qlt_shift_div_l; lra. Qed.

Lemma synth_target_affine_orientation rescale resize ts tz (img : image V) A :
  synth_target_affine rescale resize ts tz img = inr A ->
  length (zooms3 img) = length tz ->
  Forall (fun t => (0 < t)%Q) tz ->
  positive_zooms img ->
  same_orientation (lin A) (lin (affine img)).
Proof.
  unfold synth_target_affine. intros H Hlen Ht Hz.
  apply rbind_inr in H as (l & Hl & H).
  apply rbind_inr in H as (t & _ & H). injection H as <-. simpl.
  destruct rescale.
  - apply scaled_linear_inv in Hl
      as (t0 & t1 & t2 & z0 & z1 & z2 & -> & Hzs & Heq);
      [| symmetry; exact Hlen ].
    unfold positive_zooms in Hz. fold (zooms3 img) in Hzs. rewrite Hzs in Hz.
    apply Forall_cons in Hz as [Z0 Hz]. apply Forall_cons in Hz as [Z1 Hz].
    apply Forall_cons in Hz as [Z2 _].
    apply Forall_cons in Ht as [T0 Ht]. apply Forall_cons in Ht as [T1 Ht].
    apply Forall_cons in Ht as [T2 _].
    eapply scale_rows_same_orientation; [| | |exact Heq];
      apply ratio_positive; assumption.
  - injection Hl as <-. apply same_orientation_refl.
Qed.

Lemma outcome_orientation ts tz (img x : image V) :
  outcome ts tz img x ->
  length (zooms3 (canonical_form img)) = length tz ->
  Forall (fun t => (0 < t)%Q) tz ->
  positive_zooms (canonical_form img) ->
  same_orientation (lin (affine x)) (lin (affine (canonical_form img))).
Proof.
  intros (rescale & resize & _ & _ & Hcase) Hlen Htz Hpos.
  destruct (rescale || resize).
  - destruct Hcase as (A & res & HA & _ & ->). simpl.
    eapply synth_target_affine_orientation; eauto.
  - subst x. apply same_orientation_refl.
Qed.

(** C7.  The unifier never reorders or flips axes itself.  Every image
    enters the loop of lines 152-188 in closest-canonical orientation,
    line 146 having normalised it; an image that is canonical already is
    passed on as it is.  Spacings being positive, the linear part of every
    output image, which its output file holds, has the orientation of the
    linear part of the image that entered the loop, and an input that is
    already in closest-canonical orientation has the same orientation in
    its output. *)
Theorem conform_keeps_orientation_after_reorienting
  in_names cwd (w0 : world B) out_names w1 (imgs : list (image V)) :
  ConformSeries_run in_names cwd w0 = (inr out_names, w1) ->
  Forall2 (stored w0) in_names imgs ->
  Forall positive_zooms (map canonical_form imgs) ->
  exists finals : list (image V),
    Forall2 (fun img x =>
               same_orientation (lin (affine x))
                 (lin (affine (canonical_form img))) /\
               (as_closest_canonical img = None ->
                same_orientation (lin (affine x)) (lin (affine img))))
      imgs finals /\
    out_names = map (ras_name cwd) in_names /\
    (hygienic in_names out_names ->
     forall i out x,
       out_names !! i = Some out -> finals !! i = Some x ->
       output_holds w1 out x).
Proof.
  intros Hrun Hs Hpos.
  destruct (run_outputs _ _ _ _ _ _ Hrun Hs)
    as (ts & tz & finals & Hgrid & Hout & Hnames & Hfiles).
  destruct (target_grid_inv _ _ _ Hgrid) as (_ & _ & Hmin).
  pose proof (axiswise_min_positive _ _ Hmin Hpos) as Htz.
  exists finals. split; [|split; assumption].
  apply Forall2_same_length_lookup.
  split; [exact (Forall2_length _ _ _ Hout)|].
  intros i img x Himg Hx.
  pose proof (Forall2_lookup_lr _ _ _ _ _ _ Hout Himg Hx) as Hox.
  assert (Hin : canonical_form img ∈ map canonical_form imgs).
  { apply list_elem_of_fmap. exists img. split; [reflexivity|].
    eapply list_elem_of_lookup_2; eauto. }
  assert (Hsame : same_orientation (lin (affine x))
                    (lin (affine (canonical_form img)))).
  { apply (outcome_orientation ts tz); [exact Hox | | exact Htz |].
    - destruct Hmin as [Hbound _]. eapply Forall2_length.
      eapply (proj1 (Forall_forall _ _) Hbound).
      apply list_elem_of_fmap. eauto.
    - eapply (proj1 (Forall_forall _ _) Hpos). exact Hin. }
  split; [exact Hsame|].
  intros Hcanon. unfold canonical_form in Hsame. rewrite Hcanon in Hsame.
  exact Hsame.
Qed.

(** ** Dimensionality *)

Lemma xyz_atol_positive u atol : xyz_atol u = inr atol -> (0 < atol)%Q.
Proof.
  unfold xyz_atol, atol_table.
  set (k := if String.eqb u "unknown" then "mm" else u). clearbody k.
  rewrite lookup_insert. case_decide; [intros E; injection E as <-; reflexivity|].
  rewrite lookup_insert. case_decide; [intros E; injection E as <-; reflexivity|].
  rewrite lookup_singleton. case_decide; [|discriminate].
  intros E; injection E as <-; reflexivity.
Qed.

Lemma filter_not_one_all (l : list Z) :
  Forall (fun d => d ≠ 1%Z) l -> filter (fun d => d ≠ 1%Z) l = l.
Proof.
  induction 1 as [|d l Hd _ IH]; [reflexivity|].
  rewrite filter_cons_True by assumption. congruence.
Qed.

Lemma filter_not_one_shorter (l : list Z) :
  Exists (fun d => d = 1%Z) l ->
  (length (filter (fun d => d ≠ 1%Z) l) < length l)%nat.
Proof.
  induction 1 as [d l Hd | d l _ IH].
  - rewrite filter_cons_False by (intros Hne; apply Hne; exact Hd).
    pose proof (length_filter (fun d => d ≠ 1%Z) l). simpl. lia.
  - destruct (decide (d ≠ 1%Z)).
    + rewrite filter_cons_True by assumption. simpl. lia.
    + rewrite filter_cons_False by assumption. simpl. lia.
Qed.

Lemma single_image_grid (img : image V) :
  target_grid [img] = inr (img_shape img, zooms3 img).
Proof. reflexivity. Qed.

Lemma single_image_on_grid (img : image V) atol :
  xyz_atol (hdr_xyz_units (header img)) = inr atol ->
  on_grid (img_shape img) (zooms3 img) img.
Proof.
  intros Hatol. split; [reflexivity|]. exists atol. split; [assumption|].
  apply xyz_atol_positive in Hatol.
  apply Forall_Forall2_diag. apply Forall_forall. intros z _.
  assert (Hz : (z - z == 0)%Q) by ring. cbv beta. rewrite Hz.
  change (Qabs 0) with 0%Q. lra.
Qed.

(** ** Images with two axes *)

(** The loop body on an image with two axes that is off the grid: the
    diagonal of two ratios does not multiply a 3x3 matrix, and two size
    factors do not broadcast against three coordinates. *)
Lemma conform_one_flat ts tz (o : obj V) (w : world B) b1 b2 :
  length (img_shape (oval o)) = 2%nat ->
  length (zooms3 (oval o)) = 2%nat ->
  length ts = 2%nat -> length tz = 2%nat ->
  decide_rescale tz (oval o) = inr b1 ->
  decide_resize ts (oval o) = inr b2 ->
  b1 || b2 = true ->
  conform_one ts tz o w = (inl ValueError, w).
Proof.
  intros Hn Hz Hts Htz Hrs Hrz Hb.
  unfold conform_one, bind, lift. rewrite Hrs, Hrz, Hb.
  unfold synth_target_affine. fold (zooms3 (oval o)).
  destruct (zooms3 (oval o)) as [|z0 [|z1 [|]]]; try discriminate.
  destruct (img_shape (oval o)) as [|n0 [|n1 [|]]]; try discriminate.
  destruct ts as [|m0 [|m1 [|]]]; try discriminate.
  destruct tz as [|t0 [|t1 [|]]]; try discriminate.
  destruct (lin (affine (oval o))) as [[[[? ?] ?] [[? ?] ?]] [[? ?] ?]].
  destruct (trans (affine (oval o))) as [[? ?] ?].
  destruct b1; [reflexivity|]. destruct b2; [reflexivity|discriminate].
Qed.

Lemma decide_resize_total ts (img : image V) :
  length (img_shape img) = length ts ->
  exists b, decide_resize ts img = inr b /\
            (b = false -> img_shape img = ts).
Proof.
  intros Hl. unfold decide_resize.
  destruct (Np.all_eq (img_shape img) ts) as [e|same] eqn:Hsame.
  - unfold Np.all_eq in Hsame.
    rewrite (broadcast2_same_length _ _ _ Hl) in Hsame. discriminate.
  - simpl. eexists. split; [reflexivity|].
    destruct same; [|discriminate]. intros _.
    apply (all_eq_true _ _ Hl). exact Hsame.
Qed.

Lemma decide_rescale_total tz (img : image V) atol :
  xyz_atol (hdr_xyz_units (header img)) = inr atol ->
  length (zooms3 img) = length tz ->
  exists b, decide_rescale tz img = inr b.
Proof.
  intros Hatol Hl. unfold decide_rescale. rewrite Hatol. simpl.
  fold (zooms3 img). unfold Np.allclose.
  rewrite (broadcast2_same_length _ _ _ Hl). simpl. eauto.
Qed.

Lemma conform_all_flat ts tz (os : list (obj V)) (w : world B) :
  length ts = 2%nat -> length tz = 2%nat ->
  Forall (fun o => two_axes (oval o)) os ->
  Exists (fun o => img_shape (oval o) <> ts) os ->
  mapM (conform_one ts tz) os w = (inl ValueError, w).
Proof.
  intros Hts Htz Hflat Hex.
  induction os as [|o os IH]; [inversion Hex|].
  inversion Hflat as [|? ? (Hn & Hz & atol & Hatol) Hflat']; subst.
  destruct (decide_resize_total ts (oval o)) as (b2 & Hrz & Hsame);
    [congruence|].
  destruct (decide_rescale_total tz (oval o) atol Hatol) as (b1 & Hrs);
    [congruence|].
  simpl. unfold bind.
  destruct (b1 || b2) eqn:Hb.
  - rewrite (conform_one_flat ts tz o w b1 b2); auto.
  - apply orb_false_elim in Hb as [-> ->].
    rewrite (conform_one_noop _ _ _ _ Hrs Hrz).
    rewrite IH; [reflexivity|assumption|].
    inversion Hex as [? ? Hne|]; subst; [|assumption].
    exfalso. apply Hne. apply Hsame. reflexivity.
Qed.

Lemma target_grid_lengths (img : image V) imgs ts tz :
  target_grid (img :: imgs) = inr (ts, tz) ->
  length ts = length (img_shape img) /\
  length tz = length (zooms3 img).
Proof.
  unfold target_grid. simpl.
  destruct (Np.reduce_axis0 Z.max (img_shape img) (map img_shape imgs))
    as [e|ts'] eqn:Hmax; simpl; [discriminate|].
  destruct (Np.reduce_axis0 Qmin (take 3 (get_zooms img))
              (map (fun i => take 3 (get_zooms i)) imgs))
    as [e|tz'] eqn:Hmin; simpl; [discriminate|].
  intros H. injection H as <- <-.
  apply (reduce_axis0_spec Z.max Z.le Z.le_max_l Z.le_max_r Zmax_choice)
    in Hmax as (Hmax & _).
  apply (reduce_axis0_spec Qmin (flip Qle)
           (fun a b => Q.le_min_l a b) (fun a b => Q.le_min_r a b))
    in Hmin as (Hmin & _); [|exact Qmin_choice].
  split; symmetry; eapply Forall2_length; eassumption.
Qed.

(** A series of canonical images with two axes whose shapes are not all
    the target shape stops in the affine arithmetic of the first image off
    the grid: nothing is written and the resampler is not called. *)
Lemma conform_flat_series in_names cwd (w : world B)
  (imgs : list (image V)) ts tz :
  Forall2 (stored w) in_names imgs ->
  Forall (fun img => as_closest_canonical img = None) imgs ->
  Forall two_axes imgs ->
  target_grid imgs = inr (ts, tz) ->
  Exists (fun img => img_shape img <> ts) imgs ->
  ConformSeries_run in_names cwd w =
    (inl ValueError,
     World (fs w) (next_id w + length in_names)%nat (calls w)).
Proof.
  intros Hs Hcanon Hflat Hgrid Hex.
  destruct (load_all_ok _ _ _ Hs) as (os & Hload & Hvals).
  assert (Hcanon' : Forall (fun o => as_closest_canonical (oval o) = None) os).
  { rewrite <- Hvals in Hcanon. rewrite Forall_fmap in Hcanon. exact Hcanon. }
  assert (Hflat' : Forall (fun o => two_axes (oval o)) os).
  { rewrite <- Hvals in Hflat. rewrite Forall_fmap in Hflat. exact Hflat. }
  assert (Hex' : Exists (fun o => img_shape (oval o) <> ts) os).
  { rewrite <- Hvals in Hex. apply Exists_exists in Hex as (img & Hin & Hne).
    apply list_elem_of_fmap in Hin as (o & -> & Ho).
    apply Exists_exists. eauto. }
  assert (Hlen : length ts = 2%nat /\ length tz = 2%nat).
  { destruct imgs as [|img imgs']; [inversion Hex|].
    apply target_grid_lengths in Hgrid as [-> ->].
    inversion Hflat as [|? ? (Hn & Hz & _) _]; subst. split; assumption. }
  destruct Hlen as [Hts Htz].
  unfold ConformSeries_run, bind. rewrite Hload.
  rewrite (reorient_all_noop _ _ Hcanon'). unfold lift.
  rewrite Hvals, Hgrid. simpl.
  rewrite (conform_all_flat _ _ _ _ Hts Htz Hflat' Hex'). reflexivity.
Qed.

(** ** The one-file branch of IntraModalMerge *)

Lemma merge_single_five in_file (w : world B) (img : image V) :
  stored w in_file img ->
  ndim (dataobj img) = 5%nat ->
  Forall (fun d => d ≠ 1%Z) (img_shape img) ->
  IntraModalMerge_single in_file w
  = (inl RuntimeError, World (fs w) (S (next_id w)) (calls w)).
Proof.
  intros (b & Hb & Himg) Hnd Hall.
  unfold IntraModalMerge_single, bind, nb_load_file, bind, read_file, lift,
    new_object.
  rewrite Hb, Himg. simpl. rewrite Hnd. simpl.
  unfold ndim, squeeze. simpl. fold (img_shape img).
  rewrite (filter_not_one_all _ Hall).
  unfold ndim in Hnd. fold (img_shape img) in Hnd. rewrite Hnd.
  reflexivity.
Qed.

Lemma merge_single_squeezed in_file (w : world B) (img : image V) :
  stored w in_file img ->
  ndim (dataobj img) = 5%nat ->
  Exists (fun d => d = 1%Z) (img_shape img) ->
  exists r w',
    IntraModalMerge_single in_file w = (r, w') /\
    fs w' = <[genfname in_file "squeezed"
              := nb_save (Image (squeeze (dataobj img)) (affine img)
                            (header img))]> (fs w) /\
    calls w' = calls w.
Proof.
  intros (b & Hb & Himg) Hnd Hex.
  unfold IntraModalMerge_single, bind, nb_load_file, bind, read_file, lift,
    new_object, write_file, ret.
  rewrite Hb, Himg. simpl. rewrite Hnd. simpl.
  apply filter_not_one_shorter in Hex.
  unfold ndim in *. fold (img_shape img) in Hnd. rewrite Hnd in Hex.
  unfold squeeze at 1. simpl. fold (img_shape img).
  destruct (Nat.eqb_spec (length (filter (fun d => d ≠ 1%Z) (img_shape img))) 5)
    as [Heq|_]; [lia|].
  simpl. rewrite lookup_insert_eq.
  destruct (nb_load (nb_save (Image (squeeze (dataobj img)) (affine img)
                                (header img)))) as [e|again];
    simpl; [eauto|].
  match goal with |- context [(?n <? 4)%nat] => destruct (n <? 4)%nat end;
    eauto.
Qed.
End Claims.

(** * Files that read *)

Section Loading.
Context {V B : Type} `{!Collaborators V B}.

Lemma nb_load_file_stored fname (w : world B) (img : image V) :
  stored w fname img ->
  nb_load_file fname w =
    (inr (Obj (next_id w) img), World (fs w) (S (next_id w)) (calls w)).
Proof.
  intros (b & Hb & Hload). unfold nb_load_file, bind, read_file, lift.
  rewrite Hb, Hload. reflexivity.
Qed.

Lemma nb_load_file_missing fname (w : world B) :
  (forall img : image V, ~ stored w fname img) ->
  exists e, nb_load_file (V:=V) fname w = (inl e, w).
Proof.
  intros Hno. unfold nb_load_file, bind, read_file, lift.
  destruct (fs w !! fname) as [b|] eqn:Hb; [|eexists; reflexivity].
  destruct (nb_load b) as [e|img] eqn:Hload; [eexists; reflexivity|].
  exfalso. apply (Hno img). exists b. split; assumption.
Qed.

Lemma nb_load_file_cases fname (w : world B) :
  (exists img : image V, stored w fname img /\
     nb_load_file fname w =
       (inr (Obj (next_id w) img), World (fs w) (S (next_id w)) (calls w))) \/
  (exists e, nb_load_file (V:=V) fname w = (inl e, w)).
Proof.
  unfold nb_load_file, bind, read_file, lift.
  destruct (fs w !! fname) as [b|] eqn:Hb; [|right; eexists; reflexivity].
  destruct (nb_load b) as [e|img] eqn:Hload; [right; eexists; reflexivity|].
  left. exists img. split; [exists b; split; assumption|reflexivity].
Qed.

Lemma merge_single_run in_file (w : world B) (img : image V) :
  stored w in_file img ->
  ndim (dataobj img) <> 5%nat ->
  IntraModalMerge_single in_file w =
    (inr (if (ndim (squeeze (dataobj img)) <? 4)%nat
          then ReturnedAsIs in_file in_file
          else ToMotionCorrection in_file),
     World (fs w) (S (S (next_id w))) (calls w)).
Proof.
  intros Hst Hnd. unfold IntraModalMerge_single, bind.
  rewrite (nb_load_file_stored _ _ _ Hst). cbn [oval].
  apply Nat.eqb_neq in Hnd. rewrite Hnd. unfold ret at 1.
  assert (Hst' : stored (World (fs w) (S (next_id w)) (calls w)) in_file img)
    by exact Hst.
  rewrite (nb_load_file_stored _ _ _ Hst'). cbn [oval fs next_id calls].
  destruct (ndim (squeeze (dataobj img)) <? 4)%nat; reflexivity.
Qed.

Lemma reorient_stored in_file out_file (w : world B) (img : image V) :
  stored w in_file img ->
  let out := default (genfname in_file "ras") out_file in
  exists n,
    reorient in_file out_file w =
      (inr out,
       World (<[out := nb_save (canonical_form img)]> (fs w)) n (calls w)).
Proof.
  intros Hst out.
  assert (Hout : match out_file with
                 | Some f => f
                 | None => genfname in_file "ras"
                 end = out) by (destruct out_file; reflexivity).
  unfold reorient. rewrite Hout. unfold bind.
  rewrite (nb_load_file_stored _ _ _ Hst).
  unfold closest_canonical, canonical_form. cbn [oval].
  destruct (as_closest_canonical img) as [v|]; eexists; reflexivity.
Qed.

End Loading.

(** * Dimensionality *)

Section Dimensionality.
Context {V B : Type} `{!Collaborators V B}.
Context {B' : Type} `{!Collaborators (list Q) B'} `{!Fsl B'}.

(** C9 (amended).  [ConformSeries] has no check on the number of axes and
    no error of its own for it.  A series of one canonical image with a
    known unit is copied to its output name whatever the number of its
    axes, fewer than three included.  A series of canonical images with
    two axes each, some of which is not of the target shape, does fail,
    with the ValueError of numpy's array arithmetic on the first image off
    the grid; no file is written and the resampler is not called.  The
    check on dimensionality is in [IntraModalMerge] with one input file:
    data with five axes none of which has length one raise RuntimeError,
    fatal and not corrected.  Without [to_ras] no file has been written by
    then; with [to_ras], the default, the reoriented copy of the input has
    been written under the "ras" name, and it is that copy, read back,
    which is checked.  In the one-file branch, data with five axes one of
    which has length one are squeezed and written under the "squeezed"
    name instead. *)
Theorem dimensionality_checks :
  (forall f cwd (w : world B) (img : image V) atol,
     stored w f img ->
     as_closest_canonical img = None ->
     xyz_atol (hdr_xyz_units (header img)) = inr atol ->
     exists w1,
       ConformSeries_run [f] cwd w = (inr [ras_name (V:=V) cwd f], w1) /\
       calls w1 = calls w /\
       (ras_name (V:=V) cwd f ≠ f ->
        fs w1 !! ras_name (V:=V) cwd f = fs w !! f)) /\
  (forall in_names cwd (w : world B) (imgs : list (image V)) ts tz,
     Forall2 (stored w) in_names imgs ->
     Forall (fun img => as_closest_canonical img = None) imgs ->
     Forall two_axes imgs ->
     target_grid imgs = inr (ts, tz) ->
     Exists (fun img => img_shape img <> ts) imgs ->
     ConformSeries_run in_names cwd w =
       (inl ValueError,
        World (fs w) (next_id w + length in_names)%nat (calls w))) /\
  (forall f hmc zero_based_avg (w : world B') (img : image (list Q)),
     stored w f img ->
     ndim (dataobj img) = 5%nat ->
     Forall (fun d => d ≠ 1%Z) (img_shape img) ->
     IntraModalMerge_run [f] hmc zero_based_avg false w =
       (inl (Raised RuntimeError),
        World (fs w) (S (next_id w)) (calls w))) /\
  (forall f hmc zero_based_avg (w : world B') (img : image (list Q)),
     stored w f img ->
     let ras := genfname (V:=list Q) f "ras" in
     let canon := canonical_form img in
     nb_load (nb_save canon) = inr canon ->
     ndim (dataobj canon) = 5%nat ->
     Forall (fun d => d ≠ 1%Z) (img_shape canon) ->
     exists n,
       IntraModalMerge_run [f] hmc zero_based_avg true w =
         (inl (Raised RuntimeError),
          World (<[ras := nb_save canon]> (fs w)) n (calls w))) /\
  (forall f (w : world B') (img : image (list Q)),
     stored w f img ->
     ndim (dataobj img) = 5%nat ->
     Exists (fun d => d = 1%Z) (img_shape img) ->
     exists r w',
       merge_input [f] [f] w = (r, w') /\
       fs w' = <[genfname (V:=list Q) f "squeezed"
                 := nb_save (Image (squeeze (dataobj img)) (affine img)
                               (header img))]> (fs w) /\
       calls w' = calls w).
Proof.
  split; [|split; [|split; [|split]]].
  - intros f cwd w img atol Hs Hcanon Hatol.
    destruct (conform_noop [f] cwd w [img] (img_shape img) (zooms3 img))
      as (w1 & Hrun & Hcalls & Hfiles).
    + constructor; [exact Hs | constructor].
    + constructor; [exact Hcanon | constructor].
    + apply single_image_grid.
    + constructor; [eapply single_image_on_grid; eauto | constructor].
    + exists w1. split; [exact Hrun|]. split; [exact Hcalls|].
      intros Hne.
      assert (Hhyg : hygienic [f] (map (ras_name (V:=V) cwd) [f])).
      { split; [apply NoDup_singleton|]. simpl. intros g Hg Hg'.
        apply list_elem_of_singleton in Hg.
        apply list_elem_of_singleton in Hg'. congruence. }
      exact (proj2 (Hfiles Hhyg) 0%nat f eq_refl).
  - intros in_names cwd w imgs ts tz. apply conform_flat_series.
  - intros f hmc zb w img Hst H5 Hall. unfold IntraModalMerge_run.
    unfold xbind at 1, xlift at 1, first_of.
    unfold xbind at 1, xret at 1. unfold xbind at 1, of_M at 1, merge_input.
    rewrite (merge_single_five _ _ _ Hst H5 Hall). reflexivity.
  - intros f hmc zb w img Hst ras canon Hrt H5 Hall.
    unfold IntraModalMerge_run.
    unfold xbind at 1, xlift at 1, first_of.
    unfold xbind at 1, of_M at 1. cbn [mapM]. unfold bind at 1.
    destruct (reorient_stored f None w img Hst) as (n & Hrun).
    cbn [default] in Hrun. rewrite Hrun. unfold bind, ret.
    unfold xbind at 1, of_M at 1, merge_input. cbv beta iota.
    match goal with
    | |- context [IntraModalMerge_single _ ?w1] =>
        assert (Hst1 : stored w1 ras canon)
    end.
    { exists (nb_save canon). split; [|exact Hrt]. apply lookup_insert_eq. }
    subst ras canon.
    rewrite (merge_single_five _ _ _ Hst1 H5 Hall).
    eexists. reflexivity.
  - intros f w img Hst H5 Hex. unfold merge_input.
    exact (merge_single_squeezed f w img Hst H5 Hex).
Qed.

End Dimensionality.

(** * The program at work *)

Lemma ref_resample_gives_shape :
  @resample_gives_shape string (image string) Ref.collaborators.
Proof.
  intros img A shape interp res. simpl. unfold Ref.resample.
  destruct (Ref.read_target A img) as [|target]; simpl;
    [discriminate|].
  destruct (length shape =? 3)%nat; simpl; [|discriminate].
  destruct (lin target) as [[[[? ?] ?] [[? ?] ?]] [[? ?] ?]].
  intros H. injection H as <-. reflexivity.
Qed.

(** The scenario of the two runs: both outputs have 36 slices; the first
    image is resampled onto its own spacing with the origin moved by three
    slices, the second is copied. *)
Example two_runs_scenario :
  let r := ConformSeries_run (V:=string)
             ["/data/run-1_T1w.nii.gz"; "/data/run-2_T1w.nii.gz"] "/work"
             Ref.two_runs in
  r.1 = inr ["/work/run-1_T1w_ras.nii.gz"; "/work/run-2_T1w_ras.nii.gz"] /\
  calls r.2 =
    [Resample (SrcObject 0)
       [[2; 0; 0; -64]; [0; 2; 0; -64]; [0; 0; 2; -33]; [0; 0; 0; 1]]%Q
       (Some [64; 64; 36]) Continuous] /\
  (img_shape (V:=string) <$> fs r.2 !! "/work/run-1_T1w_ras.nii.gz")
    = Some [64; 64; 36] /\
  fs r.2 !! "/work/run-2_T1w_ras.nii.gz" = Some Ref.t1w_36.
Proof. vm_compute. repeat split; reflexivity. Qed.

Lemma conform_target_grid_and_outputs_witness :
  let in_names := ["/data/run-1_T1w.nii.gz"; "/data/run-2_T1w.nii.gz"] in
  let out_names :=
    ["/work/run-1_T1w_ras.nii.gz"; "/work/run-2_T1w_ras.nii.gz"] in
  let imgs := [Ref.t1w_30; Ref.t1w_36] in
  let r := ConformSeries_run (V:=string) in_names "/work" Ref.two_runs in
  @resample_gives_shape string (image string) Ref.collaborators /\
  r = (inr out_names, r.2) /\
  Forall2 (stored Ref.two_runs) in_names imgs /\
  (in_names <> [] /\
   exists ts tz (finals : list (image string)),
     target_grid (map canonical_form imgs) = inr (ts, tz) /\
     axiswise_max (map img_shape (map canonical_form imgs)) ts /\
     axiswise_min (map zooms3 (map canonical_form imgs)) tz /\
     Forall2 (fun img x =>
                Forall2 Z.le (img_shape (canonical_form img)) (img_shape x) /\
                (Forall positive_zooms (map canonical_form imgs) ->
                 forall j, (voxel_size_sq (affine x) j
                            <= voxel_size_sq (affine (canonical_form img)) j)%Q))
       imgs finals /\
     out_names = map (ras_name "/work") in_names /\
     (hygienic in_names out_names ->
      forall i out x,
        out_names !! i = Some out -> finals !! i = Some x ->
        output_holds r.2 out x)).
Proof.
  intros in_names out_names imgs r.
  assert (Hrun : r = (inr out_names, r.2)) by (vm_compute; reflexivity).
  assert (Hs : Forall2 (stored Ref.two_runs) in_names imgs)
    by (repeat constructor; eexists; split; reflexivity).
  split; [exact ref_resample_gives_shape|]. split; [exact Hrun|].
  split; [exact Hs|].
  exact (conform_target_grid_and_outputs ref_resample_gives_shape
           in_names "/work" Ref.two_runs _ _ imgs Hrun Hs).
Defined.


(** Hygiene of concrete names is decided by computation. *)
Lemma hygienic_decide (in_names out_names : list string) :
  bool_decide (NoDup out_names
               /\ Forall (fun f => f ∉ out_names) in_names) = true ->
  hygienic in_names out_names.
Proof.
  intros H. apply bool_decide_eq_true_1 in H as [Hnd Hdisj].
  split; [exact Hnd|]. intros f Hf.
  exact (proj1 (Forall_forall _ _) Hdisj f Hf).
Qed.

Lemma conform_unchanged_canonical_image_is_copied_witness :
  let in_names := ["/data/run-1_T1w.nii.gz"; "/data/run-2_T1w.nii.gz"] in
  let out_names :=
    ["/work/run-1_T1w_ras.nii.gz"; "/work/run-2_T1w_ras.nii.gz"] in
  let imgs := [Ref.t1w_30; Ref.t1w_36] in
  let w0 := Ref.two_runs in
  let r := ConformSeries_run (V:=string) in_names "/work" w0 in
  r = (inr out_names, r.2) /\
  Forall2 (stored w0) in_names imgs /\
  target_grid (map canonical_form imgs) = inr ([64; 64; 36], [2; 2; 2]%Q) /\
  in_names !! 1%nat = Some "/data/run-2_T1w.nii.gz" /\
  imgs !! 1%nat = Some Ref.t1w_36 /\
  as_closest_canonical Ref.t1w_36 = None /\
  img_shape Ref.t1w_36 = [64; 64; 36] /\
  xyz_atol (hdr_xyz_units (header Ref.t1w_36)) = inr 0.05%Q /\
  Forall2 (fun z t => (Qabs (z - t) <= 0.05)%Q) (zooms3 Ref.t1w_36)
    [2; 2; 2]%Q /\
  hygienic in_names out_names /\
  (exists asked,
     calls r.2 = calls w0 ++ asked /\
     forall A s k, Resample (SrcObject (next_id w0 + 1)) A s k ∉ asked) /\
  exists out b,
    out_names !! 1%nat = Some out /\
    fs w0 !! "/data/run-2_T1w.nii.gz" = Some b /\
    fs r.2 !! out = Some b.
Proof.
  intros in_names out_names imgs w0 r.
  assert (Hrun : r = (inr out_names, r.2)) by (vm_compute; reflexivity).
  assert (Hs : Forall2 (stored w0) in_names imgs)
    by (repeat constructor; eexists; split; reflexivity).
  assert (Hgrid : target_grid (map canonical_form imgs)
                  = inr ([64; 64; 36], [2; 2; 2]%Q)) by reflexivity.
  assert (Hclose : Forall2 (fun z t => (Qabs (z - t) <= 0.05)%Q)
                     (zooms3 Ref.t1w_36) [2; 2; 2]%Q)
    by (repeat constructor; discriminate).
  assert (Hhyg : hygienic in_names out_names)
    by (apply hygienic_decide; vm_compute; reflexivity).
  destruct (conform_unchanged_canonical_image_is_copied
              in_names "/work" w0 out_names r.2 imgs
              [64; 64; 36] [2; 2; 2]%Q 1%nat "/data/run-2_T1w.nii.gz"
              Ref.t1w_36 0.05%Q
              Hrun Hs Hgrid eq_refl eq_refl eq_refl eq_refl eq_refl Hclose)
    as [Hasked Hcopy].
  split; [exact Hrun|]. split; [exact Hs|]. split; [exact Hgrid|].
  split; [reflexivity|]. split; [reflexivity|]. split; [reflexivity|].
  split; [reflexivity|]. split; [reflexivity|]. split; [exact Hclose|].
  split; [exact Hhyg|]. split; [exact Hasked | exact (Hcopy Hhyg)].
Defined.

(** C2, as stated, fails on an image stored right to left: its shape is the
    target shape and its spacing the target spacing, the resampler is not
    called, and yet the output is written from the reoriented image and is
    not the input file. *)
Lemma unchanged_grid_but_output_rewritten :
  let w0 := Ref.one_las in
  let r := ConformSeries_run (V:=string) ["/data/las_T1w.nii.gz"] "/work" w0 in
  fs w0 !! "/data/las_T1w.nii.gz" = Some Ref.t1w_las /\
  r.1 = inr ["/work/las_T1w_ras.nii.gz"] /\
  calls r.2 = [] /\
  (exists reo,
     as_closest_canonical Ref.t1w_las = Some reo /\
     target_grid [reo] = inr (img_shape Ref.t1w_las, zooms3 Ref.t1w_las) /\
     img_shape reo = img_shape Ref.t1w_las /\
     zooms3 reo = zooms3 Ref.t1w_las /\
     fs r.2 !! "/work/las_T1w_ras.nii.gz" = Some reo) /\
  fs r.2 !! "/work/las_T1w_ras.nii.gz" <> fs w0 !! "/data/las_T1w.nii.gz".
Proof.
  vm_compute. repeat split.
  - eexists. repeat split.
  - discriminate.
Qed.


(** The same image, entry by entry: the rescaled third spacing is the
    float64 product of the float32 ratio and the float32 next to 1.2, a
    little over 1 (1.000000015894571); an axis
    of length zero leaves the offset without a value; an image with two
    axes stops the arithmetic. *)
Example rescaled_entry_and_empty_axis :
  let A := affine_stored (Affine (diag3 1 1 1.2) (-64, -64, -100))%Q in
  let one := Ieee.of_Q Ieee.binary32 1 in
  let thick := Ieee.of_Q Ieee.binary32 1.2 in
  (match target_affine true false [64; 64; 30] [one; one; one]
           [one; one; thick] [64; 64; 30] A with
   | inr A' => Ieee.to_Q (fentry (flin A') 2 2)
   | inl _ => None
   end = Some (70368745296145 # 70368744177664)%Q) /\
  target_affine false true [64; 64; 30] [one; one; one]
    [one; one; thick] [64; 64; 0] A = inl NotFinite /\
  target_affine true true [64; 64] [one; one] [one; one] [64; 32] A
  = inl (Raised ValueError).
Proof. vm_compute. repeat split; reflexivity. Qed.


(** The spacing 1.0035 is not a float32: the header holds the float32 next
    to it, and its rounding is the float32 next to 1.004 (1.0039999485),
    not the one next to 1.003. *)
Example rounding_in_float32 :
  Np.round 1.0035 3 = (4211081 # 4194304)%Q /\
  Np.round 1.003 3 = (4206887 # 4194304)%Q /\
  Np.round 1.0035 3 <> Np.round 1.003 3.
Proof.
  assert (H1 : Np.round 1.0035 3 = (4211081 # 4194304)%Q)
    by (vm_compute; reflexivity).
  assert (H2 : Np.round 1.003 3 = (4206887 # 4194304)%Q)
    by (vm_compute; reflexivity).
  split; [exact H1|]. split; [exact H2|]. rewrite H1, H2. discriminate.
Qed.


Lemma rescale_tolerance_boundary_witness :
  let img := Ref.t1w_thick in
  xyz_atol (hdr_xyz_units (header img)) = inr 0.05%Q /\
  length (zooms3 img) = length [1; 1; 1.15]%Q /\
  exists rescale,
    decide_rescale [1; 1; 1.15]%Q img = inr rescale /\
    (rescale = false <->
     Forall2 (fun z t => (Qabs (z - t) <= 0.05 + Np.rtol * Qabs t)%Q)
       (zooms3 img) [1; 1; 1.15]%Q) /\
    (Forall2 (fun z t => (Qabs (z - t) < 0.05)%Q) (zooms3 img)
       [1; 1; 1.15]%Q -> rescale = false) /\
    (Forall2 (fun z t => (Qabs (z - t) == 0.05)%Q) (zooms3 img)
       [1; 1; 1.15]%Q -> rescale = false).
Proof.
  intros img.
  assert (Hatol : xyz_atol (hdr_xyz_units (header img)) = inr 0.05%Q)
    by reflexivity.
  assert (Hlen : length (zooms3 img) = length [1; 1; 1.15]%Q) by reflexivity.
  split; [exact Hatol|]. split; [exact Hlen|].
  exact (rescale_tolerance_boundary img [1; 1; 1.15]%Q 0.05%Q Hatol Hlen).
Defined.

(** At the boundary: 1.2 against 1.15 differs by exactly 0.05 and is not
    rescaled; against 1.14 it differs by 0.06 and is. *)
Example boundary_of_the_tolerance :
  decide_rescale [1; 1; 1.15]%Q Ref.t1w_thick = inr false /\
  decide_rescale [1; 1; 1.14]%Q Ref.t1w_thick = inr true.
Proof. vm_compute. split; reflexivity. Qed.


Lemma conform_already_conformed_twice_witness :
  let in_names := ["/data/run-1_T1w.nii.gz"; "/data/run-2_T1w.nii.gz"] in
  let w0 := Ref.same_grid in
  let imgs := [Ref.t1w_36; Ref.t1w_36] in
  Forall2 (stored w0) in_names imgs /\
  Forall (fun img => as_closest_canonical img = None) imgs /\
  target_grid imgs = inr ([64; 64; 36], [2; 2; 2]%Q) /\
  Forall (on_grid [64; 64; 36] [2; 2; 2]%Q) imgs /\
  hygienic in_names (map (ras_name (V:=string) "/work") in_names) /\
  hygienic (map (ras_name (V:=string) "/work") in_names)
    (map (ras_name (V:=string) "/again")
       (map (ras_name (V:=string) "/work") in_names)) /\
  exists w1 w2,
    ConformSeries_run (V:=string) in_names "/work" w0
      = (inr (map (ras_name (V:=string) "/work") in_names), w1) /\
    calls w1 = calls w0 /\
    (forall i f, in_names !! i = Some f ->
                 fs w1 !! ras_name (V:=string) "/work" f = fs w0 !! f) /\
    ConformSeries_run (V:=string)
      (map (ras_name (V:=string) "/work") in_names) "/again" w1
      = (inr (map (ras_name (V:=string) "/again")
                (map (ras_name (V:=string) "/work") in_names)), w2) /\
    calls w2 = calls w0 /\
    (forall i f, in_names !! i = Some f ->
                 fs w2 !! ras_name (V:=string) "/again"
                            (ras_name (V:=string) "/work" f)
                 = fs w0 !! f).
Proof.
  intros in_names w0 imgs.
  assert (Hs : Forall2 (stored w0) in_names imgs)
    by (repeat constructor; exists Ref.t1w_36; split; reflexivity).
  assert (Hcanon : Forall (fun img => as_closest_canonical img = None) imgs)
    by (repeat constructor).
  assert (Hgrid : target_grid imgs = inr ([64; 64; 36], [2; 2; 2]%Q))
    by reflexivity.
  assert (Hon : Forall (on_grid [64; 64; 36] [2; 2; 2]%Q) imgs).
  { repeat constructor; exists 0.05%Q; (split; [reflexivity|]);
      repeat constructor; discriminate. }
  assert (Hh1 : hygienic in_names (map (ras_name (V:=string) "/work") in_names))
    by (apply hygienic_decide; vm_compute; reflexivity).
  assert (Hh2 : hygienic (map (ras_name (V:=string) "/work") in_names)
                  (map (ras_name (V:=string) "/again")
                     (map (ras_name (V:=string) "/work") in_names)))
    by (apply hygienic_decide; vm_compute; reflexivity).
  split; [exact Hs|]. split; [exact Hcanon|]. split; [exact Hgrid|].
  split; [exact Hon|]. split; [exact Hh1|]. split; [exact Hh2|].
  exact (conform_already_conformed_twice in_names "/work" "/again" w0 imgs
           _ _ Hs Hcanon Hgrid Hon Hh1 Hh2).
Defined.

(** C6, as stated, fails on a series of two images stored right to left
    that share shape and spacing: no image is resampled, yet neither output
    holds the bytes of its input. *)
Lemma conformed_series_rewritten_when_reoriented :
  let w0 := Ref.two_las in
  let r := ConformSeries_run (V:=string)
             ["/data/las-1_T1w.nii.gz"; "/data/las-2_T1w.nii.gz"] "/work" w0 in
  fs w0 !! "/data/las-1_T1w.nii.gz" = Some Ref.t1w_las /\
  fs w0 !! "/data/las-2_T1w.nii.gz" = Some Ref.t1w_las /\
  target_grid (map canonical_form [Ref.t1w_las; Ref.t1w_las])
  = inr (img_shape Ref.t1w_las, zooms3 Ref.t1w_las) /\
  r.1 = inr ["/work/las-1_T1w_ras.nii.gz"; "/work/las-2_T1w_ras.nii.gz"] /\
  calls r.2 = [] /\
  fs r.2 !! "/work/las-1_T1w_ras.nii.gz" <> fs w0 !! "/data/las-1_T1w.nii.gz"
  /\
  fs r.2 !! "/work/las-2_T1w_ras.nii.gz" <> fs w0 !! "/data/las-2_T1w.nii.gz".
Proof. vm_compute. repeat split; discriminate. Qed.

Lemma conform_keeps_orientation_after_reorienting_witness :
  let in_names := ["/data/run-1_T1w.nii.gz"; "/data/run-2_T1w.nii.gz"] in
  let out_names :=
    ["/work/run-1_T1w_ras.nii.gz"; "/work/run-2_T1w_ras.nii.gz"] in
  let imgs := [Ref.t1w_30; Ref.t1w_36] in
  let w0 := Ref.two_runs in
  let r := ConformSeries_run (V:=string) in_names "/work" w0 in
  r = (inr out_names, r.2) /\
  Forall2 (stored w0) in_names imgs /\
  Forall positive_zooms (map canonical_form imgs) /\
  exists finals : list (image string),
    Forall2 (fun img x =>
               same_orientation (lin (affine x))
                 (lin (affine (canonical_form img))) /\
               (as_closest_canonical img = None ->
                same_orientation (lin (affine x)) (lin (affine img))))
      imgs finals /\
    out_names = map (ras_name "/work") in_names /\
    (hygienic in_names out_names ->
     forall i out x,
       out_names !! i = Some out -> finals !! i = Some x ->
       output_holds r.2 out x).
Proof.
  intros in_names out_names imgs w0 r.
  assert (Hrun : r = (inr out_names, r.2)) by (vm_compute; reflexivity).
  assert (Hs : Forall2 (stored w0) in_names imgs)
    by (repeat constructor; eexists; split; reflexivity).
  assert (Hpos : Forall positive_zooms (map canonical_form imgs))
    by (repeat constructor).
  split; [exact Hrun|]. split; [exact Hs|]. split; [exact Hpos|].
  exact (conform_keeps_orientation_after_reorienting
           in_names "/work" w0 _ _ imgs Hrun Hs Hpos).
Defined.

Lemma dimensionality_checks_witness :
  (exists w1,
     ConformSeries_run (V:=string) ["/data/slice.nii.gz"] "/work"
       Ref.one_slice
     = (inr [ras_name (V:=string) "/work" "/data/slice.nii.gz"], w1) /\
     calls w1 = calls Ref.one_slice /\
     (ras_name (V:=string) "/work" "/data/slice.nii.gz"
        ≠ "/data/slice.nii.gz" ->
      fs w1 !! ras_name (V:=string) "/work" "/data/slice.nii.gz"
      = fs Ref.one_slice !! "/data/slice.nii.gz")) /\
  ConformSeries_run (V:=string)
    ["/data/slice.nii.gz"; "/data/short.nii.gz"] "/work" Ref.two_slices
  = (inl ValueError, World (fs Ref.two_slices) 2 []) /\
  IntraModalMerge_run ["/data/mag.nii.gz"] true false false RefVox.fieldmaps
  = (inl (Raised RuntimeError), World (fs RefVox.fieldmaps) 1 []) /\
  (exists n,
     IntraModalMerge_run ["/data/mag.nii.gz"] true false true
       RefVox.fieldmaps
     = (inl (Raised RuntimeError),
        World (<["mag_ras.nii.gz" := RefVox.magnitude]>
                 (fs RefVox.fieldmaps)) n [])) /\
  (exists r w',
     merge_input (B:=image (list Q)) ["/data/thin.nii.gz"]
       ["/data/thin.nii.gz"] RefVox.thin_fieldmaps = (r, w') /\
     fs w' = <["thin_squeezed.nii.gz"
               := Image (squeeze (dataobj RefVox.magnitude_thin))
                    (affine RefVox.magnitude_thin)
                    (header RefVox.magnitude_thin)]>
               (fs RefVox.thin_fieldmaps) /\
     calls w' = calls RefVox.thin_fieldmaps).
Proof.
  destruct (dimensionality_checks (V:=string) (B:=image string)
              (B':=image (list Q)))
    as (Hconform & Hflat & Hraise & Hras & Hsqueeze).
  split; [|split; [|split; [|split]]].
  - apply (Hconform "/data/slice.nii.gz" "/work" Ref.one_slice Ref.flat_slice
             0.05%Q).
    + exists Ref.flat_slice. split; reflexivity.
    + reflexivity.
    + reflexivity.
  - apply (Hflat ["/data/slice.nii.gz"; "/data/short.nii.gz"] "/work"
             Ref.two_slices [Ref.flat_slice; Ref.short_slice]
             [64; 64] [2; 2]%Q).
    + repeat constructor; eexists; split; reflexivity.
    + repeat constructor.
    + repeat constructor; exists 0.05%Q; reflexivity.
    + reflexivity.
    + apply Exists_cons_tl. apply Exists_cons_hd. discriminate.
  - apply (Hraise "/data/mag.nii.gz" true false RefVox.fieldmaps
             RefVox.magnitude).
    + exists RefVox.magnitude. split; reflexivity.
    + reflexivity.
    + repeat constructor; discriminate.
  - assert (Hst : stored RefVox.fieldmaps "/data/mag.nii.gz" RefVox.magnitude)
      by (exists RefVox.magnitude; split; reflexivity).
    assert (Hall : Forall (fun d => d ≠ 1%Z)
                     (img_shape (canonical_form RefVox.magnitude)))
      by (repeat constructor; discriminate).
    exact (Hras "/data/mag.nii.gz" true false RefVox.fieldmaps
             RefVox.magnitude Hst eq_refl eq_refl Hall).
  - assert (Hst : stored RefVox.thin_fieldmaps "/data/thin.nii.gz"
                    RefVox.magnitude_thin)
      by (exists RefVox.magnitude_thin; split; reflexivity).
    assert (Hone : Exists (fun d => d = 1%Z)
                     (img_shape RefVox.magnitude_thin))
      by (apply Exists_cons_tl; apply Exists_cons_hd; reflexivity).
    exact (Hsqueeze "/data/thin.nii.gz" RefVox.thin_fieldmaps
             RefVox.magnitude_thin Hst eq_refl Hone).
Defined.

(** C9, as stated, fails on an image with two axes: [ConformSeries] raises
    nothing and copies the file. *)
Lemma two_axes_image_is_conformed :
  let w0 := Ref.one_slice in
  let r := ConformSeries_run (V:=string) ["/data/slice.nii.gz"] "/work" w0 in
  fs w0 !! "/data/slice.nii.gz" = Some Ref.flat_slice /\
  ndim (dataobj Ref.flat_slice) = 2%nat /\
  r.1 = inr ["/work/slice_ras.nii.gz"] /\
  fs r.2 !! "/work/slice_ras.nii.gz" = Some Ref.flat_slice.
Proof. vm_compute. repeat split. Qed.

(** A unit the table does not know, and an image whose unit is not
    reported. *)
Lemma atol_selection_witness :
  xyz_atol "cm" = inl KeyError /\
  decide_rescale [2; 2; 2]%Q Ref.t1w_las =
  rbind (Np.allclose (zooms3 Ref.t1w_las) [2; 2; 2]%Q 0.05%Q)
    (fun close => inr (negb close)).
Proof.
  destruct (atol_selection (V:=string) (B:=image string))
    as (_ & _ & _ & _ & Hkey & Huse & _).
  split.
  - apply Hkey. intros Hin.
    repeat (apply elem_of_cons in Hin as [Hin|Hin]; [discriminate Hin|]).
    inversion Hin.
  - apply Huse. reflexivity.
Defined.

(** * Further properties of the code *)

(** ** Files an action may write *)

Section Frames.
Context {V B : Type} `{!Collaborators V B}.

Lemma ww_ret {A} P (a : A) : writes_within (B:=B) P (ret a).
Proof. intros w r w' H g _. injection H as _ <-. reflexivity. Qed.

Lemma ww_raise {A} P e : writes_within (B:=B) (A:=A) P (raise e).
Proof. intros w r w' H g _. injection H as _ <-. reflexivity. Qed.

Lemma ww_lift {A} P (x : result A) : writes_within (B:=B) P (lift x).
Proof. intros w r w' H g _. injection H as _ <-. reflexivity. Qed.

Lemma ww_bind {A C} P (m : M B A) (k : A -> M B C) :
  writes_within P m -> (forall a, writes_within P (k a)) ->
  writes_within P (bind m k).
Proof.
  intros Hm Hk w r w' H g Hg. unfold bind in H.
  destruct (m w) as [[e|a] w1] eqn:Hmw.
  - injection H as _ <-. exact (Hm _ _ _ Hmw g Hg).
  - rewrite (Hk a _ _ _ H g Hg). exact (Hm _ _ _ Hmw g Hg).
Qed.

Lemma ww_mapM {A C} P (f : A -> M B C) (l : list A) :
  (forall a, writes_within P (f a)) -> writes_within P (mapM f l).
Proof.
  intros Hf. induction l as [|a l IH]; simpl; [apply ww_ret|].
  apply ww_bind; [apply Hf|]. intros c.
  apply ww_bind; [exact IH|]. intros cs. apply ww_ret.
Qed.

Lemma ww_read_file P name : writes_within (B:=B) P (read_file name).
Proof.
  intros w r w' H g _. unfold read_file in H.
  destruct (fs w !! name); injection H as _ <-; reflexivity.
Qed.

Lemma ww_write_file (P : string -> Prop) name (b : B) :
  P name -> writes_within P (write_file name b).
Proof.
  intros HP w r w' H g Hg. injection H as _ <-. simpl.
  apply lookup_insert_ne. intros ->. contradiction.
Qed.

Lemma ww_new_object P (v : image V) : writes_within (B:=B) P (new_object v).
Proof. intros w r w' H g _. injection H as _ <-. reflexivity. Qed.

Lemma ww_record P c : writes_within (B:=B) P (record c).
Proof. intros w r w' H g _. injection H as _ <-. reflexivity. Qed.

Lemma ww_nb_load_file P fname :
  writes_within P (nb_load_file (V:=V) (B:=B) fname).
Proof.
  unfold nb_load_file. apply ww_bind; [apply ww_read_file|]. intros b.
  apply ww_bind; [apply ww_lift|]. intros img. apply ww_new_object.
Qed.

Lemma ww_closest_canonical P (o : obj V) :
  writes_within (B:=B) P (closest_canonical o).
Proof.
  unfold closest_canonical.
  destruct (as_closest_canonical (oval o)); [apply ww_new_object|apply ww_ret].
Qed.

Lemma ww_conform_one P ts tz (o : obj V) :
  writes_within (B:=B) P (conform_one ts tz o).
Proof.
  unfold conform_one. apply ww_bind; [apply ww_lift|]. intros rescale.
  apply ww_bind; [apply ww_lift|]. intros resize.
  destruct (rescale || resize); [|apply ww_ret].
  apply ww_bind; [apply ww_lift|]. intros A.
  apply ww_bind; [apply ww_record|]. intros _.
  apply ww_bind; [apply ww_lift|]. intros res. apply ww_new_object.
Qed.

Lemma ww_persist (P : string -> Prop) (orig final : obj V) in_name out_name :
  P out_name -> writes_within (B:=B) P (persist orig final in_name out_name).
Proof.
  intros HP. unfold persist. destruct (oid final =? oid orig)%nat.
  - apply ww_bind; [apply ww_read_file|]. intros b.
    apply ww_write_file. exact HP.
  - apply ww_write_file. exact HP.
Qed.

Lemma ww_persist_all (P : string -> Prop) (origs : list (obj V)) :
  forall finals in_names out_names,
  (forall out, out ∈ out_names -> P out) ->
  writes_within (B:=B) P (persist_all origs finals in_names out_names).
Proof.
  induction origs as [|o origs IH];
    intros [|x finals] [|f ins] [|out outs] HP; simpl; try apply ww_ret.
  apply ww_bind.
  - apply ww_persist. apply HP. left.
  - intros _. apply IH. intros out' Hin. apply HP. right. exact Hin.
Qed.

(** X1.  When the output names of a run of [ConformSeries] are distinct
    and none of them names a file before the run, then however the run
    ends, with the output names or with an exception, a file whose name is
    not one of the output names is left as it was; in particular no input
    is modified.  (The copy of line 196 may be a hard link to the input;
    were an output name to occur twice, or to exist already as a link, a
    later write under that name would reach the linked file too; the two
    conditions exclude that.) *)
Theorem conform_writes_only_outputs in_names cwd (w : world B) r w' g :
  NoDup (map (ras_name (V:=V) cwd) in_names) ->
  Forall (fun out => fs w !! out = None)
    (map (ras_name (V:=V) cwd) in_names) ->
  ConformSeries_run (V:=V) in_names cwd w = (r, w') ->
  g ∉ map (ras_name cwd) in_names ->
  fs w' !! g = fs w !! g.
Proof.
  intros _ _ Hrun Hg. revert w r w' Hrun g Hg.
  change (writes_within (fun g => g ∈ map (ras_name cwd) in_names)
            (ConformSeries_run (V:=V) (B:=B) in_names cwd)).
  unfold ConformSeries_run.
  apply ww_bind; [apply ww_mapM; intros; apply ww_nb_load_file|].
  intros origs.
  apply ww_bind; [apply ww_mapM; intros; apply ww_closest_canonical|].
  intros reos. apply ww_bind; [apply ww_lift|]. intros target.
  apply ww_bind; [apply ww_mapM; intros; apply ww_conform_one|].
  intros finals. apply ww_bind; [|intros; apply ww_ret].
  apply ww_persist_all. intros out Hout. exact Hout.
Qed.

End Frames.

(** ** More on a run of ConformSeries *)


Section MoreConform.
Context {V B : Type} `{!Collaborators V B}.

Lemma persist_all_exists (origs : list (obj V)) :
  forall finals in_names out_names (w w' : world B),
  persist_all origs finals in_names out_names w = (inr tt, w') ->
  length finals = length origs -> length in_names = length origs ->
  length out_names = length origs ->
  (forall g, is_Some (fs w !! g) -> is_Some (fs w' !! g)) /\
  (forall out, out ∈ out_names -> is_Some (fs w' !! out)).
Proof.
  induction origs as [|o origs IH];
    intros [|x finals] [|f ins] [|out outs] w w' H L1 L2 L3;
    simpl in *; try discriminate.
  - injection H as <-. split; [auto|]. intros out Hin. inversion Hin.
  - unfold bind in H.
    destruct (persist o x f out w) as [[e|[]] w1] eqn:Hp; [discriminate|].
    apply persist_inv in Hp as (b & _ & ->).
    apply IH in H as [Hkeep Hnew]; try lia. simpl in *.
    assert (Hstep : forall g, is_Some (fs w !! g) ->
                              is_Some (<[out := b]> (fs w) !! g)).
    { intros g [c Hc]. destruct (decide (out = g)) as [->|Hne].
      - rewrite lookup_insert_eq. eauto.
      - rewrite lookup_insert_ne by assumption. eauto. }
    split; [intros g Hg; apply Hkeep, Hstep, Hg|].
    intros out' Hin. apply elem_of_cons in Hin as [->|Hin].
    + apply Hkeep. rewrite lookup_insert_eq. eauto.
    + apply Hnew. exact Hin.
Qed.

(** X2.  A successful run of [ConformSeries] returns one output name for
    every input name, in the order of the inputs, and leaves a file under
    every one of them; no file that existed before the run is gone after
    it. *)
Theorem conform_outputs_exist in_names cwd (w : world B) out_names w' :
  ConformSeries_run (V:=V) in_names cwd w = (inr out_names, w') ->
  length out_names = length in_names /\
  (forall i f, in_names !! i = Some f ->
               out_names !! i = Some (ras_name cwd f)) /\
  (forall out, out ∈ out_names -> is_Some (fs w' !! out)) /\
  (forall g, is_Some (fs w !! g) -> is_Some (fs w' !! g)).
Proof.
  unfold ConformSeries_run. intros H.
  apply bind_inr in H as (origs & wa & Hload & H).
  apply bind_inr in H as (reos & wb & Hreo & H).
  apply bind_inr in H as ([ts tz] & wc & Hgrid & H).
  apply lift_inr in Hgrid as [Hgrid ->].
  apply bind_inr in H as (finals & wc & Hconf & H).
  apply bind_inr in H as ([] & wd & Hpers & H).
  apply ret_inr in H as [-> ->]. simpl in Hconf.
  apply load_all_inv in Hload as (Hl & Hids & ->).
  apply reorient_all_inv in Hreo as (Hr & _ & _ & _ & Hfs & _);
    [| apply seq_ids_below; assumption
     | rewrite Hids; apply NoDup_seq ].
  apply conform_all_inv in Hconf as (Hc & _ & Hfs' & _).
  pose proof (Forall2_length _ _ _ Hl) as Hlen1.
  pose proof (Forall2_length _ _ _ Hr) as Hlen2.
  pose proof (Forall2_length _ _ _ Hc) as Hlen3.
  apply persist_all_exists in Hpers as [Hkeep Hnew];
    [| lia | lia | rewrite length_map; lia ].
  rewrite Hfs', Hfs in Hkeep. simpl in Hkeep.
  split; [apply length_map|]. split; [|split; assumption].
  intros i f Hf. rewrite list_lookup_fmap, Hf. reflexivity.
Qed.

(** *** Runs that raise *)

Lemma reorient_all_run (os : list (obj V)) : forall (w : world B),
  exists rs w',
    mapM closest_canonical os w = (inr rs, w') /\
    map oval rs = map canonical_form (map oval os) /\
    fs w' = fs w /\ calls w' = calls w.
Proof.
  induction os as [|o os IH]; intros w; simpl.
  - exists [], w. auto.
  - unfold bind, closest_canonical at 1, canonical_form at 1.
    destruct (as_closest_canonical (oval o)) as [v|]; simpl.
    + destruct (IH (World (fs w) (S (next_id w)) (calls w)))
        as (rs & w' & Hrs & Hvals & Hfs & Hcalls).
      rewrite Hrs. exists (Obj (next_id w) v :: rs), w'. simpl.
      rewrite Hvals. auto.
    + destruct (IH w) as (rs & w' & Hrs & Hvals & Hfs & Hcalls).
      rewrite Hrs. exists (o :: rs), w'. simpl. rewrite Hvals. auto.
Qed.

Lemma writes_nothing {A} (m : M B A) (w : world B) r w' :
  writes_within (fun _ => False) m -> m w = (r, w') -> fs w' = fs w.
Proof.
  intros Hm Hrun. apply map_eq. intros g.
  exact (Hm _ _ _ Hrun g (fun H => H)).
Qed.

Lemma load_all_unreadable in_names f : forall (w : world B),
  f ∈ in_names -> (forall img : image V, ~ stored w f img) ->
  exists e w',
    mapM (nb_load_file (V:=V)) in_names w = (inl e, w') /\
    fs w' = fs w /\ calls w' = calls w.
Proof.
  induction in_names as [|f0 names IH]; intros w Hin Hno; [inversion Hin|].
  cbn [mapM]. unfold bind at 1.
  destruct (nb_load_file_cases (V:=V) f0 w) as [(img & Hst & Hl)|(e & Hl)];
    rewrite Hl.
  - apply elem_of_cons in Hin as [->|Hin]; [exfalso; exact (Hno img Hst)|].
    destruct (IH (World (fs w) (S (next_id w)) (calls w)) Hin Hno)
      as (e & w' & Hrun & Hfs & Hcalls).
    exists e, w'. unfold bind. rewrite Hrun. auto.
  - exists e, w. auto.
Qed.

(** X3.  [ConformSeries] leaves no partial result: whenever a run raises,
    no file has been written (saving an image is taken to succeed).  A run
    on no input raises ValueError at once, and a run with an input that
    cannot be read raises without having called the resampler. *)
Theorem conform_raises_before_writing in_names cwd (w : world B) :
  (forall e w',
     ConformSeries_run (V:=V) in_names cwd w = (inl e, w') ->
     fs w' = fs w) /\
  (in_names = [] ->
   ConformSeries_run (V:=V) in_names cwd w = (inl ValueError, w)) /\
  (forall f, f ∈ in_names -> (forall img : image V, ~ stored w f img) ->
     exists e w',
       ConformSeries_run (V:=V) in_names cwd w = (inl e, w') /\
       fs w' = fs w /\ calls w' = calls w).
Proof.
  split; [|split].
  - intros e w' Hrun. unfold ConformSeries_run in Hrun.
    unfold bind at 1 in Hrun.
    destruct (mapM nb_load_file in_names w) as [[e1|os] wa] eqn:Hload.
    { injection Hrun as _ <-.
      eapply writes_nothing; [|exact Hload].
      apply ww_mapM. intros. apply ww_nb_load_file. }
    pose proof Hload as Hload'.
    apply load_all_inv in Hload' as (Hl & _ & Hwa).
    unfold bind at 1 in Hrun.
    destruct (reorient_all_run os wa) as (rs & wb & Hreo & _ & Hfsb & _).
    rewrite Hreo in Hrun. unfold bind at 1, lift at 1 in Hrun.
    assert (Hb : fs wb = fs w) by (rewrite Hfsb, Hwa; reflexivity).
    destruct (target_grid (map oval rs)) as [e2|target].
    { injection Hrun as _ <-. exact Hb. }
    unfold bind at 1 in Hrun.
    destruct (mapM (conform_one target.1 target.2) rs wb)
      as [[e3|xs] wc] eqn:Hconf.
    { injection Hrun as _ <-. rewrite <- Hb.
      eapply writes_nothing; [|exact Hconf].
      apply ww_mapM. intros. apply ww_conform_one. }
    exfalso.
    assert (Hc : fs wc = fs w).
    { rewrite <- Hb. eapply writes_nothing; [|exact Hconf].
      apply ww_mapM. intros. apply ww_conform_one. }
    assert (Hex : Forall (fun f => is_Some (fs wc !! f)) in_names).
    { rewrite Hc. apply Forall_forall. intros f Hf.
      apply list_elem_of_lookup in Hf as (i & Hi).
      destruct (Forall2_lookup_l _ _ _ _ _ Hl Hi) as (o & _ & b & Hb' & _).
      exists b. exact Hb'. }
    destruct (persist_all_ok os xs in_names
                (map (fun fname => fname_presuffix fname "_ras" cwd) in_names)
                wc Hex) as (wd & Hp).
    unfold bind in Hrun. rewrite Hp in Hrun. discriminate.
  - intros ->. reflexivity.
  - intros f Hin Hno.
    destruct (load_all_unreadable in_names f w Hin Hno)
      as (e & w' & Hrun & Hfs & Hcalls).
    exists e, w'. unfold ConformSeries_run, bind. rewrite Hrun. auto.
Qed.

(** X4.  Every call of the resampler a successful run makes is for an
    object of that run, onto the target shape of the series, with the
    default (continuous) interpolation and a 4x4 affine whose last row is
    0 0 0 1; and there are no more calls than input images. *)
Theorem conform_resampler_calls in_names cwd (w0 : world B) out_names w1
  (imgs : list (image V)) :
  ConformSeries_run in_names cwd w0 = (inr out_names, w1) ->
  Forall2 (stored w0) in_names imgs ->
  exists ts tz asked,
    target_grid (map canonical_form imgs) = inr (ts, tz) /\
    calls w1 = calls w0 ++ asked /\
    (length asked <= length in_names)%nat /\
    forall c, c ∈ asked ->
      exists id A,
        c = Resample (SrcObject id) (affine_rows A) (Some ts) Continuous /\
        (next_id w0 <= id)%nat /\
        affine_rows A !! 3%nat = Some [0; 0; 0; 1]%Q /\
        length (affine_rows A) = 4%nat.
Proof.
  intros Hrun Hs.
  destruct (ConformSeries_run_trace _ _ _ _ _ Hrun)
    as (origs & reos & finals & ts & tz & T).
  destruct (trace_values _ _ _ _ _ _ _ _ _ _ _ T Hs) as [Hvo Hvr].
  exists ts, tz, (flat_map (resample_call ts tz) reos).
  split; [rewrite <- Hvr; exact (tr_grid _ _ _ _ _ _ _ _ _ _ T)|].
  split; [exact (tr_calls _ _ _ _ _ _ _ _ _ _ T)|]. split.
  - rewrite (Forall2_length _ _ _ (tr_loaded _ _ _ _ _ _ _ _ _ _ T)),
      (Forall2_length _ _ _ (tr_reoriented _ _ _ _ _ _ _ _ _ _ T)).
    clear. induction reos as [|r reos IH]; simpl; [lia|].
    rewrite length_app.
    assert (length (resample_call ts tz r) <= 1)%nat; [|lia].
    unfold resample_call.
    destruct (decide_rescale tz (oval r)); simpl; [lia|].
    destruct (decide_resize ts (oval r)) as [|resize]; simpl; [lia|].
    destruct (_ || resize); simpl; [|lia].
    destruct (synth_target_affine _ _ _ _ _); simpl; lia.
  - intros c Hc.
    apply list_elem_of_In, in_flat_map in Hc as (r & Hr & Hc).
    apply list_elem_of_In in Hr. apply list_elem_of_In in Hc.
    assert (Hid : (next_id w0 <= oid r)%nat).
    { apply list_elem_of_lookup in Hr as (i & Hi).
      destruct (Forall2_lookup_r _ _ _ _ _
                  (tr_reoriented _ _ _ _ _ _ _ _ _ _ T) Hi)
        as (o & Ho & Hor).
      apply reoriented_id in Hor as [->|Hnew]; [|lia].
      rewrite (trace_object_id _ _ _ _ _ _ _ _ _ _ _ _ T Ho). lia. }
    unfold resample_call in Hc.
    destruct (decide_rescale tz (oval r)) as [|rescale];
      [inversion Hc|].
    destruct (decide_resize ts (oval r)) as [|resize]; [inversion Hc|].
    destruct (rescale || resize); [|inversion Hc].
    destruct (synth_target_affine _ _ _ _ _) as [|A]; [inversion Hc|].
    apply list_elem_of_singleton in Hc. exists (oid r), A.
    split; [exact Hc|]. split; [exact Hid|].
    unfold affine_rows. destruct (lin A) as [[a b] c'].
    destruct (trans A) as [[tx ty] tz']. split; reflexivity.
Qed.

End MoreConform.

(** ** The tolerance does not depend on the unit *)

Section Units.
Context {V B : Type} `{!Collaborators V B}.

Lemma Qabs_scale (k a b : Q) :
  (0 < k)%Q -> (Qabs (k * a - k * b) == k * Qabs (a - b))%Q.
Proof.
  intros Hk. assert (Hd : (k * a - k * b == k * (a - b))%Q) by ring.
  rewrite Hd, Qabs_Qmult, (Qabs_pos k); [reflexivity | lra].
Qed.

Lemma isclose_scale (k atol atol' a b : Q) :
  (0 < k)%Q -> (atol' == k * atol)%Q ->
  Np.isclose atol' (k * a) (k * b) = Np.isclose atol a b.
Proof.
  intros Hk Hatol. unfold Np.isclose. apply eq_true_iff_eq.
  rewrite !Qle_bool_iff, Hatol, (Qabs_scale k a b Hk).
  assert (Hb : (Qabs (k * b) == k * Qabs b)%Q)
    by (rewrite Qabs_Qmult, (Qabs_pos k); [reflexivity | lra]).
  rewrite Hb.
  assert (Hr : (k * atol + Np.rtol * (k * Qabs b)
                == k * (atol + Np.rtol * Qabs b))%Q) by ring.
  rewrite Hr. split; intros Hle.
  - apply (Qmult_le_l _ _ k Hk). exact Hle.
  - apply (Qmult_le_l _ _ k Hk). exact Hle.
Qed.

Lemma broadcast2_fmap {A A' C C' D} (f : A -> C -> D) (f' : A' -> C' -> D)
  (g : A -> A') (h : C -> C') (a : list A) (b : list C) :
  (forall x y, f' (g x) (h y) = f x y) ->
  Np.broadcast2 f' (map g a) (map h b) = Np.broadcast2 f a b.
Proof.
  intros Hf.
  assert (Hz : forall a b, zip_with f' (map g a) (map h b) = zip_with f a b).
  { clear a b. intros a. induction a as [|x a IH]; intros [|y b]; simpl;
      try reflexivity.
    rewrite Hf, IH. reflexivity. }
  assert (Hl : forall x l, map (f' (g x)) (map h l) = map (f x) l).
  { intros x l. induction l as [|y l IH]; simpl; [reflexivity|].
    rewrite Hf, IH. reflexivity. }
  assert (Hr : forall y l, map (fun x => f' x (h y)) (map g l)
                           = map (fun x => f x y) l).
  { intros y l. induction l as [|x l IH]; simpl; [reflexivity|].
    rewrite Hf, IH. reflexivity. }
  unfold Np.broadcast2. rewrite !length_map.
  destruct (length a =? length b)%nat; [rewrite Hz; reflexivity|].
  destruct a as [|x [|x' a]].
  - destruct b as [|y [|y' b]]; reflexivity.
  - simpl. rewrite Hl. reflexivity.
  - destruct b as [|y [|y' b]]; try reflexivity.
    simpl. rewrite !Hf, Hr. reflexivity.
Qed.

Lemma allclose_scale (k atol atol' : Q) (a b : list Q) :
  (0 < k)%Q -> (atol' == k * atol)%Q ->
  Np.allclose (map (Qmult k) a) (map (Qmult k) b) atol'
  = Np.allclose a b atol.
Proof.
  intros Hk Hatol. unfold Np.allclose.
  rewrite (broadcast2_fmap (Np.isclose atol) (Np.isclose atol')
             (Qmult k) (Qmult k)); [reflexivity|].
  intros x y. apply isclose_scale; assumption.
Qed.

(** X7.  The three tolerances of the table are one tolerance, 0.05 mm,
    written in three units: an image given in meters is rescaled exactly
    when the same image given in millimeters (spacings and target a
    thousand times larger) is, and likewise from millimeters to microns. *)
Theorem rescale_decision_is_unit_free (img : image V) (tz : list Q) :
  (hdr_xyz_units (header img) = "meter" ->
   decide_rescale (map (Qmult 1000) tz) (in_smaller_unit 1000 "mm" img)
   = decide_rescale tz img) /\
  (hdr_xyz_units (header img) = "mm" ->
   decide_rescale (map (Qmult 1000) tz) (in_smaller_unit 1000 "micron" img)
   = decide_rescale tz img).
Proof.
  split; intros Hunit; unfold decide_rescale, in_smaller_unit, get_zooms;
    cbn [header hdr_xyz_units hdr_zooms]; rewrite Hunit;
    rewrite <- fmap_take.
  - change (xyz_atol "mm") with (inr (B:=Q) (A:=exn) 0.05%Q).
    change (xyz_atol "meter") with (inr (B:=Q) (A:=exn) 5e-5%Q).
    cbn [rbind].
    rewrite (allclose_scale 1000 5e-5 0.05); reflexivity.
  - change (xyz_atol "micron") with (inr (B:=Q) (A:=exn) 50%Q).
    change (xyz_atol "mm") with (inr (B:=Q) (A:=exn) 0.05%Q).
    cbn [rbind].
    rewrite (allclose_scale 1000 0.05 50); reflexivity.
Qed.

End Units.

(** ** The small functions around the two cores *)

Section Small.
Context {V B : Type} `{!Collaborators V B}.

(** X8.  However [_gen_reference] (and with it
    [GenerateSamplingReference]) ends, the only file it can have changed is
    its output file; when it raises, no file has changed at all; when it
    returns, it returns the output name and that file holds a saved image;
    and when the moving image cannot be read it raises before the
    resampler is asked for anything, leaving the world as it was. *)
Theorem gen_reference_writes_one_file fixed_image moving_image out_file
  (w : world B) r w' :
  _gen_reference (V:=V) fixed_image moving_image out_file w = (r, w') ->
  let out := default (genfname fixed_image "reference") out_file in
  (forall g, g <> out -> fs w' !! g = fs w !! g) /\
  (forall e, r = inl e -> fs w' = fs w) /\
  (forall name, r = inr name ->
     name = out /\ exists ref : image V, fs w' !! out = Some (nb_save ref)) /\
  ((forall img : image V, ~ stored w moving_image img) ->
     w' = w /\ exists e, r = inl e).
Proof.
  intros Hrun out.
  assert (Hout : match out_file with
                 | Some f => f
                 | None => genfname fixed_image "reference"
                 end = out) by (destruct out_file; reflexivity).
  unfold _gen_reference in Hrun. rewrite Hout in Hrun. unfold bind in Hrun.
  destruct (nb_load_file_cases moving_image w)
    as [(mov & Hmov & Hl1)|(e & Hl1)]; rewrite Hl1 in Hrun.
  2:{ injection Hrun as <- <-.
      split; [reflexivity|split; [reflexivity|split; [discriminate|]]].
      intros _. split; [reflexivity|eexists; reflexivity]. }
  unfold record in Hrun. cbn [oval] in Hrun.
  match type of Hrun with
  | context [nb_load_file fixed_image ?w1] =>
      destruct (nb_load_file_cases fixed_image w1)
        as [(fx & Hfx & Hl2)|(e & Hl2)]; rewrite Hl2 in Hrun
  end.
  2:{ injection Hrun as <- <-. cbn [fs].
      split; [reflexivity|split; [reflexivity|split; [discriminate|]]].
      intros Hno. exfalso. eapply Hno; eassumption. }
  cbn [oval fs next_id calls] in Hrun. unfold lift in Hrun.
  destruct (resample_img fx _ None Nearest) as [e|ref] eqn:Hres.
  - injection Hrun as <- <-. cbn [fs].
    split; [reflexivity|split; [reflexivity|split; [discriminate|]]].
    intros Hno. exfalso. eapply Hno; eassumption.
  - unfold write_file, ret in Hrun. cbn [fs next_id calls] in Hrun.
    injection Hrun as <- <-. cbn [fs]. split; [|split; [|split]].
    + intros g Hg. apply lookup_insert_ne. congruence.
    + discriminate.
    + intros name [= <-]. split; [reflexivity|].
      exists ref. apply lookup_insert_eq.
    + intros Hno. exfalso. eapply Hno; eassumption.
Qed.



(** X9.  In the one-file branch of [IntraModalMerge], only an image with
    exactly five axes is checked or rewritten.  For any other readable
    image, whatever the number of its axes, no file is written and nothing
    is raised: with fewer than four axes left after squeezing the file
    itself is returned as both outputs, otherwise it goes on to motion
    correction; the file has been loaded twice. *)
Theorem merge_single_checks_five_axes_only in_file (w : world B)
  (img : image V) :
  stored w in_file img ->
  ndim (dataobj img) <> 5%nat ->
  IntraModalMerge_single in_file w =
    (inr (if (ndim (squeeze (dataobj img)) <? 4)%nat
          then ReturnedAsIs in_file in_file
          else ToMotionCorrection in_file),
     World (fs w) (S (S (next_id w))) (calls w)).
Proof.
  intros Hst Hnd. unfold IntraModalMerge_single, bind.
  rewrite (nb_load_file_stored _ _ _ Hst). cbn [oval].
  apply Nat.eqb_neq in Hnd. rewrite Hnd. unfold ret at 1.
  assert (Hst' : stored (World (fs w) (S (next_id w)) (calls w)) in_file img)
    by exact Hst.
  rewrite (nb_load_file_stored _ _ _ Hst'). cbn [oval fs next_id calls].
  destruct (ndim (squeeze (dataobj img)) <? 4)%nat; reflexivity.
Qed.

(** X10.  [reorient] of a readable file returns the output name (the one
    given, or the input's name with the suffix ras) and leaves there the
    saved closest-canonical form of the image, written anew even when the
    image was canonical already; no other file changes and the resampler
    is not called.  If the file cannot be read it raises and nothing has
    changed. *)
Theorem reorient_outcome in_file out_file (w : world B) :
  let out := default (genfname in_file "ras") out_file in
  (forall img : image V, stored w in_file img ->
     exists w', reorient in_file out_file w = (inr out, w') /\
       fs w' = <[out := nb_save (canonical_form img)]> (fs w) /\
       calls w' = calls w) /\
  ((forall img : image V, ~ stored w in_file img) ->
     exists e, reorient (V:=V) in_file out_file w = (inl e, w)).
Proof.
  intros out.
  assert (Hout : match out_file with
                 | Some f => f
                 | None => genfname in_file "ras"
                 end = out) by (destruct out_file; reflexivity).
  split.
  - intros img Hst. destruct (reorient_stored in_file out_file w img Hst)
      as (n & Hrun).
    eexists. split; [exact Hrun|]. split; reflexivity.
  - intros Hno. destruct (nb_load_file_missing in_file w Hno) as (e & He).
    exists e. unfold reorient, bind. rewrite He. reflexivity.
Qed.

End Small.

(** ** np.unique and the two values read off it *)

Lemma insert_sorted_elem x l y :
  y ∈ Arr.insert_sorted x l -> y = x \/ y ∈ l.
Proof.
  induction l as [|a l IH]; simpl.
  - intros Hy. apply list_elem_of_singleton in Hy. left. exact Hy.
  - destruct (x ?= a)%Q.
    + intros Hy. right. exact Hy.
    + intros Hy. apply elem_of_cons in Hy as [->|Hy]; [left; reflexivity|].
      right. exact Hy.
    + intros Hy. apply elem_of_cons in Hy as [->|Hy]; [right; left|].
      destruct (IH Hy) as [->|Hin]; [left; reflexivity|right; right; exact Hin].
Qed.

Lemma insert_sorted_keeps x l y :
  y ∈ l -> y ∈ Arr.insert_sorted x l.
Proof.
  induction l as [|a l IH]; simpl; intros Hy.
  - inversion Hy.
  - destruct (x ?= a)%Q; [exact Hy|right; exact Hy|].
    apply elem_of_cons in Hy as [->|Hy]; [left|right; apply IH; exact Hy].
Qed.

Lemma insert_sorted_has x l :
  exists y, y ∈ Arr.insert_sorted x l /\ (y == x)%Q.
Proof.
  induction l as [|a l IH]; simpl.
  - exists x. split; [left|reflexivity].
  - destruct (x ?= a)%Q eqn:Hc.
    + exists a. split; [left|]. symmetry. apply Qeq_alt. exact Hc.
    + exists x. split; [left|reflexivity].
    + destruct IH as (y & Hy & Heq). exists y. split; [right; exact Hy|exact Heq].
Qed.

Lemma insert_sorted_sorted x l :
  StronglySorted Qlt l -> StronglySorted Qlt (Arr.insert_sorted x l).
Proof.
  induction 1 as [|a l Hs IH Ha]; simpl.
  - constructor; constructor.
  - destruct (x ?= a)%Q eqn:Hc.
    + constructor; assumption.
    + apply Qlt_alt in Hc. constructor; [constructor; assumption|].
      constructor; [exact Hc|].
      eapply Forall_impl; [exact Ha|]. intros y Hy. simpl in Hy.
      eapply Qlt_trans; eassumption.
    + apply Qgt_alt in Hc. constructor; [exact IH|].
      apply Forall_forall. intros y Hy.
      destruct (insert_sorted_elem _ _ _ Hy) as [->|Hin]; [exact Hc|].
      rewrite Forall_forall in Ha. apply Ha. exact Hin.
Qed.

Lemma unique_sorted data : StronglySorted Qlt (Arr.unique data).
Proof.
  induction data as [|x data IH]; simpl; [constructor|].
  apply insert_sorted_sorted. exact IH.
Qed.

Lemma unique_elem data y : y ∈ Arr.unique data -> y ∈ data.
Proof.
  induction data as [|x data IH]; simpl; intros Hy; [exact Hy|].
  destruct (insert_sorted_elem _ _ _ Hy) as [->|Hin]; [left|right; auto].
Qed.

Lemma unique_covers data x :
  x ∈ data -> exists y, y ∈ Arr.unique data /\ (y == x)%Q.
Proof.
  induction data as [|a data IH]; simpl; intros Hx; [inversion Hx|].
  apply elem_of_cons in Hx as [->|Hx]; [apply insert_sorted_has|].
  destruct (IH Hx) as (y & Hy & Heq). exists y.
  split; [apply insert_sorted_keeps; exact Hy|exact Heq].
Qed.

Lemma sorted_below_last l b :
  StronglySorted Qlt l -> last l = Some b ->
  b ∈ l /\ forall y, y ∈ l -> (y <= b)%Q.
Proof.
  induction 1 as [|a l Hs IH Ha]; [discriminate|].
  destruct l as [|a' l'].
  - intros [= <-]. split; [left|]. intros y Hy.
    apply list_elem_of_singleton in Hy. subst y. apply Qle_refl.
  - intros Hl. change (last (a' :: l') = Some b) in Hl.
    destruct (IH Hl) as [Hb Hle]. split; [right; exact Hb|].
    intros y Hy. apply elem_of_cons in Hy as [->|Hy]; [|apply Hle; exact Hy].
    rewrite Forall_forall in Ha. apply Qlt_le_weak. apply Ha. exact Hb.
Qed.

(** The two values read off [np.unique] are the second smallest and the
    largest value of the data. *)
Lemma second_and_last_unique data a b :
  Arr.second_and_last (Arr.unique data) = inr (a, b) ->
  is_second_smallest data a /\ is_largest data b /\ (a <= b)%Q.
Proof.
  unfold Arr.second_and_last. intros H.
  pose proof (unique_sorted data) as Hs.
  destruct (Arr.unique data) as [|u0 [|u1 rest]] eqn:Hu; try discriminate.
  cbn [lookup list_lookup] in H.
  destruct (last (u0 :: u1 :: rest)) as [b'|] eqn:Hl; [|discriminate].
  injection H as <- <-.
  destruct (sorted_below_last _ _ Hs Hl) as [Hb Hle].
  inversion Hs as [|? ? Hs' H0]; subst.
  inversion Hs' as [|? ? Hs'' H1]; subst.
  assert (Hin : forall y, y ∈ u0 :: u1 :: rest -> y ∈ data)
    by (intros y Hy; apply unique_elem; rewrite Hu; exact Hy).
  split; [|split].
  - split; [apply Hin; right; left|].
    exists u0. split; [apply Hin; left|].
    split; [inversion H0; assumption|].
    intros y Hy. destruct (unique_covers _ _ Hy) as (y' & Hy' & Heq).
    rewrite Hu in Hy'. apply elem_of_cons in Hy' as [->|Hy'].
    + left. symmetry. exact Heq.
    + right. rewrite <- Heq. apply elem_of_cons in Hy' as [->|Hy'].
      * apply Qle_refl.
      * rewrite Forall_forall in H1. apply Qlt_le_weak. apply H1. exact Hy'.
  - split; [apply Hin; exact Hb|].
    intros y Hy. destruct (unique_covers _ _ Hy) as (y' & Hy' & Heq).
    rewrite Hu in Hy'. rewrite <- Heq. apply Hle. exact Hy'.
  - apply Hle. right; left.
Qed.

(** They cannot be read exactly when the data hold fewer than two
    distinct values. *)
Lemma second_and_last_error data :
  constant data <-> Arr.second_and_last (Arr.unique data) = inl IndexError.
Proof.
  unfold Arr.second_and_last. pose proof (unique_sorted data) as Hs.
  destruct (Arr.unique data) as [|u0 [|u1 rest]] eqn:Hu.
  - split; [reflexivity|]. intros _ x y Hx _.
    destruct (unique_covers _ _ Hx) as (x' & Hx' & _). rewrite Hu in Hx'.
    inversion Hx'.
  - split; [reflexivity|]. intros _ x y Hx Hy.
    destruct (unique_covers _ _ Hx) as (x' & Hx' & Hex).
    destruct (unique_covers _ _ Hy) as (y' & Hy' & Hey).
    rewrite Hu in Hx', Hy'.
    apply list_elem_of_singleton in Hx', Hy'. subst.
    rewrite <- Hex, <- Hey. reflexivity.
  - cbn [lookup list_lookup].
    destruct (last (u0 :: u1 :: rest)) as [b|] eqn:Hl.
    + split; [|discriminate]. intros Hc. exfalso.
      assert (H0 : u0 ∈ data) by (apply unique_elem; rewrite Hu; left).
      assert (H1 : u1 ∈ data) by (apply unique_elem; rewrite Hu; right; left).
      inversion Hs as [|? ? _ Hlt]; subst. inversion Hlt as [|? ? Hlt0 _]; subst.
      specialize (Hc _ _ H0 H1). rewrite Hc in Hlt0.
      exact (Qlt_irrefl _ Hlt0).
    + exfalso. clear -Hl. revert Hl. generalize (u1 :: rest) as l, u0 as a.
      induction l as [|a' l IH]; intros a; [discriminate|].
      exact (IH a').
Qed.

(** ** InvertT1w *)

Lemma in_mask_false v : in_mask v = false <-> (v <= 0)%Q.
Proof.
  unfold in_mask. destruct (Qle_bool v 0) eqn:E; simpl.
  - apply Qle_bool_iff in E. split; [intros _; exact E|reflexivity].
  - split; [discriminate|]. intros H. apply Qle_bool_iff in H. congruence.
Qed.

Section Invert.
Context {B : Type} `{!Collaborators (list Q) B}.

(** X11.  [InvertT1w] needs two distinct values in each image.  If all
    voxels of the T1w image, or all voxels of the EPI reference, hold one
    and the same value (or there are no voxels), the run raises IndexError
    after loading both, without having written anything.  If the T1w image
    holds exactly two values (a binary mask, say), its second smallest and
    its largest value coincide and the scale factor is a division by
    zero. *)
Theorem invert_needs_distinct_values in_file epi_ref cwd (w : world B)
  t1 epi :
  stored w in_file t1 -> stored w epi_ref epi ->
  (constant (voxels t1) \/ constant (voxels epi) ->
   InvertT1w_run in_file epi_ref cwd w =
     (inl IndexError, World (fs w) (S (S (next_id w))) (calls w))) /\
  (forall a b, (a < b)%Q -> a ∈ voxels t1 -> b ∈ voxels t1 ->
     (forall v, v ∈ voxels t1 -> (v == a)%Q \/ (v == b)%Q) ->
     ~ constant (voxels epi) ->
     fst (InvertT1w_run in_file epi_ref cwd w) = inl NotFinite).
Proof.
  intros H1 H2.
  assert (H2' : stored (World (fs w) (S (next_id w)) (calls w)) epi_ref epi)
    by exact H2.
  assert (Herr : forall data e,
            Arr.second_and_last (Arr.unique data) = inl e -> constant data).
  { intros data e He. apply second_and_last_error.
    unfold Arr.second_and_last in He |- *.
    destruct (Arr.unique data) as [|u0 [|u1 rest]];
      cbn [lookup list_lookup] in He |- *; try reflexivity.
    destruct (last (u0 :: u1 :: rest)); [discriminate|reflexivity]. }
  destruct (InvertT1w_run in_file epi_ref cwd w) as [r w'] eqn:Hrun.
  unfold InvertT1w_run in Hrun. unfold xbind at 1 2, of_M at 1 2 in Hrun.
  rewrite (nb_load_file_stored _ _ _ H1) in Hrun.
  rewrite (nb_load_file_stored _ _ _ H2') in Hrun.
  cbn [oval fs next_id calls] in Hrun.
  unfold xbind at 1, xlift at 1 in Hrun.
  destruct (Arr.second_and_last (Arr.unique (arr_buf (dataobj t1))))
    as [e|[t1_min t1_max]] eqn:Ht.
  { injection Hrun as <- <-. pose proof (Herr _ _ Ht) as Hc.
    apply second_and_last_error in Hc. rewrite Hc in Ht.
    injection Ht as <-. split; [reflexivity|].
    intros a b Hab Ha Hb _ _. exfalso.
    apply second_and_last_error in Hc.
    specialize (Hc a b Ha Hb). rewrite Hc in Hab.
    exact (Qlt_irrefl _ Hab). }
  unfold xbind at 1, xlift at 1 in Hrun.
  destruct (Arr.second_and_last (Arr.unique (arr_buf (dataobj epi))))
    as [e|[lo hi]] eqn:He.
  { injection Hrun as <- <-. pose proof (Herr _ _ He) as Hc.
    pose proof Hc as Hc'.
    apply second_and_last_error in Hc. rewrite Hc in He.
    injection He as <-. split; [reflexivity|].
    intros a b _ _ _ _ Hepi. exfalso. exact (Hepi Hc'). }
  split.
  - intros [Hc|Hc]; apply second_and_last_error in Hc; unfold voxels in Hc;
      congruence.
  - intros a b Hab Ha Hb Hall _.
    apply second_and_last_unique in Ht
      as ((Hmin & m & Hm & Hlt & _) & (Hmax & Hle) & _).
    assert (Heq : (t1_max == t1_min)%Q).
    { pose proof (Hle _ Hb) as Hbm.
      destruct (Hall _ Hmin) as [E1|E1]; destruct (Hall _ Hm) as [E2|E2];
        destruct (Hall _ Hmax) as [E3|E3]; lra. }
    apply Qeq_bool_iff in Heq. rewrite Heq in Hrun.
    injection Hrun as <- _. reflexivity.
Qed.

(** X12.  When the T1w image holds three different values at least and
    the EPI reference two, so that [InvertT1w] has a scale factor and
    returns, the file named after the input with the suffix _inv, in the
    working directory, is the only file that changed; it is saved from an
    image with the shape, affine and header of the T1w image, with one
    voxel for each voxel of the T1w image, and a voxel that is not
    positive in the T1w image, being outside the mask, is 0 in it.  The
    resampler is not called. *)
Theorem invert_output in_file epi_ref cwd (w : world B) t1 epi out w' :
  stored w in_file t1 -> stored w epi_ref epi ->
  InvertT1w_run in_file epi_ref cwd w = (inr out, w') ->
  out = fname_presuffix in_file "_inv" cwd /\
  calls w' = calls w /\
  (exists a b c, a ∈ voxels t1 /\ b ∈ voxels t1 /\ c ∈ voxels t1 /\
                 (a < b)%Q /\ (b < c)%Q) /\
  ~ constant (voxels epi) /\
  exists inv,
    fs w' = <[out := nb_save inv]> (fs w) /\
    img_shape inv = img_shape t1 /\ affine inv = affine t1 /\
    header inv = header t1 /\
    Forall2 (fun v v' => (v <= 0)%Q -> (v' == 0)%Q) (voxels t1) (voxels inv).
Proof.
  intros H1 H2 Hrun.
  assert (H2' : stored (World (fs w) (S (next_id w)) (calls w)) epi_ref epi)
    by exact H2.
  unfold InvertT1w_run in Hrun. unfold xbind at 1 2, of_M at 1 2 in Hrun.
  rewrite (nb_load_file_stored _ _ _ H1) in Hrun.
  rewrite (nb_load_file_stored _ _ _ H2') in Hrun.
  cbn [oval fs next_id calls] in Hrun.
  unfold xbind at 1, xlift at 1 in Hrun.
  destruct (Arr.second_and_last (Arr.unique (arr_buf (dataobj t1))))
    as [e|[t1_min t1_max]] eqn:Ht; [discriminate|].
  unfold xbind at 1, xlift at 1 in Hrun.
  destruct (Arr.second_and_last (Arr.unique (arr_buf (dataobj epi))))
    as [e|[lo hi]] eqn:He; [discriminate|].
  destruct (Qeq_bool t1_max t1_min) eqn:Hq; [discriminate|].
  unfold xbind, of_M, new_object, write_file, xret in Hrun.
  cbn [oval fs next_id calls] in Hrun. injection Hrun as <- <-.
  split; [reflexivity|]. split; [reflexivity|].
  assert (Hepi : ~ constant (voxels epi)).
  { intros Hc. apply second_and_last_error in Hc. unfold voxels in Hc.
    congruence. }
  apply second_and_last_unique in Ht
    as ((Hmin & m & Hm & Hlt & _) & (Hmax & _) & Hle).
  assert (Hd : (t1_min < t1_max)%Q).
  { apply Qle_lteq in Hle as [Hlt'|Heq]; [exact Hlt'|].
    exfalso. symmetry in Heq. apply Qeq_bool_iff in Heq. congruence. }
  split; [exists m, t1_min, t1_max; auto|]. split; [exact Hepi|].
  eexists. cbn [fs].
  split; [reflexivity|]. split; [reflexivity|]. split; [reflexivity|].
  split; [reflexivity|].
  unfold voxels. cbn [dataobj arr_buf]. apply Forall2_fmap_r.
  apply Forall_Forall2_diag. apply Forall_forall. intros v _ Hv.
  unfold invert_voxel. apply in_mask_false in Hv. rewrite Hv. ring.
Qed.

End Invert.

(** ** extract_wm *)

Lemma wm_mask_binary wm_label data :
  Forall2 (fun v m => ((v == wm_label)%Q -> m = 1%Q) /\
                      (~ (v == wm_label)%Q -> m = 0%Q))
    data (wm_mask wm_label data).
Proof.
  unfold wm_mask. apply Forall2_fmap_r. apply Forall_Forall2_diag.
  apply Forall_forall. intros v _. unfold compose.
  destruct (Qeq_bool v wm_label) eqn:E.
  - apply Qeq_bool_iff in E. split; [reflexivity|]. intros H. contradiction.
  - split; [|reflexivity]. intros H. apply Qeq_bool_iff in H. congruence.
Qed.

Lemma wm_mask_again wm_label data :
  wm_mask 1 (wm_mask wm_label data) = wm_mask wm_label data.
Proof.
  unfold wm_mask. rewrite map_map. apply map_ext. intros v.
  destruct (Qeq_bool v wm_label); reflexivity.
Qed.

Section ExtractWm.
Context {B : Type} `{!Collaborators (list Q) B} `{!Paths}.

Lemma extract_wm_stored in_seg wm_label (w : world B) seg :
  stored w in_seg seg ->
  extract_wm in_seg wm_label w =
    (inr (abspath "wm.nii.gz"),
     World (<[abspath "wm.nii.gz" :=
               nb_save (Image (Array (img_shape seg)
                                 (wm_mask wm_label (voxels seg)))
                          (affine seg) (header seg))]> (fs w))
       (S (S (next_id w))) (calls w)).
Proof.
  intros Hst. unfold extract_wm, bind.
  rewrite (nb_load_file_stored _ _ _ Hst). reflexivity.
Qed.

(** X13.  [extract_wm] of a readable segmentation returns the absolute
    name of wm.nii.gz and leaves there, changing no other file, an image
    with the shape, affine and header of the segmentation whose voxels are
    1 where the segmentation holds the label and 0 everywhere else.  If
    the segmentation cannot be read it raises and nothing has changed. *)
Theorem extract_wm_outcome in_seg wm_label (w : world B) :
  let out := abspath "wm.nii.gz" in
  (forall seg, stored w in_seg seg ->
     exists mask w',
       extract_wm in_seg wm_label w = (inr out, w') /\
       fs w' = <[out := nb_save mask]> (fs w) /\ calls w' = calls w /\
       img_shape mask = img_shape seg /\ affine mask = affine seg /\
       header mask = header seg /\
       Forall2 (fun v m => ((v == wm_label)%Q -> m = 1%Q) /\
                           (~ (v == wm_label)%Q -> m = 0%Q))
         (voxels seg) (voxels mask)) /\
  ((forall seg, ~ stored w in_seg seg) ->
     exists e, extract_wm in_seg wm_label w = (inl e, w)).
Proof.
  intros out. split.
  - intros seg Hst. eexists _, _.
    split; [apply extract_wm_stored; exact Hst|]. cbn [fs calls].
    split; [reflexivity|]. split; [reflexivity|].
    split; [reflexivity|]. split; [reflexivity|]. split; [reflexivity|].
    apply wm_mask_binary.
  - intros Hno. destruct (nb_load_file_missing in_seg w Hno) as (e & He).
    exists e. unfold extract_wm, bind. rewrite He. reflexivity.
Qed.

(** X14.  The name of the output of [extract_wm] does not depend on its
    input: of two successful calls in a row the second returns the same
    name as the first and replaces what the first one wrote, the file
    then holding the mask of the second segmentation; every other file is
    as before the first call. *)
Theorem extract_wm_overwrites seg1 l1 seg2 l2 (w : world B) n1 w1 n2 w2 :
  extract_wm seg1 l1 w = (inr n1, w1) ->
  extract_wm seg2 l2 w1 = (inr n2, w2) ->
  n2 = n1 /\
  (forall g, g <> n1 -> fs w2 !! g = fs w !! g) /\
  exists s2 mask,
    stored w1 seg2 s2 /\
    fs w2 !! n1 = Some (nb_save mask) /\
    voxels mask = wm_mask l2 (voxels s2).
Proof.
  intros R1 R2.
  destruct (nb_load_file_cases seg1 w) as [(s1 & Hs1 & _)|(e & He)].
  2:{ unfold extract_wm, bind in R1. rewrite He in R1. discriminate. }
  destruct (nb_load_file_cases seg2 w1) as [(s2 & Hs2 & _)|(e & He)].
  2:{ unfold extract_wm, bind in R2. rewrite He in R2. discriminate. }
  rewrite (extract_wm_stored _ _ _ _ Hs1) in R1. injection R1 as <- <-.
  rewrite (extract_wm_stored _ _ _ _ Hs2) in R2. injection R2 as <- <-.
  cbn [fs]. split; [reflexivity|]. split.
  - intros g Hg. rewrite !lookup_insert_ne by congruence. reflexivity.
  - eexists s2, _. split; [exact Hs2|].
    split; [apply lookup_insert_eq|reflexivity].
Qed.

(** X15.  A mask made by [extract_wm] is a fixed point: where files read
    back as they were saved, extracting label 1 from the output of
    [extract_wm] writes the very same content again. *)
Theorem extract_wm_of_mask in_seg wm_label (w : world B) out w1 :
  (forall img : image (list Q), nb_load (nb_save img) = inr img) ->
  extract_wm in_seg wm_label w = (inr out, w1) ->
  exists w2,
    extract_wm out 1 w1 = (inr out, w2) /\ fs w2 = fs w1.
Proof.
  intros Hrt R1.
  destruct (nb_load_file_cases in_seg w) as [(seg & Hs & _)|(e & He)].
  2:{ unfold extract_wm, bind in R1. rewrite He in R1. discriminate. }
  rewrite (extract_wm_stored _ _ _ _ Hs) in R1. injection R1 as <- <-.
  eexists. split.
  - apply extract_wm_stored. eexists. cbn [fs].
    split; [apply lookup_insert_eq|apply Hrt].
  - cbn [fs img_shape dataobj arr_shape affine header voxels arr_buf].
    rewrite wm_mask_again. rewrite insert_insert_eq. reflexivity.
Qed.

End ExtractWm.

(** ** _flatten_split_merge *)

Section Splitting.
Context {V B : Type} `{!Collaborators V B} `{!Funcs V} `{!Paths}.

Lemma load_volumes_run fname files n c (vols : list (image V)) :
  splits_into (World files n c) fname vols ->
  load_volumes fname (World files n c) =
    (inr vols, World (B:=B) files (S n) c).
Proof.
  intros (img & Hst & Hv). unfold load_volumes, bind.
  rewrite (nb_load_file_stored _ _ _ Hst). cbn [oval fs next_id calls].
  unfold lift. rewrite Hv. reflexivity.
Qed.

Lemma load_all_volumes in_files : forall per_file files n c,
  Forall2 (splits_into (World files n c)) in_files per_file ->
  mapM load_volumes in_files (World files n c) =
    (inr per_file, World (B:=B) files (n + length in_files) c).
Proof.
  induction in_files as [|f in_files IH]; intros per_file files n c Hall.
  - inversion Hall; subst. simpl. unfold ret. rewrite Nat.add_0_r.
    reflexivity.
  - inversion Hall as [|? vols ? rest Hf Hrest]; subst.
    cbn [mapM]. unfold bind at 1. rewrite (load_volumes_run _ _ _ _ _ Hf).
    unfold bind at 1. rewrite (IH rest files (S n) c).
    + unfold ret. cbn [length]. rewrite Nat.add_succ_r. reflexivity.
    + eapply Forall2_impl; [exact Hrest|]. intros x y Hxy. exact Hxy.
Qed.

Lemma write_split_run splitname (vols : list (image V)) :
  forall i names files n c,
  split_names splitname i (length vols) names ->
  write_split splitname i vols (World files n c) =
    (inr names, World (B:=B) (save_each names vols files) n c).
Proof.
  induction vols as [|v vols IH]; intros i names files n c Hn.
  - inversion Hn; subst. reflexivity.
  - unfold split_names in Hn. cbn [length seq] in Hn.
    inversion Hn as [|? name ? names' Hp Hrest]; subst.
    cbn [write_split]. unfold xbind at 1, xlift at 1. rewrite Hp.
    unfold xbind at 1, of_M at 1, write_file at 1. cbn [fs next_id calls].
    unfold xbind at 1. rewrite (IH (S i) names' _ n c Hrest).
    reflexivity.
Qed.

Lemma save_each_other (names : list string) : forall (imgs : list (image V))
  (files : gmap string B) g,
  g ∉ names -> save_each names imgs files !! g = files !! g.
Proof.
  induction names as [|name names IH]; intros imgs files g Hg;
    [reflexivity|].
  destruct imgs as [|v imgs]; [reflexivity|].
  unfold save_each. cbn [zip zip_with foldl fst snd].
  change (save_each names imgs (<[name := nb_save v]> files) !! g
          = files !! g).
  rewrite IH by (intros Hin; apply Hg; right; exact Hin).
  apply lookup_insert_ne. intros ->. apply Hg. left.
Qed.

Lemma save_each_holds (names : list string) : forall (imgs : list (image V))
  (files : gmap string B) i name v,
  NoDup names -> names !! i = Some name -> imgs !! i = Some v ->
  save_each names imgs files !! name = Some (nb_save v).
Proof.
  induction names as [|name0 names IH]; intros imgs files i name v Hnd Hi Hv;
    [discriminate|].
  destruct imgs as [|v0 imgs]; [discriminate|].
  unfold save_each. cbn [zip zip_with foldl fst snd].
  change (save_each names imgs (<[name0 := nb_save v0]> files) !! name
          = Some (nb_save v)).
  inversion Hnd as [|? ? Hnotin Hnd']; subst.
  destruct i as [|i].
  - injection Hi as <-. injection Hv as <-.
    rewrite save_each_other by exact Hnotin. apply lookup_insert_eq.
  - eapply IH; eassumption.
Qed.

(** X16.  [_flatten_split_merge] has nothing to do for a single volume:
    when the readable input files hold one volume in total, it returns
    the first file as the merged file and the input list as the split
    list, and writes nothing.  Given no file at all it raises
    IndexError. *)
Theorem flatten_single_volume (w : world B) :
  _flatten_split_merge (V:=V) [] w = (inl IndexError, w) /\
  forall in_files per_file,
    Forall2 (splits_into w) in_files per_file ->
    length (concat per_file) = 1%nat ->
    exists first,
      head in_files = Some first /\
      _flatten_split_merge in_files w =
        (inr (first, in_files),
         World (fs w) (next_id w + length in_files) (calls w)).
Proof.
  split; [reflexivity|].
  intros in_files per_file Hall Hone. destruct w as [files n c].
  destruct in_files as [|first rest].
  { inversion Hall; subst. discriminate. }
  exists first. split; [reflexivity|].
  unfold _flatten_split_merge, xbind at 1, of_M.
  rewrite (load_all_volumes _ _ _ _ _ Hall). rewrite Hone. reflexivity.
Qed.

(** X17.  When the readable input files hold a number of volumes that is
    neither one nor the number of files, every volume is saved under the
    split name with its index, in order, and the split list is the list
    of those names.  With one input file that file itself is returned as
    the merged file and nothing else is written; with more, the
    concatenation of all volumes is saved under the first file's name
    with the suffix merged.  If the split names are distinct (and differ
    from the merged name), each holds its volume afterwards. *)
Theorem flatten_splits (w : world B) first rest per_file names :
  let in_files := first :: rest in
  let all_nii := concat per_file in
  let merged := genfname first "merged" in
  let after_split := save_each names all_nii (fs w) in
  let done files := World files (next_id w + length in_files) (calls w) in
  Forall2 (splits_into w) in_files per_file ->
  length all_nii <> 1%nat ->
  length all_nii <> length in_files ->
  split_names (genfname first "split%04d") 0 (length all_nii) names ->
  (rest = [] ->
     _flatten_split_merge in_files w =
       (inr (first, names), done after_split)) /\
  (rest <> [] -> forall series,
     concat_images all_nii = inr series ->
     _flatten_split_merge in_files w =
       (inr (merged, names),
        done (<[merged := nb_save series]> after_split))) /\
  (NoDup names -> forall i name v,
     names !! i = Some name -> all_nii !! i = Some v ->
     after_split !! name = Some (nb_save v) /\
     (name <> merged ->
      forall series,
        <[merged := nb_save series]> after_split !! name
          = Some (nb_save v))).
Proof.
  intros in_files all_nii merged after_split done Hall H1 Hn Hnames.
  destruct w as [files n c]. cbn [fs next_id calls] in *.
  apply Nat.eqb_neq in H1, Hn.
  assert (Hstart : forall k : list (list (image V)) -> X B (string * list string),
    xbind (of_M (mapM load_volumes in_files)) k (World files n c) =
    k per_file (World files (n + length in_files) c)).
  { intros k. unfold xbind, of_M.
    rewrite (load_all_volumes _ _ _ _ _ Hall). reflexivity. }
  split; [|split].
  - intros ->. unfold _flatten_split_merge. rewrite Hstart.
    fold all_nii. rewrite H1. change (length in_files) with 1%nat in Hn |- *.
    rewrite Hn. unfold xbind, xlift, first_of, xret. unfold in_files.
    rewrite (write_split_run _ _ _ _ _ _ _ Hnames). reflexivity.
  - intros Hrest series Hcat. unfold _flatten_split_merge. rewrite Hstart.
    fold all_nii. rewrite H1, Hn.
    assert (Hlen : (length in_files =? 1)%nat = false)
      by (unfold in_files; destruct rest; [contradiction|reflexivity]).
    rewrite Hlen. unfold xbind, xlift, first_of, xret, of_M.
    unfold in_files.
    rewrite (write_split_run _ _ _ _ _ _ _ Hnames). rewrite Hcat.
    reflexivity.
  - intros Hnd i name v Hi Hv.
    assert (Hheld : after_split !! name = Some (nb_save v))
      by (eapply save_each_holds; eassumption).
    split; [exact Hheld|]. intros Hne series.
    rewrite lookup_insert_ne by congruence. exact Hheld.
Qed.

(** X18.  When every one of two or more readable input files holds a
    single volume, no split file is written: the split list is the input
    list, and the only file written is the merged one, which holds the
    concatenation of the volumes in input order.  If the volumes cannot
    be concatenated, the error is raised and no file has changed. *)
Theorem flatten_volumes_only (w : world B) first second rest per_file :
  let in_files := first :: second :: rest in
  let merged := genfname first "merged" in
  Forall2 (splits_into w) in_files per_file ->
  Forall (fun vols => length vols = 1%nat) per_file ->
  match concat_images (concat per_file) with
  | inr series =>
      _flatten_split_merge in_files w =
        (inr (merged, in_files),
         World (<[merged := nb_save series]> (fs w))
           (next_id w + length in_files) (calls w))
  | inl e =>
      _flatten_split_merge in_files w =
        (inl e, World (fs w) (next_id w + length in_files) (calls w))
  end.
Proof.
  intros in_files merged Hall Hone. destruct w as [files n c].
  cbn [fs next_id calls] in *.
  assert (Hlen : length (concat per_file) = length in_files).
  { transitivity (length per_file);
      [|symmetry; exact (Forall2_length _ _ _ Hall)].
    clear Hall. induction Hone as [|vols per_file Hv _ IH]; [reflexivity|].
    cbn [concat]. rewrite length_app, Hv, IH. reflexivity. }
  assert (Hrun : _flatten_split_merge in_files (World files n c) =
    match concat_images (concat per_file) with
    | inl e => (inl e, World files (n + length in_files) c)
    | inr series =>
        (inr (merged, in_files),
         World (<[merged := nb_save series]> files) (n + length in_files) c)
    end).
  { unfold _flatten_split_merge, xbind at 1, of_M at 1.
    rewrite (load_all_volumes _ _ _ _ _ Hall). rewrite Hlen.
    rewrite Nat.eqb_refl. unfold in_files. cbn [length Nat.eqb].
    unfold xbind, xlift, first_of, xret, of_M, lift, write_file.
    destruct (concat_images (concat per_file)) as [e|series]; reflexivity. }
  rewrite Hrun.
  destruct (concat_images (concat per_file)) as [e|series]; reflexivity.
Qed.

End Splitting.

(** ** The average of IntraModalMerge *)

Lemma mean_axis3_shape a m :
  Arr.mean_axis3 a = inr m ->
  exists x y z t post,
    arr_shape a = x :: y :: z :: t :: post /\
    arr_shape m = x :: y :: z :: post.
Proof.
  unfold Arr.mean_axis3. intros Hm.
  destruct (arr_shape a) as [|x [|y [|z [|t post]]]]; try discriminate.
  exists x, y, z, t, post. split; [reflexivity|].
  cbv zeta in Hm. destruct (Z.to_nat t =? 0)%nat.
  - destruct (_ * _ =? 0)%nat; [|discriminate]. injection Hm as <-.
    reflexivity.
  - injection Hm as <-. reflexivity.
Qed.

Lemma amin_lowest data lowest :
  Arr.amin data = inr lowest ->
  (exists y, y ∈ data /\ (y == lowest)%Q) /\
  forall y, y ∈ data -> (lowest <= y)%Q.
Proof.
  destruct data as [|x data]; [discriminate|]. intros [= <-].
  induction data as [|a data IH]; cbn [foldr].
  - split; [exists x; split; [left|reflexivity]|].
    intros y Hy. apply list_elem_of_singleton in Hy. subst y. apply Qle_refl.
  - destruct IH as [(y & Hy & Heq) Hle]. split.
    + destruct (Q.min_dec a (foldr Qmin x data)) as [E|E].
      * exists a. split; [right; left|symmetry; exact E].
      * exists y. split; [|rewrite E; exact Heq].
        apply elem_of_cons in Hy as [->|Hy]; [left|right; right; exact Hy].
    + intros y' Hy'.
      apply elem_of_cons in Hy' as [->|Hy'].
      * eapply Qle_trans; [apply Q.le_min_r|]. apply Hle. left.
      * apply elem_of_cons in Hy' as [->|Hy'].
        -- apply Q.le_min_l.
        -- eapply Qle_trans; [apply Q.le_min_r|]. apply Hle. right. exact Hy'.
Qed.

Lemma zero_based_spec data d :
  zero_based data = inr d ->
  Forall (fun v => (0 <= v)%Q) d /\ Exists (fun v => (v == 0)%Q) d.
Proof.
  unfold zero_based, obind. destruct (Arr.amin data) as [e|lowest] eqn:Hm;
    [discriminate|].
  intros [= <-]. destruct (amin_lowest _ _ Hm) as [(y & Hy & Heq) Hle].
  split.
  - apply Forall_fmap. apply Forall_forall. intros v Hv. unfold compose.
    specialize (Hle _ Hv). lra.
  - apply Exists_exists. exists (y - lowest)%Q. split; [|lra].
    apply list_elem_of_fmap. exists y. split; [reflexivity|exact Hy].
Qed.

Lemma mapM_length {B A C} (f : A -> M B C) (l : list A) :
  forall w r w', mapM f l w = (inr r, w') -> length r = length l.
Proof.
  induction l as [|a l IH]; intros w r w' H.
  - injection H as <- _. reflexivity.
  - cbn [mapM] in H. unfold bind at 1 in H.
    destruct (f a w) as [[e|c] w1]; [discriminate|].
    unfold bind at 1 in H.
    destruct (mapM f l w1) as [[e|cs] w2] eqn:Hl; [discriminate|].
    injection H as <- _. cbn [length]. f_equal. eapply IH. exact Hl.
Qed.

Section Merge.
Context {B : Type} `{!Collaborators (list Q) B} `{!Fsl B}.

(** X19.  One input file that is not five-dimensional and has fewer than
    four axes once squeezed ends [IntraModalMerge] early: the file itself
    is reported as merged file and as average, no matrices or motion
    parameters are reported, no file is written, and neither Merge nor
    MCFLIRT has run, whatever they would do.  With [to_ras] the same
    holds of the reoriented copy, provided it reads back as saved: the
    copy is the only file written, and it is reported in place of the
    average name chosen at the start. *)
Theorem merge_single_volume_ends_early in_file hmc zero_based_avg
  (w : world B) img :
  stored w in_file img ->
  (ndim (dataobj img) <> 5%nat ->
   (ndim (squeeze (dataobj img)) < 4)%nat ->
   IntraModalMerge_run [in_file] hmc zero_based_avg false w =
     (inr (Outputs in_file in_file None None),
      World (fs w) (S (S (next_id w))) (calls w))) /\
  (let ras := genfname in_file "ras" in
   let canon := canonical_form img in
   nb_load (nb_save canon) = inr canon ->
   ndim (dataobj canon) <> 5%nat ->
   (ndim (squeeze (dataobj canon)) < 4)%nat ->
   exists n,
     IntraModalMerge_run [in_file] hmc zero_based_avg true w =
       (inr (Outputs ras ras None None),
        World (<[ras := nb_save canon]> (fs w)) n (calls w))).
Proof.
  intros Hst. split.
  - intros H5 H4. unfold IntraModalMerge_run.
    unfold xbind at 1, xlift at 1, first_of.
    unfold xbind at 1, xret at 1. unfold xbind at 1, of_M at 1, merge_input.
    rewrite (merge_single_run _ _ _ Hst H5).
    apply Nat.ltb_lt in H4. rewrite H4. reflexivity.
  - intros ras canon Hrt H5 H4. unfold IntraModalMerge_run.
    unfold xbind at 1, xlift at 1, first_of.
    unfold xbind at 1, of_M at 1. cbn [mapM]. unfold bind at 1.
    destruct (reorient_stored in_file None w img Hst) as (n & Hrun).
    cbn [default] in Hrun. rewrite Hrun. unfold bind, ret.
    unfold xbind at 1, of_M at 1, merge_input. cbv beta iota.
    match goal with
    | |- context [IntraModalMerge_single _ ?w1] =>
        assert (Hst1 : stored w1 ras canon)
    end.
    { exists (nb_save canon). split; [|exact Hrt]. apply lookup_insert_eq. }
    subst ras canon.
    rewrite (merge_single_run _ _ _ Hst1 H5).
    apply Nat.ltb_lt in H4. rewrite H4.
    eexists. reflexivity.
Qed.

(** X20.  With two or more input files (or none) the reoriented copies
    that [to_ras] asks for are written and then never read: the run is
    the reorientation of every file followed by the run without
    [to_ras] on the original names, so Merge is given the original
    files. *)
Theorem merge_ignores_reoriented_copies in_files hmc zero_based_avg
  (w : world B) :
  length in_files <> 1%nat ->
  IntraModalMerge_run in_files hmc zero_based_avg true w =
    match mapM (fun inf => reorient (V:=list Q) inf None) in_files w with
    | (inl e, w1) => (inl (Raised e), w1)
    | (inr _, w1) => IntraModalMerge_run in_files hmc zero_based_avg false w1
    end.
Proof.
  intros Hlen. unfold IntraModalMerge_run.
  destruct in_files as [|first rest]; [reflexivity|].
  unfold xbind at 1, xlift at 1, first_of.
  unfold xbind at 1, of_M at 1.
  destruct (mapM _ (first :: rest) w) as [[e|names] w1] eqn:Hre;
    [reflexivity|].
  unfold xbind at 3, xlift at 1. unfold xbind at 3, xret at 1.
  apply mapM_length in Hre.
  assert (Hm : merge_input (first :: rest) names
               = merge_input (first :: rest) (first :: rest)).
  { unfold merge_input. destruct names as [|a [|b names]];
      destruct rest as [|c rest]; try discriminate; try reflexivity.
    contradiction. }
  rewrite Hm. reflexivity.
Qed.

(** X21.  When [IntraModalMerge] returns after motion correction, the
    average is saved under the first input's name with the suffix avg; it
    is computed from the file MCFLIRT reported, has its affine and its
    shape without the fourth axis, and is the last file written.  With
    [zero_based_avg] the lowest voxel of the average has been subtracted
    from every voxel: no voxel is negative and some voxel is zero. *)
Theorem merge_average in_files hmc zero_based_avg to_ras (w : world B)
  o w' mats :
  IntraModalMerge_run in_files hmc zero_based_avg to_ras w = (inr o, w') ->
  out_mats o = Some mats ->
  exists first w3 mc avg,
    head in_files = Some first /\
    out_avg o = genfname first "avg" /\
    stored w3 (out_file o) mc /\
    fs w' = <[out_avg o := nb_save avg]> (fs w3) /\
    affine avg = affine mc /\
    (exists x y z t post,
       img_shape mc = x :: y :: z :: t :: post /\
       img_shape avg = x :: y :: z :: post) /\
    (zero_based_avg = true ->
     Forall (fun v => (0 <= v)%Q) (voxels avg) /\
     Exists (fun v => (v == 0)%Q) (voxels avg)).
Proof.
  intros Hrun Hmats. unfold IntraModalMerge_run in Hrun.
  destruct in_files as [|first rest]; [discriminate|].
  unfold xbind at 1, xlift at 1, first_of in Hrun.
  unfold xbind at 1 in Hrun.
  match type of Hrun with
  | context [(if to_ras then ?a else ?b) w] =>
      destruct ((if to_ras then a else b) w) as [[e|names] w1];
        [discriminate|]
  end.
  unfold xbind at 1, of_M at 1 in Hrun.
  destruct (merge_input (first :: rest) names w1) as [[e|exit] w2];
    [discriminate|].
  destruct exit as [file average|in_file].
  { injection Hrun as <- _. discriminate. }
  unfold xbind at 1, of_M at 1 in Hrun.
  destruct (MCFLIRT in_file w2) as [[e|[[mc_file mat_file] par_file]] w3];
    [discriminate|].
  unfold xbind at 1, of_M at 1 in Hrun.
  destruct (nb_load_file_cases mc_file w3) as [(mc & Hmc & Hl)|(e & Hl)];
    rewrite Hl in Hrun; [|discriminate].
  cbn [oval] in Hrun. unfold xbind at 1, xlift at 1 in Hrun.
  destruct (Arr.mean_axis3 (dataobj mc)) as [e|hmcdat] eqn:Hmean;
    [discriminate|].
  unfold xbind at 1, xlift at 1 in Hrun.
  destruct (if zero_based_avg then _ else _) as [e|vox] eqn:Hvox;
    [discriminate|].
  unfold xbind, of_M, new_object, write_file, xret in Hrun.
  cbn [oval fs next_id calls] in Hrun. injection Hrun as <- <-.
  cbn [out_avg out_file fs].
  exists first, w3, mc,
    (Image (Array (arr_shape hmcdat) vox) (affine mc) (header mc)).
  split; [reflexivity|]. split; [reflexivity|]. split; [exact Hmc|].
  split; [reflexivity|]. split; [reflexivity|].
  split; [exact (mean_axis3_shape _ _ Hmean)|].
  unfold voxels. cbn [dataobj arr_buf].
  intros ->. apply zero_based_spec in Hvox as (H0 & Hex).
  split; assumption.
Qed.

End Merge.

(** * The further properties at work *)

Lemma conform_writes_only_outputs_witness :
  let in_names := ["/data/run-1_T1w.nii.gz"; "/data/run-2_T1w.nii.gz"] in
  let out_names := map (ras_name (V:=string) (B:=image string) "/work")
                     in_names in
  let g := "/data/run-1_T1w.nii.gz" in
  let r := ConformSeries_run (V:=string) in_names "/work" Ref.two_runs in
  NoDup out_names /\
  Forall (fun out => fs Ref.two_runs !! out = None) out_names /\
  r = (r.1, r.2) /\
  (g ∉ out_names) /\
  fs r.2 !! g = fs Ref.two_runs !! g.
Proof.
  intros in_names out_names g r.
  assert (Hnd : NoDup out_names)
    by (apply (bool_decide_eq_true_1 _); vm_compute; reflexivity).
  assert (Hnew : Forall (fun out => fs Ref.two_runs !! out = None) out_names)
    by (repeat constructor).
  assert (Hrun : r = (r.1, r.2)) by (destruct r; reflexivity).
  assert (Hg : g ∉ out_names)
    by (apply (bool_decide_eq_false_1 _); vm_compute; reflexivity).
  split; [exact Hnd|]. split; [exact Hnew|].
  split; [exact Hrun|]. split; [exact Hg|].
  exact (conform_writes_only_outputs in_names "/work" Ref.two_runs _ _ g
           Hnd Hnew Hrun Hg).
Defined.

Lemma conform_outputs_exist_witness :
  let in_names := ["/data/run-1_T1w.nii.gz"; "/data/run-2_T1w.nii.gz"] in
  let out_names :=
    ["/work/run-1_T1w_ras.nii.gz"; "/work/run-2_T1w_ras.nii.gz"] in
  let w := Ref.two_runs in
  let r := ConformSeries_run (V:=string) in_names "/work" w in
  r = (inr out_names, r.2) /\
  length out_names = length in_names /\
  (forall i f, in_names !! i = Some f ->
               out_names !! i
               = Some (ras_name (V:=string) (B:=image string) "/work" f)) /\
  (forall out, out ∈ out_names -> is_Some (fs r.2 !! out)) /\
  (forall g, is_Some (fs w !! g) -> is_Some (fs r.2 !! g)).
Proof.
  intros in_names out_names w r.
  assert (Hrun : r = (inr out_names, r.2)) by (vm_compute; reflexivity).
  split; [exact Hrun|].
  exact (conform_outputs_exist in_names "/work" w out_names r.2 Hrun).
Defined.

Lemma conform_raises_before_writing_witness :
  let in_names := ["/data/run-1_T1w.nii.gz"; "/data/run-3_T1w.nii.gz"] in
  let w := Ref.two_runs in
  let f := "/data/run-3_T1w.nii.gz" in
  f ∈ in_names /\
  (forall img : image string, ~ stored w f img) /\
  exists e w',
    ConformSeries_run (V:=string) in_names "/work" w = (inl e, w') /\
    fs w' = fs w /\ calls w' = calls w.
Proof.
  intros in_names w f.
  assert (Hin : f ∈ in_names) by (right; left).
  assert (Hno : forall img : image string, ~ stored w f img).
  { intros img (b & Hb & _). vm_compute in Hb. discriminate. }
  split; [exact Hin|]. split; [exact Hno|].
  exact (proj2 (proj2 (conform_raises_before_writing (V:=string) in_names
                         "/work" w)) f Hin Hno).
Defined.

Lemma conform_resampler_calls_witness :
  let in_names := ["/data/run-1_T1w.nii.gz"; "/data/run-2_T1w.nii.gz"] in
  let out_names :=
    ["/work/run-1_T1w_ras.nii.gz"; "/work/run-2_T1w_ras.nii.gz"] in
  let imgs := [Ref.t1w_30; Ref.t1w_36] in
  let w0 := Ref.two_runs in
  let r := ConformSeries_run (V:=string) in_names "/work" w0 in
  r = (inr out_names, r.2) /\
  Forall2 (stored w0) in_names imgs /\
  exists ts tz asked,
    target_grid (map canonical_form imgs) = inr (ts, tz) /\
    calls r.2 = calls w0 ++ asked /\
    (length asked <= length in_names)%nat /\
    forall c, c ∈ asked ->
      exists id A,
        c = Resample (SrcObject id) (affine_rows A) (Some ts) Continuous /\
        (next_id w0 <= id)%nat /\
        affine_rows A !! 3%nat = Some [0; 0; 0; 1]%Q /\
        length (affine_rows A) = 4%nat.
Proof.
  intros in_names out_names imgs w0 r.
  assert (Hrun : r = (inr out_names, r.2)) by (vm_compute; reflexivity).
  assert (Hs : Forall2 (stored w0) in_names imgs)
    by (repeat constructor; eexists; split; reflexivity).
  split; [exact Hrun|]. split; [exact Hs|].
  exact (conform_resampler_calls in_names "/work" w0 out_names r.2 imgs
           Hrun Hs).
Defined.

Lemma rescale_decision_is_unit_free_witness :
  let img := Ref.axis_aligned [64; 64; 30] 0.002 0.002 0.002
               (-0.064, -0.064, -0.03)%Q "meter" "run-1" in
  let tz := [0.002; 0.002; 0.00195]%Q in
  hdr_xyz_units (header img) = "meter" /\
  decide_rescale (map (Qmult 1000) tz) (in_smaller_unit 1000 "mm" img)
  = decide_rescale tz img.
Proof.
  intros img tz.
  assert (Hunit : hdr_xyz_units (header img) = "meter") by reflexivity.
  split; [exact Hunit|].
  exact (proj1 (rescale_decision_is_unit_free img tz) Hunit).
Defined.

Lemma gen_reference_writes_one_file_witness :
  let w := Ref.registration in
  let out := "mni_reference.nii.gz" in
  let r := _gen_reference (V:=string) "/tpl/mni.nii.gz" "/data/bold-1.nii.gz"
             None w in
  r = (r.1, r.2) /\
  (forall g, g <> out -> fs r.2 !! g = fs w !! g) /\
  (forall e, r.1 = inl e -> fs r.2 = fs w) /\
  (forall name, r.1 = inr name ->
     name = out /\
     exists ref : image string, fs r.2 !! out = Some (nb_save ref)) /\
  ((forall img : image string, ~ stored w "/data/bold-1.nii.gz" img) ->
     r.2 = w /\ exists e, r.1 = inl e).
Proof.
  intros w out r.
  assert (Hrun : r = (r.1, r.2)) by (destruct r; reflexivity).
  split; [exact Hrun|].
  exact (gen_reference_writes_one_file "/tpl/mni.nii.gz"
           "/data/bold-1.nii.gz" None w r.1 r.2 Hrun).
Defined.

Lemma merge_single_checks_five_axes_only_witness :
  let w := Ref.two_runs in
  let f := "/data/run-1_T1w.nii.gz" in
  stored w f Ref.t1w_30 /\
  ndim (dataobj Ref.t1w_30) <> 5%nat /\
  IntraModalMerge_single (V:=string) f w =
    (inr (ReturnedAsIs f f), World (fs w) 2 (calls w)).
Proof.
  intros w f.
  assert (Hs : stored w f Ref.t1w_30) by (eexists; split; reflexivity).
  assert (Hn : ndim (dataobj Ref.t1w_30) <> 5%nat) by (vm_compute; lia).
  split; [exact Hs|]. split; [exact Hn|].
  exact (merge_single_checks_five_axes_only f w Ref.t1w_30 Hs Hn).
Defined.

Lemma reorient_outcome_witness :
  let w := Ref.one_las in
  let out := "las_T1w_ras.nii.gz" in
  stored w "/data/las_T1w.nii.gz" Ref.t1w_las /\
  exists w',
    reorient (V:=string) "/data/las_T1w.nii.gz" None w = (inr out, w') /\
    fs w' = <[out := nb_save (canonical_form Ref.t1w_las)]> (fs w) /\
    calls w' = calls w.
Proof.
  intros w out.
  assert (Hs : stored w "/data/las_T1w.nii.gz" Ref.t1w_las)
    by (eexists; split; reflexivity).
  split; [exact Hs|].
  exact (proj1 (reorient_outcome (V:=string) "/data/las_T1w.nii.gz" None w)
           Ref.t1w_las Hs).
Defined.

Lemma invert_needs_distinct_values_witness :
  let w := RefVox.scans in
  stored w "/data/flat.nii.gz" RefVox.flat /\
  stored w "/data/epi.nii.gz" RefVox.epi /\
  constant (voxels RefVox.flat) /\
  InvertT1w_run "/data/flat.nii.gz" "/data/epi.nii.gz" "/work" w =
    (inl IndexError, World (fs w) 2 (calls w)).
Proof.
  intros w.
  assert (H1 : stored w "/data/flat.nii.gz" RefVox.flat)
    by (eexists; split; reflexivity).
  assert (H2 : stored w "/data/epi.nii.gz" RefVox.epi)
    by (eexists; split; reflexivity).
  assert (Hc : constant (voxels RefVox.flat)).
  { intros x y Hx Hy. apply list_elem_of_In in Hx, Hy.
    simpl in Hx, Hy. intuition (subst; reflexivity). }
  split; [exact H1|]. split; [exact H2|]. split; [exact Hc|].
  exact (proj1 (invert_needs_distinct_values "/data/flat.nii.gz"
                  "/data/epi.nii.gz" "/work" w RefVox.flat RefVox.epi H1 H2)
           (or_introl Hc)).
Defined.

Lemma invert_output_witness :
  let w := RefVox.scans in
  let t1 := RefVox.t1w in
  let epi := RefVox.epi in
  let out := "/work/T1w_inv.nii.gz" in
  let r := InvertT1w_run "/data/T1w.nii.gz" "/data/epi.nii.gz" "/work" w in
  stored w "/data/T1w.nii.gz" t1 /\
  stored w "/data/epi.nii.gz" epi /\
  r = (inr out, r.2) /\
  out = fname_presuffix (Collaborators:=RefVox.voxel_collaborators)
          "/data/T1w.nii.gz" "_inv" "/work" /\
  calls r.2 = calls w /\
  (exists a b c, a ∈ voxels t1 /\ b ∈ voxels t1 /\ c ∈ voxels t1 /\
                 (a < b)%Q /\ (b < c)%Q) /\
  ~ constant (voxels epi) /\
  exists inv,
    fs r.2 = <[out := nb_save inv]> (fs w) /\
    img_shape inv = img_shape t1 /\ affine inv = affine t1 /\
    header inv = header t1 /\
    Forall2 (fun v v' => (v <= 0)%Q -> (v' == 0)%Q) (voxels t1) (voxels inv).
Proof.
  intros w t1 epi out r.
  assert (H1 : stored w "/data/T1w.nii.gz" t1)
    by (eexists; split; reflexivity).
  assert (H2 : stored w "/data/epi.nii.gz" epi)
    by (eexists; split; reflexivity).
  assert (Hrun : r = (inr out, r.2)) by (vm_compute; reflexivity).
  split; [exact H1|]. split; [exact H2|]. split; [exact Hrun|].
  exact (invert_output "/data/T1w.nii.gz" "/data/epi.nii.gz" "/work" w
           t1 epi out r.2 H1 H2 Hrun).
Defined.

Lemma extract_wm_outcome_witness :
  let w := RefVox.scans in
  let seg := RefVox.segmentation in
  let out := "/work/wm.nii.gz" in
  stored w "/data/seg.nii.gz" seg /\
  exists mask w',
    extract_wm "/data/seg.nii.gz" 3 w = (inr out, w') /\
    fs w' = <[out := nb_save mask]> (fs w) /\ calls w' = calls w /\
    img_shape mask = img_shape seg /\ affine mask = affine seg /\
    header mask = header seg /\
    Forall2 (fun v m => ((v == 3)%Q -> m = 1%Q) /\
                        (~ (v == 3)%Q -> m = 0%Q))
      (voxels seg) (voxels mask).
Proof.
  intros w seg out.
  assert (Hs : stored w "/data/seg.nii.gz" seg)
    by (eexists; split; reflexivity).
  split; [exact Hs|].
  exact (proj1 (extract_wm_outcome "/data/seg.nii.gz" 3 w) seg Hs).
Defined.

Lemma extract_wm_overwrites_witness :
  let w := RefVox.scans in
  let out := "/work/wm.nii.gz" in
  let r1 := extract_wm "/data/seg.nii.gz" 3 w in
  let r2 := extract_wm "/data/seg.nii.gz" 2 r1.2 in
  r1 = (inr out, r1.2) /\
  r2 = (inr out, r2.2) /\
  out = out /\
  (forall g, g <> out -> fs r2.2 !! g = fs w !! g) /\
  exists s2 mask,
    stored r1.2 "/data/seg.nii.gz" s2 /\
    fs r2.2 !! out = Some (nb_save mask) /\
    voxels mask = wm_mask 2 (voxels s2).
Proof.
  intros w out r1 r2.
  assert (H1 : r1 = (inr out, r1.2)) by (vm_compute; reflexivity).
  assert (H2 : r2 = (inr out, r2.2)) by (vm_compute; reflexivity).
  split; [exact H1|]. split; [exact H2|].
  exact (extract_wm_overwrites "/data/seg.nii.gz" 3 "/data/seg.nii.gz" 2
           w out r1.2 out r2.2 H1 H2).
Defined.

Lemma extract_wm_of_mask_witness :
  let w := RefVox.scans in
  let out := "/work/wm.nii.gz" in
  let r1 := extract_wm "/data/seg.nii.gz" 3 w in
  (forall img : image (list Q),
     nb_load (Collaborators:=RefVox.voxel_collaborators) (nb_save img) = inr img) /\
  r1 = (inr out, r1.2) /\
  exists w2, extract_wm out 1 r1.2 = (inr out, w2) /\ fs w2 = fs r1.2.
Proof.
  intros w out r1.
  assert (Hrt : forall img : image (list Q),
            nb_load (Collaborators:=RefVox.voxel_collaborators) (nb_save img)
            = inr img) by reflexivity.
  assert (H1 : r1 = (inr out, r1.2)) by (vm_compute; reflexivity).
  split; [exact Hrt|]. split; [exact H1|].
  exact (extract_wm_of_mask "/data/seg.nii.gz" 3 w out r1.2 Hrt H1).
Defined.

Lemma flatten_single_volume_witness :
  let w := RefVox.scans in
  let in_files := ["/data/a.nii.gz"] in
  let per_file := [[RefVox.volume_a]] in
  Forall2 (splits_into w) in_files per_file /\
  length (concat per_file) = 1%nat /\
  exists first,
    head in_files = Some first /\
    _flatten_split_merge (V:=list Q) in_files w =
      (inr (first, in_files),
       World (fs w) (next_id w + length in_files) (calls w)).
Proof.
  intros w in_files per_file.
  assert (Hs : Forall2 (splits_into w) in_files per_file).
  { repeat constructor. exists RefVox.volume_a.
    split; [eexists; split; reflexivity|reflexivity]. }
  assert (Hone : length (concat per_file) = 1%nat) by reflexivity.
  split; [exact Hs|]. split; [exact Hone|].
  exact (proj2 (flatten_single_volume (V:=list Q) w) in_files per_file
           Hs Hone).
Defined.

Lemma flatten_splits_witness :
  let w := RefVox.scans in
  let first := "/data/bold.nii.gz" in
  let vol buf := Image (Array [2; 1; 1] buf) (affine RefVox.series)
                   (header RefVox.series) in
  let vols := [vol [1; 4]%Q; vol [2; 6]%Q; vol [3; 8]%Q] in
  let names := ["bold_split0000.nii.gz"; "bold_split0001.nii.gz";
                "bold_split0002.nii.gz"] in
  Forall2 (splits_into w) [first] [vols] /\
  length vols <> 1%nat /\
  split_names (genfname (Collaborators:=RefVox.voxel_collaborators) first
                 "split%04d") 0 3 names /\
  NoDup names /\
  _flatten_split_merge (V:=list Q) [first] w =
    (inr (first, names), World (save_each names vols (fs w)) 1 []) /\
  save_each names vols (fs w) !! "bold_split0001.nii.gz"
    = Some (vol [2; 6]%Q).
Proof.
  intros w first vol vols names.
  assert (Hs : Forall2 (splits_into w) [first] [vols]).
  { repeat constructor. exists RefVox.series.
    split; [eexists; split; reflexivity|reflexivity]. }
  assert (H1 : length (concat [vols]) <> 1%nat) by (vm_compute; lia).
  assert (Hn : length (concat [vols]) <> length [first])
    by (vm_compute; lia).
  assert (Hnames : split_names
                     (genfname (Collaborators:=RefVox.voxel_collaborators) first
                        "split%04d") 0 (length (concat [vols])) names)
    by (repeat constructor).
  assert (Hnd : NoDup names)
    by (apply (bool_decide_eq_true_1 _); vm_compute; reflexivity).
  destruct (flatten_splits w first [] [vols] names Hs H1 Hn Hnames)
    as (Hone & _ & Hheld).
  split; [exact Hs|]. split; [exact H1|]. split; [exact Hnames|].
  split; [exact Hnd|]. split; [exact (Hone eq_refl)|].
  exact (proj1 (Hheld Hnd 1%nat "bold_split0001.nii.gz" (vol [2; 6]%Q)
                  eq_refl eq_refl)).
Defined.

Lemma flatten_volumes_only_witness :
  let w := RefVox.scans in
  let in_files := ["/data/a.nii.gz"; "/data/b.nii.gz"] in
  let per_file := [[RefVox.volume_a]; [RefVox.volume_b]] in
  let series := Image (Array [2; 1; 1; 2] [1; 2; 4; 6]%Q)
                  (affine RefVox.volume_a) (header RefVox.volume_a) in
  Forall2 (splits_into w) in_files per_file /\
  Forall (fun vols => length vols = 1%nat) per_file /\
  _flatten_split_merge (V:=list Q) in_files w =
    (inr ("a_merged.nii.gz", in_files),
     World (<["a_merged.nii.gz" := series]> (fs w)) 2 []).
Proof.
  intros w in_files per_file series.
  assert (Hs : Forall2 (splits_into w) in_files per_file).
  { repeat constructor.
    - exists RefVox.volume_a.
      split; [eexists; split; reflexivity|reflexivity].
    - exists RefVox.volume_b.
      split; [eexists; split; reflexivity|reflexivity]. }
  assert (Hone : Forall (fun vols : list (image (list Q)) =>
                           length vols = 1%nat) per_file)
    by (repeat constructor).
  split; [exact Hs|]. split; [exact Hone|].
  exact (flatten_volumes_only w "/data/a.nii.gz" "/data/b.nii.gz" []
           per_file Hs Hone).
Defined.

Lemma merge_single_volume_ends_early_witness :
  let w := RefVox.scans in
  let f := "/data/a.nii.gz" in
  stored w f RefVox.volume_a /\
  ndim (dataobj RefVox.volume_a) <> 5%nat /\
  (ndim (squeeze (dataobj RefVox.volume_a)) < 4)%nat /\
  IntraModalMerge_run [f] true true false w =
    (inr (Outputs f f None None), World (fs w) 2 (calls w)).
Proof.
  intros w f.
  assert (Hs : stored w f RefVox.volume_a) by (eexists; split; reflexivity).
  assert (H5 : ndim (dataobj RefVox.volume_a) <> 5%nat) by (vm_compute; lia).
  assert (H4 : (ndim (squeeze (dataobj RefVox.volume_a)) < 4)%nat)
    by (vm_compute; lia).
  split; [exact Hs|]. split; [exact H5|]. split; [exact H4|].
  exact (proj1 (merge_single_volume_ends_early f true true w
                  RefVox.volume_a Hs) H5 H4).
Defined.

Lemma merge_ignores_reoriented_copies_witness :
  let w := RefVox.scans in
  let in_files := ["/data/a.nii.gz"; "/data/b.nii.gz"] in
  length in_files <> 1%nat /\
  IntraModalMerge_run in_files true true true w =
    match mapM (fun inf => reorient (V:=list Q) inf None) in_files w with
    | (inl e, w1) => (inl (Raised e), w1)
    | (inr _, w1) => IntraModalMerge_run in_files true true false w1
    end.
Proof.
  intros w in_files.
  assert (Hlen : length in_files <> 1%nat) by (vm_compute; lia).
  split; [exact Hlen|].
  exact (merge_ignores_reoriented_copies in_files true true w Hlen).
Defined.

Lemma merge_average_witness :
  let w := RefVox.scans in
  let in_files := ["/data/a.nii.gz"; "/data/b.nii.gz"] in
  let mats := ["a_merged_mcf.nii.gz.mat/MAT_0000";
               "a_merged_mcf.nii.gz.mat/MAT_0001"] in
  let o := Outputs "a_merged_mcf.nii.gz" "a_avg.nii.gz" (Some mats)
             (Some "a_merged_mcf.nii.gz.par") in
  let r := IntraModalMerge_run in_files true true false w in
  r = (inr o, r.2) /\
  out_mats o = Some mats /\
  exists first w3 mc avg,
    head in_files = Some first /\
    out_avg o = genfname (Collaborators:=RefVox.voxel_collaborators) first "avg" /\
    stored w3 (out_file o) mc /\
    fs r.2 = <[out_avg o := nb_save avg]> (fs w3) /\
    affine avg = affine mc /\
    (exists x y z t post,
       img_shape mc = x :: y :: z :: t :: post /\
       img_shape avg = x :: y :: z :: post) /\
    (true = true ->
     Forall (fun v => (0 <= v)%Q) (voxels avg) /\
     Exists (fun v => (v == 0)%Q) (voxels avg)).
Proof.
  intros w in_files mats o r.
  assert (Hrun : r = (inr o, r.2)) by (vm_compute; reflexivity).
  assert (Hmats : out_mats o = Some mats) by reflexivity.
  split; [exact Hrun|]. split; [exact Hmats|].
  exact (merge_average in_files true true false w o r.2 mats Hrun Hmats).
Defined.
